(** * A shallow embedding of the bytecode virtual machine

    The development follows the "Virtual Machine.cpp" part of the sources:
    the tagged [Value] model, the heap [Object]s, the mark-and-sweep
    [GarbageCollector], the bytecode [Chunk], the [VM] execution loop and the
    label-resolving [Assembler].

    Conventions of the embedding.
    - [int64_t] and [int32_t] values are integers of [Z]; arithmetic that can
      leave the range is wrapped explicitly ([wrap64], [wrap32]).
    - [size_t] values (instruction pointer, return addresses, thresholds) are
      non-negative integers of [Z]; a [std::vector] is a [list] whose last
      element is [back()].
    - [Object*] is an address of [N], [0] being [nullptr]; the free store is a
      finite map from addresses to objects.
    - [std::cout] and [std::cerr] are lists of the lines written so far.
    - A step that dereferences a null or dangling pointer, indexes a vector
      out of range, lets an exception escape, or divides the smallest
      [int64_t] by -1 (the quotient does not exist and the division
      instruction traps) has no successor ([None]).
    - The machine runs with [debugMode = false], its default. *)

From stdpp Require Import gmap strings list pretty.
From Stdlib Require Import ZArith.

Open Scope Z_scope.

(** ** Machine integers *)

Definition wrap64 (z : Z) : Z := (z + 2 ^ 63) mod 2 ^ 64 - 2 ^ 63.
Definition wrap32 (z : Z) : Z := (z + 2 ^ 31) mod 2 ^ 32 - 2 ^ 31.

(** Conversion of a signed integer to [size_t]. *)
Definition to_size_t (z : Z) : Z := z mod 2 ^ 64.

Definition in_int64 (z : Z) : Prop := - 2 ^ 63 <= z < 2 ^ 63.

(** ** Instruction set *)

Inductive OpCode : Set :=
  | PUSH | POP | DUP | SWAP
  | ADD | SUB | MUL | DIV | MOD | NEG
  | EQ | NE | LT | LE | GT | GE
  | AND | OR | NOT
  | LOAD | STORE | LOAD_GLOBAL | STORE_GLOBAL
  | JMP | JMP_IF_FALSE | JMP_IF_TRUE | CALL | RET
  | NEW_ARRAY | ARRAY_GET | ARRAY_SET | ARRAY_LEN
  | PRINT | HALT | NOP.

(** ** Values and objects *)

Abbreviation ptr := N (only parsing).
Definition nullptr : ptr := 0%N.

(** [Double] carries the IEEE-754 binary64 bit pattern of [as.real]. *)
Inductive Value : Set :=
  | Nil
  | Bool (boolean : bool)
  | Int (integer : Z)
  | Double (real : Z)
  | Obj (object : ptr).

Inductive ObjectType : Set := ARRAY | STRING.

Inductive ObjectData : Set :=
  | ArrayObject (elements : list Z)
  | StringObject (data : string).

Record Object : Set := mkObject { payload : ObjectData; marked : bool }.

Definition type (o : Object) : ObjectType :=
  match payload o with
  | ArrayObject _ => ARRAY
  | StringObject _ => STRING
  end.

(** [ArrayObject(size)]: [size] elements, all zero, unmarked. *)
Definition new_ArrayObject (size : nat) : Object :=
  mkObject (ArrayObject (replicate size 0)) false.

Definition set_marked (b : bool) (o : Object) : Object :=
  mkObject (payload o) b.

(** [as.real != 0.0]: every pattern but the two zeros (NaN compares unequal). *)
Definition real_nonzero (bits : Z) : bool :=
  negb (Z.land bits (2 ^ 63 - 1) =? 0).

Definition isTruthy (v : Value) : bool :=
  match v with
  | Nil => false
  | Bool b => b
  | Int i => negb (i =? 0)
  | Double d => real_nonzero d
  | Obj p => negb (p =? nullptr)%N
  end.

Definition two_digits (n : Z) : string :=
  if n <? 10 then "0" +:+ pretty n else pretty n.

(** [std::fixed << std::setprecision(2)] on a binary64 value: the exact value
    in hundredths, rounded to nearest with ties to even. *)
Definition fixed2 (bits : Z) : string :=
  let sign := if Z.testbit bits 63 then "-" else "" in
  let e := Z.land (Z.shiftr bits 52) 2047 in
  let m := Z.land bits (2 ^ 52 - 1) in
  if e =? 2047 then sign +:+ (if m =? 0 then "inf" else "nan")
  else
    let mant := if e =? 0 then m else m + 2 ^ 52 in
    let ex := (if e =? 0 then 1 else e) - 1075 in
    let den := if ex <? 0 then 2 ^ (- ex) else 1 in
    let num := if ex <? 0 then 100 * mant else 100 * mant * 2 ^ ex in
    let q := num / den in
    let r := num mod den in
    let n := if (den <? 2 * r) || ((2 * r =? den) && Z.odd q) then q + 1 else q in
    sign +:+ pretty (n / 100) +:+ "." +:+ two_digits (n mod 100).

(** [Value::toString]; reading [as.object->type] needs a live object. *)
Definition toString (h : gmap N Object) (v : Value) : option string :=
  match v with
  | Nil => Some "nil"
  | Bool b => Some (if b then "true" else "false")
  | Int i => Some (pretty i)
  | Double d => Some (fixed2 d)
  | Obj p =>
      if (p =? nullptr)%N then None
      else
        match h !! p with
        | Some o =>
            match payload o with
            | StringObject s => Some s
            | ArrayObject _ => Some "[Array]"
            end
        | None => None
        end
  end.

(** ** Garbage collector *)

Record GarbageCollector : Set := mkGC {
  objects : list ptr;
  nextGC : Z;
  threshold : Z
}.

Definition new_GarbageCollector : GarbageCollector := mkGC [] 8 8.

Definition markObject (obj : ptr) (h : gmap N Object) : option (gmap N Object) :=
  if (obj =? nullptr)%N then Some h
  else
    match h !! obj with
    | None => None
    | Some o =>
        if marked o then Some h
        else Some (<[obj := set_marked true o]> h)
    end.

Definition markValue (value : Value) (h : gmap N Object) : option (gmap N Object) :=
  match value with
  | Obj p => if (p =? nullptr)%N then Some h else markObject p h
  | _ => Some h
  end.

(** The two [for (const auto& value : ...) markValue(value)] loops. *)
Fixpoint markValues (values : list Value) (h : gmap N Object)
  : option (gmap N Object) :=
  match values with
  | [] => Some h
  | v :: rest =>
      match markValue v h with
      | Some h' => markValues rest h'
      | None => None
      end
  end.

(** [sweep]: the iterator walks the registry once; an unmarked object is
    deleted and erased, a marked one is unmarked and kept. *)
Fixpoint sweep (objs : list ptr) (h : gmap N Object)
  : option (list ptr * gmap N Object) :=
  match objs with
  | [] => Some ([], h)
  | p :: rest =>
      match h !! p with
      | None => None
      | Some o =>
          if negb (marked o) then sweep rest (delete p h)
          else
            match sweep rest (<[p := set_marked false o]> h) with
            | Some (kept, h') => Some (p :: kept, h')
            | None => None
            end
      end
  end.

(** [new T(...)] returns an address that is neither null nor in use. *)
Definition fresh_ptr (h : gmap N Object) : ptr :=
  N.succ (foldr N.max 0%N (map_to_list h).*1).

Definition allocate (o : Object) (g : GarbageCollector) (h : gmap N Object)
  : ptr * GarbageCollector * gmap N Object :=
  let p := fresh_ptr h in
  (p, mkGC (objects g ++ [p]) (nextGC g) (threshold g), <[p := o]> h).

Definition collect (stack globals : list Value)
    (g : GarbageCollector) (h : gmap N Object)
  : option (GarbageCollector * gmap N Object) :=
  match markValues stack h with
  | None => None
  | Some h1 =>
      match markValues globals h1 with
      | None => None
      | Some h2 =>
          match sweep (objects g) h2 with
          | None => None
          | Some (objs, h3) =>
              let next := Z.of_nat (length objs) * 2 in
              Some (mkGC objs
                      (if next <? threshold g then threshold g else next)
                      (threshold g),
                    h3)
          end
      end
  end.

Definition shouldCollect (g : GarbageCollector) : bool :=
  nextGC g <=? Z.of_nat (length (objects g)).

Definition objectCount (g : GarbageCollector) : Z :=
  Z.of_nat (length (objects g)).

(** ** Bytecode chunk *)

Record Instruction : Set := mkInstruction { opcode : OpCode; operand : Z }.

Record Chunk : Set := mkChunk {
  code : list Instruction;
  constants : list Value;
  lines : list Z
}.

Definition empty_Chunk : Chunk := mkChunk [] [] [].

Definition write (instr : Instruction) (line : Z) (c : Chunk) : Chunk :=
  mkChunk (code c ++ [instr]) (constants c) (lines c ++ [line]).

Definition addConstant (value : Value) (c : Chunk) : Z * Chunk :=
  let c' := mkChunk (code c) (constants c ++ [value]) (lines c) in
  (Z.of_nat (length (constants c')) - 1, c').

(** ** Virtual machine *)

(** The members of [VM], followed by the part of the world it acts on: the
    free store and the two output streams. *)
Record VM : Set := mkVM {
  chunk : option Chunk;
  ip : Z;
  stack : list Value;
  globals : list Value;
  callStack : list Z;
  gc : GarbageCollector;
  running : bool;
  heap : gmap N Object;
  cout : list string;
  cerr : list string
}.

(** [VM()]: no chunk, [ip = 0], 256 global slots holding [Value()]. *)
Definition new_VM (h : gmap N Object) (out err : list string) : VM :=
  mkVM None 0 [] (replicate 256 Nil) [] new_GarbageCollector true h out err.

Definition set_ip (x : Z) (vm : VM) : VM :=
  mkVM (chunk vm) x (stack vm) (globals vm) (callStack vm) (gc vm)
       (running vm) (heap vm) (cout vm) (cerr vm).
Definition set_stack (x : list Value) (vm : VM) : VM :=
  mkVM (chunk vm) (ip vm) x (globals vm) (callStack vm) (gc vm)
       (running vm) (heap vm) (cout vm) (cerr vm).
Definition set_globals (x : list Value) (vm : VM) : VM :=
  mkVM (chunk vm) (ip vm) (stack vm) x (callStack vm) (gc vm)
       (running vm) (heap vm) (cout vm) (cerr vm).
Definition set_callStack (x : list Z) (vm : VM) : VM :=
  mkVM (chunk vm) (ip vm) (stack vm) (globals vm) x (gc vm)
       (running vm) (heap vm) (cout vm) (cerr vm).
Definition set_running (x : bool) (vm : VM) : VM :=
  mkVM (chunk vm) (ip vm) (stack vm) (globals vm) (callStack vm) (gc vm)
       x (heap vm) (cout vm) (cerr vm).
Definition set_gc_heap (g : GarbageCollector) (h : gmap N Object) (vm : VM) : VM :=
  mkVM (chunk vm) (ip vm) (stack vm) (globals vm) (callStack vm) g
       (running vm) h (cout vm) (cerr vm).
Definition set_heap (h : gmap N Object) (vm : VM) : VM :=
  set_gc_heap (gc vm) h vm.
Definition set_cout (x : list string) (vm : VM) : VM :=
  mkVM (chunk vm) (ip vm) (stack vm) (globals vm) (callStack vm) (gc vm)
       (running vm) (heap vm) x (cerr vm).
Definition set_cerr (x : list string) (vm : VM) : VM :=
  mkVM (chunk vm) (ip vm) (stack vm) (globals vm) (callStack vm) (gc vm)
       (running vm) (heap vm) (cout vm) x.

(** A member function is a state transformer that may have no successor. *)
Definition M (A : Type) : Type := VM -> option (A * VM).

Definition ret {A} (a : A) : M A := fun vm => Some (a, vm).
Definition bind {A B} (m : M A) (k : A -> M B) : M B :=
  fun vm => match m vm with
            | Some (a, vm') => k a vm'
            | None => None
            end.
Definition undefined {A} : M A := fun _ => None.
Definition modify (f : VM -> VM) : M unit := fun vm => Some (tt, f vm).
Definition get {A} (f : VM -> A) : M A := fun vm => Some (f vm, vm).

Notation "'let*' x := m 'in' k" := (bind m (fun x => k))
  (at level 10, x name, m at level 100, k at level 200).

(** [back()] and [pop_back()] of a vector, in one go. *)
Definition pop_back {A} (l : list A) : option (list A * A) :=
  match last l with
  | Some x => Some (removelast l, x)
  | None => None
  end.

Definition push (value : Value) : M unit :=
  modify (fun vm => set_stack (stack vm ++ [value]) vm).

Definition runtimeError (message : string) : M unit :=
  modify (fun vm =>
    set_running false
      (set_cerr (cerr vm ++ ["Runtime Error: " +:+ message;
                             "  at instruction " +:+ pretty (ip vm)]) vm)).

Definition pop : M Value :=
  let* s := get stack in
  match pop_back s with
  | None => let* _ := runtimeError "Stack underflow" in ret Nil
  | Some (s', value) => let* _ := modify (set_stack s') in ret value
  end.

Definition peek (distance : Z) (vm : VM) : Value :=
  if Z.of_nat (length (stack vm)) <=? distance then Nil
  else default Nil
         (stack vm !! Z.to_nat (Z.of_nat (length (stack vm)) - 1 - distance)).

(** [binaryOp]. The host's [/] and [%] have no result for the smallest
    [int64_t] divided by -1, which the source does not guard against. *)
Definition binaryOp (op : OpCode) : M Value :=
  let* b := pop in
  let* a := pop in
  match a, b with
  | Int x, Int y =>
      match op with
      | ADD => ret (Int (wrap64 (x + y)))
      | SUB => ret (Int (wrap64 (x - y)))
      | MUL => ret (Int (wrap64 (x * y)))
      | DIV =>
          if y =? 0 then let* _ := runtimeError "Division by zero" in ret Nil
          else if (x =? - 2 ^ 63) && (y =? -1) then undefined
          else ret (Int (wrap64 (x ÷ y)))
      | MOD =>
          if y =? 0 then let* _ := runtimeError "Modulo by zero" in ret Nil
          else if (x =? - 2 ^ 63) && (y =? -1) then undefined
          else ret (Int (wrap64 (Z.rem x y)))
      | LT => ret (Bool (x <? y))
      | LE => ret (Bool (x <=? y))
      | GT => ret (Bool (y <? x))
      | GE => ret (Bool (y <=? x))
      | EQ => ret (Bool (x =? y))
      | NE => ret (Bool (negb (x =? y)))
      | _ => let* _ := runtimeError "Invalid binary operation" in ret Nil
      end
  | _, _ => let* _ := runtimeError "Operands must be integers" in ret Nil
  end.

(** Reading the array behind [arr.as.object]; [None] when the pointer does
    not address a live object. *)
Definition deref (p : ptr) : M Object :=
  fun vm => if (p =? nullptr)%N then None
            else match heap vm !! p with
                 | Some o => Some (o, vm)
                 | None => None
                 end.

Definition in_bounds (i : Z) (size : Z) : bool := (0 <=? i) && (i <? size).

(** The body of [switch (instr.opcode)]; [c] is [*chunk]. *)
Definition dispatch (c : Chunk) (instr : Instruction) : M unit :=
  match opcode instr with
  | PUSH =>
      if in_bounds (operand instr) (wrap32 (Z.of_nat (length (constants c))))
      then match constants c !! Z.to_nat (operand instr) with
           | Some v => push v
           | None => undefined
           end
      else ret tt
  | POP => let* _ := pop in ret tt
  | DUP => let* v := get (peek 0) in push v
  | SWAP =>
      let* b := pop in
      let* a := pop in
      let* _ := push b in
      push a
  | ADD | SUB | MUL | DIV | MOD | LT | LE | GT | GE | EQ | NE =>
      let* v := binaryOp (opcode instr) in
      push v
  | NEG =>
      let* a := pop in
      match a with
      | Int x => push (Int (wrap64 (- x)))
      | _ => runtimeError "Operand must be integer"
      end
  | NOT =>
      let* a := pop in
      push (Bool (negb (isTruthy a)))
  | AND =>
      let* b := pop in
      let* a := pop in
      push (Bool (isTruthy a && isTruthy b))
  | OR =>
      let* b := pop in
      let* a := pop in
      push (Bool (isTruthy a || isTruthy b))
  | LOAD_GLOBAL =>
      let* g := get globals in
      if in_bounds (operand instr) (wrap32 (Z.of_nat (length g)))
      then match g !! Z.to_nat (operand instr) with
           | Some v => push v
           | None => undefined
           end
      else ret tt
  | STORE_GLOBAL =>
      let* g := get globals in
      if in_bounds (operand instr) (wrap32 (Z.of_nat (length g)))
      then if (Z.to_nat (operand instr) <? length g)%nat
           then let* v := get (peek 0) in
                modify (set_globals (<[Z.to_nat (operand instr) := v]> g))
           else undefined
      else ret tt
  | JMP => modify (set_ip (to_size_t (operand instr)))
  | JMP_IF_FALSE =>
      let* v := get (peek 0) in
      if negb (isTruthy v) then modify (set_ip (to_size_t (operand instr)))
      else ret tt
  | JMP_IF_TRUE =>
      let* v := get (peek 0) in
      if isTruthy v then modify (set_ip (to_size_t (operand instr)))
      else ret tt
  | CALL =>
      let* _ := modify (fun vm => set_callStack (callStack vm ++ [ip vm]) vm) in
      modify (set_ip (to_size_t (operand instr)))
  | RET =>
      let* cs := get callStack in
      match pop_back cs with
      | Some (cs', addr) =>
          let* _ := modify (set_ip addr) in
          modify (set_callStack cs')
      | None => modify (set_running false)
      end
  | NEW_ARRAY =>
      if operand instr <? 0 then undefined
      else
        let* arr := (fun vm =>
          let '(p, g, h) :=
            allocate (new_ArrayObject (Z.to_nat (operand instr)))
                     (gc vm) (heap vm) in
          Some (p, set_gc_heap g h vm)) in
        push (Obj arr)
  | ARRAY_GET =>
      let* idx := pop in
      let* arr := pop in
      match arr with
      | Obj p =>
          let* o := deref p in
          match payload o, idx with
          | ArrayObject els, Int i =>
              if in_bounds i (Z.of_nat (length els))
              then match els !! Z.to_nat i with
                   | Some x => push (Int x)
                   | None => undefined
                   end
              else runtimeError "Array index out of bounds"
          | _, _ => runtimeError "Invalid array access"
          end
      | _ => runtimeError "Invalid array access"
      end
  | ARRAY_SET =>
      let* val := pop in
      let* idx := pop in
      let* arr := pop in
      match arr with
      | Obj p =>
          let* o := deref p in
          match payload o, idx, val with
          | ArrayObject els, Int i, Int x =>
              if in_bounds i (Z.of_nat (length els))
              then modify (fun vm =>
                     set_heap
                       (<[p := mkObject (ArrayObject (<[Z.to_nat i := x]> els))
                                        (marked o)]> (heap vm)) vm)
              else runtimeError "Array index out of bounds"
          | _, _, _ => runtimeError "Invalid array assignment"
          end
      | _ => runtimeError "Invalid array assignment"
      end
  | ARRAY_LEN =>
      let* arr := pop in
      match arr with
      | Obj p =>
          let* o := deref p in
          match payload o with
          | ArrayObject els => push (Int (Z.of_nat (length els)))
          | _ => runtimeError "Operand must be array"
          end
      | _ => runtimeError "Operand must be array"
      end
  | PRINT =>
      let* v := pop in
      let* h := get heap in
      match toString h v with
      | Some s => modify (fun vm => set_cout (cout vm ++ [s]) vm)
      | None => undefined
      end
  | HALT => modify (set_running false)
  | NOP => ret tt
  | LOAD | STORE => runtimeError "Unknown opcode"
  end.

(** [if (gc.shouldCollect()) gc.collect(stack, globals);] *)
Definition maybe_collect : M unit :=
  fun vm =>
    if shouldCollect (gc vm) then
      match collect (stack vm) (globals vm) (gc vm) (heap vm) with
      | Some (g, h) => Some (tt, set_gc_heap g h vm)
      | None => None
      end
    else Some (tt, vm).

(** One iteration of the [while] loop of [execute]. *)
Definition step : M unit :=
  fun vm =>
    match chunk vm with
    | None => None
    | Some c =>
        (let* _ := maybe_collect in
         let* i := get ip in
         match code c !! Z.to_nat i with
         | None => undefined
         | Some instr =>
             let* _ := modify (set_ip (i + 1)) in
             dispatch c instr
         end) vm
    end.

Inductive Outcome (A : Type) : Type :=
  | Done (a : A)
  | Crashed
  | OutOfFuel.
Arguments Done {A} a.
Arguments Crashed {A}.
Arguments OutOfFuel {A}.

(** [running && ip < chunk->code.size()] *)
Definition loop_guard (vm : VM) : bool :=
  match chunk vm with
  | Some c => running vm && (ip vm <? Z.of_nat (length (code c)))
  | None => false
  end.

(** The [while] loop, bounded by [fuel] iterations. *)
Fixpoint run (fuel : nat) (vm : VM) : Outcome VM :=
  if loop_guard vm then
    match fuel with
    | O => OutOfFuel
    | S fuel' =>
        match step vm with
        | Some (_, vm') => run fuel' vm'
        | None => Crashed
        end
    end
  else Done vm.

(** The assignments that open [execute]. *)
Definition execute_begin (programChunk : Chunk) (vm : VM) : VM :=
  mkVM (Some programChunk) 0 [] (globals vm) (callStack vm) (gc vm)
       true (heap vm) (cout vm) (cerr vm).

(** [return running || ip >= chunk->code.size();] *)
Definition execute_result (programChunk : Chunk) (vm : VM) : bool :=
  running vm || (Z.of_nat (length (code programChunk)) <=? ip vm).

Definition execute (fuel : nat) (programChunk : Chunk) (vm : VM)
  : Outcome (bool * VM) :=
  match run fuel (execute_begin programChunk vm) with
  | Done vm' => Done (execute_result programChunk vm', vm')
  | Crashed => Crashed
  | OutOfFuel => OutOfFuel
  end.

(** ** Assembler *)

Module Asm.

(** [chunk] is the chunk the assembler points to. *)
Record Assembler : Set := mkAssembler {
  chunk : Chunk;
  labels : gmap string Z;
  unresolvedJumps : list (Z * string);
  currentLine : Z
}.

Definition new_Assembler (c : Chunk) : Assembler :=
  mkAssembler c ∅ [] 1.

Definition emit (instr : Instruction) (a : Assembler) : Assembler :=
  mkAssembler (write instr (currentLine a) (chunk a))
              (labels a) (unresolvedJumps a) (currentLine a).

Definition code_size (a : Assembler) : Z :=
  Z.of_nat (length (code (chunk a))).

(** [labels[name] = chunk->code.size();] *)
Definition label (name : string) (a : Assembler) : Assembler :=
  mkAssembler (chunk a) (<[name := code_size a]> (labels a))
              (unresolvedJumps a) (currentLine a).

Definition push (value : Z) (a : Assembler) : Assembler :=
  let '(idx, c) := addConstant (Int value) (chunk a) in
  mkAssembler (write (mkInstruction PUSH (wrap32 idx)) (currentLine a) c)
              (labels a) (unresolvedJumps a) (currentLine a).

Definition op (opcode : OpCode) (a : Assembler) : Assembler :=
  emit (mkInstruction opcode 0) a.

Definition emit_jump (opcode : OpCode) (name : string) (a : Assembler)
  : Assembler :=
  emit (mkInstruction opcode 0)
       (mkAssembler (chunk a) (labels a)
                    (unresolvedJumps a ++ [(code_size a, name)])
                    (currentLine a)).

Definition jump (name : string) : Assembler -> Assembler :=
  emit_jump JMP name.
Definition jumpIfFalse (name : string) : Assembler -> Assembler :=
  emit_jump JMP_IF_FALSE name.
Definition jumpIfTrue (name : string) : Assembler -> Assembler :=
  emit_jump JMP_IF_TRUE name.

Definition loadGlobal (idx : Z) : Assembler -> Assembler :=
  emit (mkInstruction LOAD_GLOBAL idx).
Definition storeGlobal (idx : Z) : Assembler -> Assembler :=
  emit (mkInstruction STORE_GLOBAL idx).
Definition newArray (size : Z) : Assembler -> Assembler :=
  emit (mkInstruction NEW_ARRAY size).

Definition nextLine (a : Assembler) : Assembler :=
  mkAssembler (chunk a) (labels a) (unresolvedJumps a) (currentLine a + 1).

Definition set_operand (x : Z) (instr : Instruction) : Instruction :=
  mkInstruction (opcode instr) x.

Definition undefined_label (name : string) : string :=
  "Error: Undefined label '" +:+ name +:+ "'".

(** The loop of [resolve] over the unresolved jumps: the patched code and
    the lines written to [std::cerr]; [None] if an offset lies outside the
    code. *)
Fixpoint resolve_jumps (labels : gmap string Z) (jumps : list (Z * string))
    (cd : list Instruction) (err : list string)
  : option (list Instruction * list string) :=
  match jumps with
  | [] => Some (cd, err)
  | (offset, labelName) :: rest =>
      match labels !! labelName with
      | Some target =>
          if in_bounds offset (Z.of_nat (length cd))
          then resolve_jumps labels rest
                 (alter (set_operand (wrap32 target)) (Z.to_nat offset) cd)
                 err
          else None
      | None =>
          resolve_jumps labels rest cd (err ++ [undefined_label labelName])
      end
  end.

Definition resolve (a : Assembler) (err : list string)
  : option (Assembler * list string) :=
  match resolve_jumps (labels a) (unresolvedJumps a) (code (chunk a)) err with
  | Some (cd, err') =>
      Some (mkAssembler
              (mkChunk cd (constants (chunk a)) (lines (chunk a)))
              (labels a) (unresolvedJumps a) (currentLine a),
            err')
  | None => None
  end.

(** The builder calls a client can make before [resolve]. *)
Inductive Call : Set :=
  | CLabel (name : string)
  | CPush (value : Z)
  | COp (opcode : OpCode)
  | CJump (name : string)
  | CJumpIfFalse (name : string)
  | CJumpIfTrue (name : string)
  | CLoadGlobal (idx : Z)
  | CStoreGlobal (idx : Z)
  | CNewArray (size : Z)
  | CNextLine.

Definition call (k : Call) : Assembler -> Assembler :=
  match k with
  | CLabel name => label name
  | CPush value => push value
  | COp opcode => op opcode
  | CJump name => jump name
  | CJumpIfFalse name => jumpIfFalse name
  | CJumpIfTrue name => jumpIfTrue name
  | CLoadGlobal idx => loadGlobal idx
  | CStoreGlobal idx => storeGlobal idx
  | CNewArray size => newArray size
  | CNextLine => nextLine
  end.

(** A build: an assembler over chunk [c] receiving [calls] in order. *)
Definition build (c : Chunk) (calls : list Call) : Assembler :=
  foldl (fun a k => call k a) (new_Assembler c) calls.

End Asm.

(** * Specification vocabulary *)

#[global] Instance Value_eq_dec : EqDecision Value.
Proof. solve_decision. Defined.

(** A root collection references [p]: some root is a non-null [Obj p]. *)
Definition referenced (roots : list Value) (p : ptr) : Prop :=
  p ≠ nullptr ∧ Obj p ∈ roots.

#[global] Instance referenced_dec roots p : Decision (referenced roots p).
Proof. unfold referenced. apply _. Defined.

(** The registry holds distinct, live, non-null addresses; the floor of the
    collection threshold is positive. *)
Definition registry_ok (g : GarbageCollector) (h : gmap N Object) : Prop :=
  NoDup (objects g) ∧
  (∀ p, p ∈ objects g → p ≠ nullptr ∧ is_Some (h !! p)) ∧
  0 < threshold g.

(** Outside a collection pass no registered object is marked. *)
Definition all_unmarked (g : GarbageCollector) (h : gmap N Object) : Prop :=
  ∀ p o, p ∈ objects g → h !! p = Some o → marked o = false.

(** Every object reference among the roots is null or addresses a live
    object. *)
Definition roots_ok (roots : list Value) (h : gmap N Object) : Prop :=
  ∀ p, Obj p ∈ roots → p = nullptr ∨ is_Some (h !! p).

Definition is_marked (h : gmap N Object) (p : ptr) : Prop :=
  ∃ o, h !! p = Some o ∧ marked o = true.

#[global] Instance is_marked_dec h p : Decision (is_marked h p).
Proof.
  unfold is_marked. destruct (h !! p) as [o|] eqn:E.
  - destruct (marked o) eqn:Em.
    + left. eauto.
    + right. intros (o' & Ho & Hm). congruence.
  - right. intros (o' & Ho & _). congruence.
Defined.

(** The state a [VM] is in between instructions: 256 global slots (set up by
    the constructor and never resized), a well-formed unmarked registry, and
    roots that address live objects. *)
Definition vm_ok (vm : VM) : Prop :=
  length (globals vm) = 256%nat ∧
  registry_ok (gc vm) (heap vm) ∧
  all_unmarked (gc vm) (heap vm) ∧
  roots_ok (stack vm ++ globals vm) (heap vm).

(** ** Concrete inputs *)

(** Three registered objects at addresses 1, 2 and 3. *)
Definition sample_heap : gmap N Object :=
  <[1%N := new_ArrayObject 2]>
    (<[2%N := new_ArrayObject 1]>
       (<[3%N := mkObject (StringObject "s") false]> ∅)).

Definition sample_gc : GarbageCollector := mkGC [1%N; 2%N; 3%N] 8 8.

(** Eight registered arrays, none of them referenced: the state in which the
    first collection of a run is triggered. *)
Definition eight_heap : gmap N Object :=
  list_to_map ((fun p => (p, new_ArrayObject 1)) <$>
               [1%N; 2%N; 3%N; 4%N; 5%N; 6%N; 7%N; 8%N]).

Definition eight_gc : GarbageCollector :=
  mkGC [1%N; 2%N; 3%N; 4%N; 5%N; 6%N; 7%N; 8%N] 8 8.

(** What every assembler reached by builder calls satisfies: the recorded
    jump offsets are distinct positions of placeholder instructions (operand
    0) inside the code, and every label lies within the code or at its end. *)
Definition asm_ok (a : Asm.Assembler) : Prop :=
  NoDup (Asm.unresolvedJumps a).*1 ∧
  (∀ off name, (off, name) ∈ Asm.unresolvedJumps a →
     0 <= off < Asm.code_size a ∧
     ∃ opc, code (Asm.chunk a) !! Z.to_nat off = Some (mkInstruction opc 0)) ∧
  (∀ name target, Asm.labels a !! name = Some target →
     0 <= target <= Asm.code_size a).

(** The names of the unresolved jumps whose label is not defined. *)
Definition undefined_names (labels : gmap string Z) (jumps : list (Z * string))
  : list string :=
  (filter (fun j => labels !! j.2 = None) jumps).*2.

(** A build with a forward jump to a label defined later and a jump to a
    label that is never defined. *)
Definition forward_jump_calls : list Asm.Call :=
  [Asm.CJump "end"; Asm.COp NOP; Asm.CLabel "end";
   Asm.CJump "nowhere"; Asm.COp HALT].

(** A jump to a label that is never defined, and the same program with the
    jump aimed at a label defined at instruction 0. *)
Definition undefined_jump_calls : list Asm.Call :=
  [Asm.COp NOP; Asm.CJump "missing"; Asm.COp HALT].
Definition jump_to_start_calls : list Asm.Call :=
  [Asm.CLabel "start"; Asm.COp NOP; Asm.CJump "start"; Asm.COp HALT].

(** A build that defines the label ["L"] twice. *)
Definition duplicate_label_calls : list Asm.Call :=
  [Asm.CLabel "L"; Asm.COp NOP; Asm.CJump "L"; Asm.CLabel "L"; Asm.COp HALT].

(** ** Programs used in the statements about [execute] *)

Definition fresh_VM : VM := new_VM ∅ [] [].

(** The five arithmetic opcodes. *)
Definition arith_op (op : OpCode) : bool :=
  match op with
  | ADD | SUB | MUL | DIV | MOD => true
  | _ => false
  end.

(** The exact integer the operation denotes: [/] truncates toward zero and
    [%] takes the sign of the dividend. *)
Definition exact_arith (op : OpCode) (a b : Z) : Z :=
  match op with
  | ADD => a + b
  | SUB => a - b
  | MUL => a * b
  | DIV => a ÷ b
  | MOD => Z.rem a b
  | _ => 0
  end.

(** [asm.push(a); asm.push(b); asm.op(op)], followed by [rest]. *)
Definition binary_program (op : OpCode) (a b : Z) (rest : list OpCode) : Chunk :=
  Asm.chunk
    (foldl (fun asm o => Asm.op o asm)
           (Asm.op op (Asm.push b (Asm.push a (Asm.new_Assembler empty_Chunk))))
           rest).

(** PUSH a; PUSH b; OP; PRINT *)
Definition print_program (op : OpCode) (a b : Z) : Chunk :=
  binary_program op a b [PRINT].

(** PUSH a; PUSH 0; OP *)
Definition zero_divisor_program (op : OpCode) (a : Z) : Chunk :=
  binary_program op a 0 [].

Definition zero_divisor_message (op : OpCode) : string :=
  match op with
  | MOD => "Modulo by zero"
  | _ => "Division by zero"
  end.

(** A chunk whose [HALT] is not its last instruction, and one whose last
    instruction raises a runtime error. *)
Definition halt_then_nop : Chunk :=
  mkChunk [mkInstruction HALT 0; mkInstruction NOP 0] [] [1; 1].
Definition pop_on_empty : Chunk :=
  mkChunk [mkInstruction POP 0] [] [1].

(** Two runs on one machine: the first stores 7 in global slot 0, the second
    prints that slot. *)
Definition store_seven : Chunk :=
  mkChunk [mkInstruction PUSH 0; mkInstruction STORE_GLOBAL 0;
           mkInstruction HALT 0] [Int 7] [1; 1; 1].
Definition print_global : Chunk :=
  mkChunk [mkInstruction LOAD_GLOBAL 0; mkInstruction PRINT 0] [] [1; 1].

Definition final_vm (r : Outcome (bool * VM)) : option VM :=
  match r with
  | Done (_, vm) => Some vm
  | _ => None
  end.

(** A machine about to execute the [STORE_GLOBAL 0] of [store_seven] with
    two values on its stack. *)
Definition store_ready_VM : VM :=
  mkVM (Some store_seven) 1 [Int 1; Int 7] (replicate 256 Nil) []
       new_GarbageCollector true ∅ [] [].

(** A machine with an empty operand stack about to execute the single
    instruction [instr]. *)
Definition empty_stack_VM (instr : Instruction) : VM :=
  execute_begin (mkChunk [instr] [] [1]) fresh_VM.

(** ** Invariant of a run *)

Definition value_ok (h : gmap N Object) (v : Value) : Prop :=
  ∀ p, v = Obj p → p = nullptr ∨ is_Some (h !! p).

(** Object constants of a chunk are made by the host: they are null, or live
    and outside the collector's registry. *)
Definition consts_ok (c : Chunk) (vm : VM) : Prop :=
  ∀ p, Obj p ∈ constants c →
       p = nullptr ∨ (is_Some (heap vm !! p) ∧ p ∉ objects (gc vm)).

Definition run_inv (c : Chunk) (vm : VM) : Prop :=
  chunk vm = Some c ∧ vm_ok vm ∧ consts_ok c vm.

(** Partial-correctness triples for member functions: if [m] has a
    successor from a state satisfying [P], the result satisfies [Q]. *)
Definition triple {A} (P : VM → Prop) (m : M A) (Q : A → VM → Prop) : Prop :=
  ∀ vm a vm', P vm → m vm = Some (a, vm') → Q a vm'.

(** A property of machine states that only depends on the globals, the
    collector and the store. *)
Definition stable (F : VM → Prop) : Prop :=
  ∀ vm vm', globals vm' = globals vm → gc vm' = gc vm → heap vm' = heap vm →
            F vm → F vm'.

(** ** The example programs of the repository *)

(** [example1_arithmetic]: (10 + 20) * 3 - 5. *)
Definition example1_chunk : Chunk :=
  mkChunk
    [mkInstruction PUSH 0; mkInstruction PUSH 1; mkInstruction ADD 0;
     mkInstruction PUSH 2; mkInstruction MUL 0; mkInstruction PUSH 3;
     mkInstruction SUB 0; mkInstruction PRINT 0; mkInstruction HALT 0]
    [Int 10; Int 20; Int 3; Int 5]
    [1; 1; 1; 2; 2; 3; 3; 3; 3].

(** [example4_arrays]: an array of 5, [arr[2] = 42], print [arr[2]] and the
    length. *)
Definition example4_chunk : Chunk :=
  mkChunk
    [mkInstruction NEW_ARRAY 5; mkInstruction STORE_GLOBAL 0;
     mkInstruction LOAD_GLOBAL 0; mkInstruction PUSH 0; mkInstruction PUSH 1;
     mkInstruction ARRAY_SET 0;
     mkInstruction LOAD_GLOBAL 0; mkInstruction PUSH 0;
     mkInstruction ARRAY_GET 0; mkInstruction PRINT 0;
     mkInstruction LOAD_GLOBAL 0; mkInstruction ARRAY_LEN 0;
     mkInstruction PRINT 0; mkInstruction HALT 0]
    [Int 2; Int 42; Int 2]
    [1; 1; 2; 2; 2; 2; 3; 3; 3; 3; 4; 4; 4; 5].

(** A conditional assembled with labels: print 10 if [cond] is truthy,
    20 otherwise. *)
Definition branch_calls (cond : Z) : list Asm.Call :=
  [Asm.CPush cond; Asm.CJumpIfFalse "L";
   Asm.CPush 10; Asm.COp PRINT; Asm.COp HALT;
   Asm.CLabel "L"; Asm.CPush 20; Asm.COp PRINT; Asm.COp HALT].

Definition assemble (calls : list Asm.Call) : option Chunk :=
  match Asm.resolve (Asm.build empty_Chunk calls) [] with
  | Some (a, _) => Some (Asm.chunk a)
  | None => None
  end.

(** Nine arrays are allocated; the first is stored in global slot 0 and
    written at index 1, the others are popped right away. *)
Definition gc_liveness_chunk : Chunk :=
  mkChunk
    ([mkInstruction NEW_ARRAY 2; mkInstruction STORE_GLOBAL 0;
      mkInstruction PUSH 0; mkInstruction PUSH 1; mkInstruction ARRAY_SET 0]
     ++ concat (replicate 8 [mkInstruction NEW_ARRAY 1; mkInstruction POP 0])
     ++ [mkInstruction LOAD_GLOBAL 0; mkInstruction PUSH 0;
         mkInstruction ARRAY_GET 0; mkInstruction PRINT 0])
    [Int 1; Int 99]
    [].

Definition run_output (c : Chunk) (fuel : nat) : option (list string * list string) :=
  match execute fuel c fresh_VM with
  | Done (_, vm) => Some (cout vm, cerr vm)
  | _ => None
  end.

(** * Sequences of loop iterations *)

(** [n] iterations of the loop of [execute], each entered with the loop
    condition true; [None] if the condition fails early or an iteration has
    no successor. *)
Fixpoint steps (n : nat) (vm : VM) : option VM :=
  match n with
  | O => Some vm
  | S n' =>
      if loop_guard vm then
        match step vm with
        | Some (_, vm') => steps n' vm'
        | None => None
        end
      else None
  end.

(** The code of [c] holds the instructions [instrs] from index [pc] on. *)
Definition fetches (c : Chunk) (pc : Z) (instrs : list Instruction) : Prop :=
  0 <= pc ∧ take (length instrs) (drop (Z.to_nat pc) (code c)) = instrs.

(** The collection check may mark and free, but what the roots refer to stays
    in the store with its contents. *)
Definition heap_kept (roots : list Value) (h h' : gmap N Object) : Prop :=
  ∀ p o, referenced roots p → h !! p = Some o →
         ∃ o', h' !! p = Some o' ∧ payload o' = payload o.

(** A boolean check of the run invariant, for concrete machine states. *)
Definition value_ok_b (h : gmap N Object) (v : Value) : bool :=
  match v with
  | Obj p => (p =? nullptr)%N || bool_decide (is_Some (h !! p))
  | _ => true
  end.

Definition const_ok_b (g : GarbageCollector) (h : gmap N Object) (v : Value) : bool :=
  match v with
  | Obj p => (p =? nullptr)%N ||
             (bool_decide (is_Some (h !! p)) && bool_decide (p ∉ objects g))
  | _ => true
  end.

Definition registered_ok_b (h : gmap N Object) (p : ptr) : bool :=
  negb (p =? nullptr)%N &&
  match h !! p with
  | Some o => negb (marked o)
  | None => false
  end.

#[global] Instance OpCode_eq_dec : EqDecision OpCode.
Proof. solve_decision. Defined.
#[global] Instance Instruction_eq_dec : EqDecision Instruction.
Proof. solve_decision. Defined.
#[global] Instance Chunk_eq_dec : EqDecision Chunk.
Proof. solve_decision. Defined.

Definition run_inv_b (c : Chunk) (vm : VM) : bool :=
  bool_decide (chunk vm = Some c) &&
  (length (globals vm) =? 256)%nat &&
  bool_decide (NoDup (objects (gc vm))) &&
  forallb (registered_ok_b (heap vm)) (objects (gc vm)) &&
  (0 <? threshold (gc vm)) &&
  forallb (value_ok_b (heap vm)) (stack vm ++ globals vm) &&
  forallb (const_ok_b (gc vm) (heap vm)) (constants c).


(** The opcodes whose first action is a [pop()]. *)
Definition pops (op : OpCode) : bool :=
  match op with
  | POP | SWAP | ADD | SUB | MUL | DIV | MOD | NEG
  | EQ | NE | LT | LE | GT | GE | AND | OR | NOT
  | ARRAY_GET | ARRAY_SET | ARRAY_LEN | PRINT => true
  | _ => false
  end.

(** A chunk with the given code and constants, all on source line 1, and a
    new machine stopped inside a run of it at [pc] with operand stack [st]. *)
Definition chunk_of (instrs : list Instruction) (consts : list Value) : Chunk :=
  mkChunk instrs consts (replicate (length instrs) 1).

Definition vm_at (c : Chunk) (pc : Z) (st : list Value) : VM :=
  mkVM (Some c) pc st (replicate 256 Nil) [] new_GarbageCollector true ∅ [] [].

(** The opcodes dispatched to [binaryOp]. *)
Definition is_binary (op : OpCode) : bool :=
  match op with
  | ADD | SUB | MUL | DIV | MOD | LT | LE | GT | GE | EQ | NE => true
  | _ => false
  end.

Definition is_Int (v : Value) : bool :=
  match v with
  | Int _ => true
  | _ => false
  end.

(** A machine inside a run of [c] that has allocated one array, at address
    1, holding [els]; [st] is its operand stack. *)
Definition vm_with_array (c : Chunk) (pc : Z) (els : list Z) (st : list Value) : VM :=
  mkVM (Some c) pc st (replicate 256 Nil) [] (mkGC [1%N] 8 8) true
       (<[1%N := mkObject (ArrayObject els) false]> ∅) [] [].

(** The opcodes that assign the instruction pointer. *)
Definition is_control (op : OpCode) : bool :=
  match op with
  | JMP | JMP_IF_FALSE | JMP_IF_TRUE | CALL | RET => true
  | _ => false
  end.

Definition straight_line (c : Chunk) : Prop :=
  Forall (fun instr => is_control (opcode instr) = false) (code c).

(** ** Absence of undefined behaviour *)





(** ** Assembling *)

(** The opcodes the assembler emits for [jump], [jumpIfFalse] and
    [jumpIfTrue]. *)
Definition is_jump (op : OpCode) : bool :=
  match op with
  | JMP | JMP_IF_FALSE | JMP_IF_TRUE => true
  | _ => false
  end.

(** [a'] holds everything [a] holds, at the same positions, and possibly
    more after it; each added instruction comes with one line number. *)
Definition extends (a a' : Asm.Assembler) : Prop :=
  ∃ cd cs ls js,
    code (Asm.chunk a') = code (Asm.chunk a) ++ cd ∧
    constants (Asm.chunk a') = constants (Asm.chunk a) ++ cs ∧
    lines (Asm.chunk a') = lines (Asm.chunk a) ++ ls ∧
    length ls = length cd ∧
    Asm.unresolvedJumps a' = Asm.unresolvedJumps a ++ js.

(** Every recorded jump is the placeholder of a jump instruction. *)
Definition jumps_ok (a : Asm.Assembler) : Prop :=
  ∀ off name, (off, name) ∈ Asm.unresolvedJumps a →
    0 <= off ∧
    ∃ opc, is_jump opc = true ∧
           code (Asm.chunk a) !! Z.to_nat off = Some (mkInstruction opc 0).

Definition assembler_from (a : Asm.Assembler) (calls : list Asm.Call)
  : Asm.Assembler :=
  foldl (fun a k => Asm.call k a) a calls.

(** ** Disassembler *)

(** The state of an output stream that the disassembler depends on and
    changes: the field width of the next formatted output (reset by every
    output), the fill character and the adjustment (both kept until changed),
    and the pieces written so far, one per [<<] of a value. *)
Record OStream : Set := mkOStream {
  os_width : nat;
  os_fill : Ascii.ascii;
  os_left : bool;
  os_out : list string
}.

(** The characters ['0'] and ['\n']. *)
Definition char_0 : Ascii.ascii := Ascii.ascii_of_nat 48.
Definition newline : string := String.String (Ascii.ascii_of_nat 10) EmptyString.

(** A value written in a field: shorter values are padded with the fill
    character, after the value when the adjustment is [left], before it
    otherwise. *)
Definition pad (w : nat) (fill : Ascii.ascii) (left : bool) (s : string)
  : string :=
  if (w <=? String.length s)%nat then s
  else
    let p := String.string_of_list_ascii (replicate (w - String.length s) fill) in
    if left then s +:+ p else p +:+ s.

(** [os << s] *)
Definition put (s : string) (o : OStream) : OStream :=
  mkOStream 0 (os_fill o) (os_left o)
            (os_out o ++ [pad (os_width o) (os_fill o) (os_left o) s]).

(** [os << std::setw(n)], [os << std::setfill(ch)], [os << std::left] *)
Definition setw (n : nat) (o : OStream) : OStream :=
  mkOStream n (os_fill o) (os_left o) (os_out o).
Definition setfill (ch : Ascii.ascii) (o : OStream) : OStream :=
  mkOStream (os_width o) ch (os_left o) (os_out o).
Definition set_left (o : OStream) : OStream :=
  mkOStream (os_width o) (os_fill o) true (os_out o).

Definition opcodeToString (op : OpCode) : string :=
  match op with
  | PUSH => "PUSH" | POP => "POP" | DUP => "DUP" | SWAP => "SWAP"
  | ADD => "ADD" | SUB => "SUB" | MUL => "MUL" | DIV => "DIV" | MOD => "MOD"
  | NEG => "NEG"
  | EQ => "EQ" | NE => "NE" | LT => "LT" | LE => "LE" | GT => "GT" | GE => "GE"
  | AND => "AND" | OR => "OR" | NOT => "NOT"
  | LOAD => "LOAD" | STORE => "STORE"
  | LOAD_GLOBAL => "LOAD_GLOBAL" | STORE_GLOBAL => "STORE_GLOBAL"
  | JMP => "JMP" | JMP_IF_FALSE => "JMP_IF_FALSE" | JMP_IF_TRUE => "JMP_IF_TRUE"
  | CALL => "CALL" | RET => "RET"
  | NEW_ARRAY => "NEW_ARRAY" | ARRAY_GET => "ARRAY_GET"
  | ARRAY_SET => "ARRAY_SET" | ARRAY_LEN => "ARRAY_LEN"
  | PRINT => "PRINT" | HALT => "HALT" | NOP => "NOP"
  end.

(** The opcodes whose operand [disassembleInstruction] shows. *)
Definition shows_operand (op : OpCode) : bool :=
  match op with
  | PUSH | LOAD | STORE | LOAD_GLOBAL | STORE_GLOBAL
  | JMP | JMP_IF_FALSE | JMP_IF_TRUE | CALL | NEW_ARRAY => true
  | _ => false
  end.

(** [Chunk::disassembleInstruction]; [None] when [lines[offset]] or
    [code[offset]] is out of range. *)
Definition disassembleInstruction (c : Chunk) (offset : nat) (o : OStream)
  : option OStream :=
  let o := put (pretty offset) (setfill char_0 (setw 4 o)) in
  let o := put " " o in
  match lines c !! offset, code c !! offset with
  | Some ln, Some instr =>
      let same :=
        if (0 <? offset)%nat
        then match lines c !! (offset - 1)%nat with
             | Some prev => Some (ln =? prev)
             | None => None
             end
        else Some false in
      match same with
      | None => None
      | Some same =>
          let o := if same then put "   | " o
                   else put " " (put (pretty ln) (setw 4 o)) in
          let o := put (opcodeToString (opcode instr)) (set_left (setw 16 o)) in
          let o := if shows_operand (opcode instr)
                   then put (pretty (operand instr)) (setw 8 o)
                   else o in
          Some (put (newline) o)
      end
  | _, _ => None
  end.

(** The loop [for (size_t i = 0; i < code.size(); i++)] from [offset] on,
    for [n] more instructions. *)
Fixpoint disassemble_loop (c : Chunk) (offset n : nat) (o : OStream)
  : option OStream :=
  match n with
  | O => Some o
  | S n' =>
      match disassembleInstruction c offset o with
      | Some o' => disassemble_loop c (S offset) n' o'
      | None => None
      end
  end.

(** [Chunk::disassemble] *)
Definition disassemble (name : string) (c : Chunk) (o : OStream)
  : option OStream :=
  let o := put (" ==" +:+ newline) (put name (put "== " o)) in
  disassemble_loop c 0 (length (code c)) o.

(** The pieces of the listing line of the instruction at [offset], when the
    stream has fill character [0] and adjustment [left] as given. *)
Definition listing_line (c : Chunk) (offset : nat) (left : bool)
    (instr : Instruction) (ln : Z) : list string :=
  [pad 4 char_0 left (pretty offset); " "] ++
  (if (0 <? offset)%nat && bool_decide (lines c !! (offset - 1)%nat = Some ln)
   then ["   | "]
   else [pad 4 char_0 left (pretty ln); " "]) ++
  [pad 16 char_0 true (opcodeToString (opcode instr))] ++
  (if shows_operand (opcode instr)
   then [pad 8 char_0 true (pretty (operand instr))] else []) ++
  [newline].

(** ** JIT stub and profiling machine *)

Record CompiledCode : Set := mkCompiledCode {
  machineCode : list Z;
  executableMemory : N
}.

Record JITCompiler : Set := mkJITCompiler {
  compiledFunctions : gmap Z CompiledCode
}.

Definition new_JITCompiler : JITCompiler := mkJITCompiler ∅.

(** [ProfilingVM]: the machine it derives from and its own members. *)
Record ProfilingVM : Set := mkProfilingVM {
  base : VM;
  executionCounts : gmap Z Z;
  jit : JITCompiler
}.

Definition hot_spot (ip : Z) : string :=
  "[Profile] Hot spot detected at IP " +:+ pretty ip.

(** [executionCounts[ip]]: a missing entry reads as the [int] 0. *)
Definition executionCount (p : ProfilingVM) (ip : Z) : Z :=
  default 0 (executionCounts p !! ip).

(** [ProfilingVM::profileExecution] *)
Definition profileExecution (ip : Z) (p : ProfilingVM) : ProfilingVM :=
  let n := wrap32 (executionCount p ip + 1) in
  let counts := <[ip := n]> (executionCounts p) in
  if n =? 100
  then mkProfilingVM (set_cout (cout (base p) ++ [hot_spot ip]) (base p))
                     counts (jit p)
  else mkProfilingVM (base p) counts (jit p).

(** A series of [profileExecution] calls, in order. *)
Definition profileExecutions (ips : list Z) (p : ProfilingVM) : ProfilingVM :=
  foldl (fun p ip => profileExecution ip p) p ips.

(** How often [ip] occurs in [ips]. *)
Definition occurrences (ip : Z) (ips : list Z) : Z :=
  Z.of_nat (length (filter (fun i => i = ip) ips)).

(** ** The division that overflows *)



(** * The garbage collector *)

Section Collector.

Implicit Types (h : gmap N Object) (g : GarbageCollector) (p q : ptr).

Lemma set_marked_idem b o : set_marked b (set_marked b o) = set_marked b o.
Proof. by destruct o. Qed.

Lemma set_marked_same o : set_marked (marked o) o = o.
Proof. by destruct o. Qed.

Lemma filter_ext_elem {A} (P1 P2 : A → Prop)
    `{!∀ x, Decision (P1 x), !∀ x, Decision (P2 x)} (l : list A) :
  (∀ x, x ∈ l → P1 x ↔ P2 x) → filter P1 l = filter P2 l.
Proof.
  induction l as [|a l IH]; intros Hl; [done|].
  rewrite !filter_cons.
  rewrite IH by (intros x Hx; apply Hl; by right).
  pose proof (Hl a ltac:(by left)) as Ha.
  repeat case_decide; try done; tauto.
Qed.

(** Marking a live object sets its flag and touches nothing else. *)
Lemma markObject_live p h o :
  p ≠ nullptr → h !! p = Some o →
  markObject p h = Some (<[p := set_marked true o]> h).
Proof.
  intros Hp Ho. unfold markObject.
  apply N.eqb_neq in Hp. rewrite Hp, Ho.
  destruct (marked o) eqn:Em; [|done].
  f_equal. symmetry. apply insert_id.
  rewrite Ho. f_equal. rewrite <- Em. symmetry. apply set_marked_same.
Qed.

Lemma markValue_spec v h :
  roots_ok [v] h →
  ∃ h', markValue v h = Some h' ∧
    ∀ q, h' !! q =
         if decide (referenced [v] q) then set_marked true <$> h !! q
         else h !! q.
Proof.
  intros Hv.
  assert (Hno : ∀ q, (∀ p, v = Obj p → p = nullptr) → ¬ referenced [v] q).
  { intros q Hn [Hq Hin]. apply list_elem_of_singleton in Hin.
    symmetry in Hin. apply Hn in Hin. done. }
  destruct v as [| b | i | d | p]; simpl;
    try (eexists; split; [done|]; intros q;
         rewrite decide_False; [done | by apply Hno]).
  destruct (N.eqb_spec p nullptr) as [->|Hp].
  - eexists; split; [done|]. intros q.
    rewrite decide_False; [done|]. apply Hno. by intros ? [= <-].
  - destruct (Hv p) as [?|[o Ho]]; [by left | done |].
    rewrite (markObject_live p h o) by done.
    eexists; split; [done|]. intros q.
    destruct (decide (referenced [Obj p] q)) as [[_ Hq]|Hq].
    + apply list_elem_of_singleton in Hq as [= ->].
      by rewrite lookup_insert_eq, Ho.
    + rewrite lookup_insert_ne; [done|].
      intros ->. apply Hq. split; [done | by left].
Qed.

(** The mark phase sets the flag of exactly the referenced objects. *)
Lemma markValues_spec vs h :
  roots_ok vs h →
  ∃ h', markValues vs h = Some h' ∧
    ∀ q, h' !! q =
         if decide (referenced vs q) then set_marked true <$> h !! q
         else h !! q.
Proof.
  revert h. induction vs as [|v vs IH]; intros h Hvs.
  - exists h. split; [done|]. intros q.
    rewrite decide_False; [done|]. intros [_ Hin]. by apply elem_of_nil in Hin.
  - destruct (markValue_spec v h) as (h1 & Hm & Hh1).
    { intros p Hp. apply Hvs. apply list_elem_of_singleton in Hp as ->. by left. }
    destruct (IH h1) as (h2 & Hms & Hh2).
    { intros p Hp. destruct (Hvs p) as [?|[o Ho]]; [by right | by left |].
      right. rewrite Hh1. case_decide; rewrite Ho; by eexists. }
    exists h2. simpl. rewrite Hm. split; [done|]. intros q.
    rewrite Hh2, Hh1.
    assert (Hiff : referenced (v :: vs) q ↔ referenced [v] q ∨ referenced vs q).
    { unfold referenced. rewrite elem_of_cons, list_elem_of_singleton. tauto. }
    repeat case_decide; try tauto.
    destruct (h !! q) as [o|]; simpl; [|done].
    by rewrite set_marked_idem.
Qed.

Lemma markValues_app vs ws h :
  markValues (vs ++ ws) h =
  match markValues vs h with
  | Some h' => markValues ws h'
  | None => None
  end.
Proof.
  revert h. induction vs as [|v vs IH]; intros h; simpl; [done|].
  destruct (markValue v h); [apply IH | done].
Qed.

(** The sweep keeps the marked objects, in their order, with the flag
    cleared, deletes the others, and leaves the rest of the store alone. *)
Lemma sweep_spec objs h :
  NoDup objs → (∀ p, p ∈ objs → is_Some (h !! p)) →
  ∃ h', sweep objs h = Some (filter (is_marked h) objs, h') ∧
    ∀ q, h' !! q =
         if decide (q ∈ objs)
         then (if decide (is_marked h q) then set_marked false <$> h !! q
               else None)
         else h !! q.
Proof.
  revert h. induction objs as [|p objs IH]; intros h Hnd Hlive.
  - exists h. split; [done|]. intros q.
    rewrite decide_False; [done|]. apply not_elem_of_nil.
  - apply NoDup_cons in Hnd as [Hp Hnd].
    destruct (Hlive p) as [o Ho]; [by left|].
    simpl. rewrite Ho.
    assert (Hother : ∀ h1, (∀ q, q ≠ p → h1 !! q = h !! q) →
              filter (is_marked h1) objs = filter (is_marked h) objs ∧
              (∀ q, q ∈ objs → is_Some (h1 !! q))).
    { intros h1 Hh1. split.
      - apply filter_ext_elem. intros q Hq. unfold is_marked.
        rewrite Hh1; [done|]. by intros ->.
      - intros q Hq. rewrite Hh1; [apply Hlive; by right | by intros ->]. }
    destruct (marked o) eqn:Em; simpl.
    + destruct (Hother (<[p := set_marked false o]> h)) as [Hf Hl1].
      { intros q Hq. by rewrite lookup_insert_ne. }
      destruct (IH _ Hnd Hl1) as (h' & Hs & Hh').
      rewrite Hs, Hf. exists h'. split.
      { rewrite filter_cons_True; [done|]. by exists o. }
      intros q. rewrite Hh'. destruct (decide (q = p)) as [->|Hqp].
      * rewrite (decide_False (P := p ∈ objs)) by done.
        rewrite (decide_True (P := p ∈ p :: objs)) by (by left).
        rewrite decide_True by (by exists o).
        by rewrite lookup_insert_eq, Ho.
      * rewrite lookup_insert_ne by done.
        assert (is_marked (<[p:=set_marked false o]> h) q ↔ is_marked h q) as Hm.
        { unfold is_marked. by rewrite lookup_insert_ne. }
        assert (q ∈ p :: objs ↔ q ∈ objs) as Hin.
        { rewrite elem_of_cons. tauto. }
        repeat case_decide; tauto.
    + destruct (Hother (delete p h)) as [Hf Hl1].
      { intros q Hq. by rewrite lookup_delete_ne. }
      destruct (IH _ Hnd Hl1) as (h' & Hs & Hh').
      rewrite Hs, Hf. exists h'. split.
      { rewrite filter_cons_False; [done|].
        intros (o' & Ho' & Hm'). congruence. }
      intros q. rewrite Hh'. destruct (decide (q = p)) as [->|Hqp].
      * rewrite (decide_False (P := p ∈ objs)) by done.
        rewrite (decide_True (P := p ∈ p :: objs)) by (by left).
        rewrite decide_False; [by rewrite lookup_delete_eq|].
        intros (o' & Ho' & Hm'). congruence.
      * rewrite lookup_delete_ne by done.
        assert (is_marked (delete p h) q ↔ is_marked h q) as Hm.
        { unfold is_marked. by rewrite lookup_delete_ne. }
        assert (q ∈ p :: objs ↔ q ∈ objs) as Hin.
        { rewrite elem_of_cons. tauto. }
        repeat case_decide; tauto.
Qed.

Lemma foldr_max_ge (l : list N) x : x ∈ l → (x ≤ foldr N.max 0 l)%N.
Proof.
  induction l as [|y l IH]; intros Hx; [by apply elem_of_nil in Hx|].
  apply elem_of_cons in Hx as [->|Hx]; simpl; [lia|].
  specialize (IH Hx). lia.
Qed.

(** [new] hands out an address that is not null and not in use. *)
Lemma fresh_ptr_fresh h : fresh_ptr h ≠ nullptr ∧ h !! fresh_ptr h = None.
Proof.
  unfold fresh_ptr, nullptr. split; [lia|].
  set (top := foldr N.max 0%N (map_to_list h).*1).
  destruct (h !! N.succ top) as [o|] eqn:E; [|done].
  apply elem_of_map_to_list in E.
  apply (list_elem_of_fmap_2 fst) in E. simpl in E.
  apply foldr_max_ge in E. fold top in E. lia.
Qed.

(** Allocation keeps the registry well formed and unmarked. *)
Lemma allocate_preserves o g h p g' h' :
  allocate o g h = (p, g', h') → marked o = false →
  registry_ok g h → all_unmarked g h →
  registry_ok g' h' ∧ all_unmarked g' h' ∧
  p ≠ nullptr ∧ h !! p = None ∧ h' !! p = Some o ∧
  objects g' = objects g ++ [p] ∧
  (∀ q, q ≠ p → h' !! q = h !! q).
Proof.
  unfold allocate. intros [= <- <- <-] Hm (Hnd & Hlive & Hthr) Hun.
  destruct (fresh_ptr_fresh h) as [Hnn Hfresh].
  assert (Hnotin : fresh_ptr h ∉ objects g).
  { intros Hin. destruct (Hlive _ Hin) as [_ [x Hx]]. congruence. }
  split_and!; simpl; try done.
  - split_and!; simpl; [|intros q Hq|done].
    + apply NoDup_app. split_and!; [done| |apply NoDup_singleton].
      intros x Hx Hx'. apply list_elem_of_singleton in Hx' as ->. done.
    + apply elem_of_app in Hq as [Hq|Hq].
      * destruct (Hlive q Hq) as [? [x Hx]]. split; [done|].
        rewrite lookup_insert_ne; [by eexists | by intros <-].
      * apply list_elem_of_singleton in Hq as ->.
        split; [done|]. rewrite lookup_insert_eq. by eexists.
  - intros q x Hq Hx. simpl in *. apply elem_of_app in Hq as [Hq|Hq].
    + rewrite lookup_insert_ne in Hx by (by intros <-). by eapply Hun.
    + apply list_elem_of_singleton in Hq as ->.
      rewrite lookup_insert_eq in Hx. by injection Hx as <-.
  - apply lookup_insert_eq.
  - intros q Hq. by rewrite lookup_insert_ne.
Qed.

(** What a collection does to the registry and to the store. *)
Lemma collect_spec stack globals g h :
  registry_ok g h → all_unmarked g h → roots_ok (stack ++ globals) h →
  ∃ h',
    collect stack globals g h =
      Some (mkGC (filter (referenced (stack ++ globals)) (objects g))
                 (Z.max (Z.of_nat (length
                    (filter (referenced (stack ++ globals)) (objects g))) * 2)
                    (threshold g))
                 (threshold g), h') ∧
    ∀ q, h' !! q =
         if decide (q ∈ objects g)
         then (if decide (referenced (stack ++ globals) q) then h !! q
               else None)
         else if decide (referenced (stack ++ globals) q)
              then set_marked true <$> h !! q
              else h !! q.
Proof.
  intros (Hnd & Hlive & Hthr) Hun Hroots.
  destruct (markValues_spec _ _ Hroots) as (h2 & Hmark & Hh2).
  rewrite markValues_app in Hmark. unfold collect.
  destruct (markValues stack h) as [h1|]; [|done]. rewrite Hmark.
  assert (Hiff : ∀ p, p ∈ objects g →
            is_marked h2 p ↔ referenced (stack ++ globals) p).
  { intros p Hp. destruct (Hlive p Hp) as [_ [o Ho]].
    unfold is_marked. rewrite Hh2, Ho. case_decide; simpl.
    - split; [done|]. intros _. by eexists.
    - split; [|done]. intros (o' & [= <-] & Hm).
      rewrite (Hun p o Hp Ho) in Hm. done. }
  destruct (sweep_spec (objects g) h2 Hnd) as (h3 & Hsweep & Hh3).
  { intros p Hp. destruct (Hlive p Hp) as [_ [o Ho]].
    rewrite Hh2, Ho. case_decide; by eexists. }
  rewrite Hsweep, (filter_ext_elem _ _ _ Hiff).
  exists h3. split.
  { do 2 f_equal. f_equal. destruct (Z.ltb_spec
      (Z.of_nat (length (filter (referenced (stack ++ globals)) (objects g))) * 2)
      (threshold g)); lia. }
  intros q. rewrite Hh3, Hh2.
  destruct (decide (q ∈ objects g)) as [Hq|Hq]; [|done].
  specialize (Hiff q Hq). destruct (Hlive q Hq) as [_ [o Ho]].
  destruct (decide (referenced (stack ++ globals) q)) as [Hr|Hr].
  - rewrite decide_True by tauto. rewrite Ho. simpl. f_equal.
    destruct o as [pl m]. unfold set_marked. simpl. f_equal.
    symmetry. apply (Hun q _ Hq Ho).
  - rewrite decide_False by tauto. done.
Qed.

(** A collection re-establishes everything it needs for the next one, and
    right after it no collection is due. *)
Lemma collect_invariant stack globals g h g' h' :
  registry_ok g h → all_unmarked g h → roots_ok (stack ++ globals) h →
  collect stack globals g h = Some (g', h') →
  registry_ok g' h' ∧ all_unmarked g' h' ∧
  roots_ok (stack ++ globals) h' ∧ shouldCollect g' = false.
Proof.
  intros Hreg Hun Hroots Hc.
  destruct (collect_spec stack globals g h Hreg Hun Hroots) as (h1 & Hc1 & Hh').
  rewrite Hc in Hc1. injection Hc1 as -> ->.
  destruct Hreg as (Hnd & Hlive & Hthr).
  set (roots := stack ++ globals) in *.
  assert (Hsurv : ∀ p, p ∈ filter (referenced roots) (objects g) →
            p ∈ objects g ∧ h1 !! p = h !! p).
  { intros p [Hr Hp]%list_elem_of_filter. split; [done|].
    by rewrite Hh', !decide_True. }
  split_and!.
  - split_and!; simpl; [by apply NoDup_filter | | done].
    intros p Hp. destruct (Hsurv p Hp) as [Hp' ->]. by apply Hlive.
  - intros p o Hp Ho. simpl in Hp. destruct (Hsurv p Hp) as [Hp' Heq].
    rewrite Heq in Ho. by eapply Hun.
  - intros p Hp. destruct (decide (p = nullptr)) as [|Hn]; [by left|]. right.
    destruct (Hroots p Hp) as [?|[o Ho]]; [done|].
    rewrite Hh', Ho.
    case_decide; rewrite (decide_True (P := referenced roots p)) by done;
      simpl; by eexists.
  - unfold shouldCollect. simpl. apply Z.leb_gt. lia.
Qed.

End Collector.

(** * Properties of the collector *)

(** C2. For every root set handed to [collect] (operand stack and global
    table), given a well-formed registry whose objects are unmarked and roots
    that address live objects: after [collect] the registry holds exactly the
    registered objects referenced by the roots (in their old order); every
    other registered object is deleted from the store and gone from the
    registry; every survivor is unmarked and unchanged; no object a root
    refers to is freed; and the registry is again well formed and unmarked. *)
Theorem collect_retains_exactly_reachable
    (stack globals : list Value) (g : GarbageCollector) (h : gmap N Object) :
  registry_ok g h → all_unmarked g h → roots_ok (stack ++ globals) h →
  ∃ g' h',
    collect stack globals g h = Some (g', h') ∧
    objects g' = filter (referenced (stack ++ globals)) (objects g) ∧
    (∀ p, p ∈ objects g' ↔ p ∈ objects g ∧ referenced (stack ++ globals) p) ∧
    (∀ p, p ∈ objects g → ¬ referenced (stack ++ globals) p →
          h' !! p = None ∧ p ∉ objects g') ∧
    (∀ p, p ∈ objects g' →
          ∃ o, h' !! p = Some o ∧ h !! p = Some o ∧ marked o = false) ∧
    (∀ p, referenced (stack ++ globals) p →
          ∃ o o', h !! p = Some o ∧ h' !! p = Some o' ∧ payload o' = payload o) ∧
    registry_ok g' h' ∧ all_unmarked g' h'.
Proof.
  intros Hreg Hun Hroots.
  destruct (collect_spec stack globals g h Hreg Hun Hroots) as (h' & Hc & Hh').
  destruct (collect_invariant _ _ _ _ _ _ Hreg Hun Hroots Hc)
    as (Hreg' & Hun' & _ & _).
  destruct Hreg as (Hnd & Hlive & Hthr).
  set (roots := stack ++ globals) in *.
  assert (Hmem : ∀ p, p ∈ filter (referenced roots) (objects g) ↔
                      p ∈ objects g ∧ referenced roots p).
  { intros p. rewrite list_elem_of_filter. tauto. }
  eexists _, h'. split; [exact Hc|]. simpl.
  split_and!; try done.
  - intros p Hp Hr. split.
    + by rewrite Hh', decide_True, decide_False.
    + rewrite Hmem. tauto.
  - intros p [Hp Hr]%Hmem. destruct (Hlive p Hp) as [_ [o Ho]].
    exists o. rewrite Hh', !decide_True by done. eauto.
  - intros p Hr. destruct (Hroots p) as [Hn|[o Ho]]; [apply Hr | by destruct Hr |].
    rewrite Hh', Ho. destruct (decide (p ∈ objects g)).
    + rewrite decide_True by done. eauto.
    + rewrite decide_True by done. simpl. eauto.
Qed.

Lemma collect_retains_exactly_reachable_witness :
  ∃ g' h',
    collect [Obj 2%N] [Obj 3%N; Nil] sample_gc sample_heap = Some (g', h') ∧
    objects g' = [2%N; 3%N] ∧ h' !! 1%N = None.
Proof.
  assert (Hreg : registry_ok sample_gc sample_heap).
  { split_and!; [unfold sample_gc; simpl; compute_done | | by vm_compute].
    intros p Hp. unfold sample_gc in Hp. simpl in Hp.
    repeat (apply elem_of_cons in Hp as [->|Hp]);
      [by split; [|eexists] .. | by apply elem_of_nil in Hp]. }
  assert (Hun : all_unmarked sample_gc sample_heap).
  { intros p o Hp. unfold sample_gc in Hp. simpl in Hp.
    repeat (apply elem_of_cons in Hp as [->|Hp]);
      [by intros [= <-] .. | by apply elem_of_nil in Hp]. }
  assert (Hroots : roots_ok ([Obj 2%N] ++ [Obj 3%N; Nil]) sample_heap).
  { intros p Hp. simpl in Hp. right.
    repeat (apply elem_of_cons in Hp as [Hp|Hp]);
      [by injection Hp as ->; eexists .. | done | by apply elem_of_nil in Hp]. }
  destruct (collect_retains_exactly_reachable _ _ _ _ Hreg Hun Hroots)
    as (g' & h' & Hc & Hobjs & _ & Hdel & _).
  exists g', h'. split_and!; [done | by rewrite Hobjs |].
  apply Hdel; [by left|]. intros [_ Hin]. simpl in Hin.
  repeat (apply elem_of_cons in Hin as [Hin|Hin]); try done.
  by apply elem_of_nil in Hin.
Defined.

(** C4, as the code has it. [shouldCollect] is true exactly when the number
    of registered objects has reached [nextGC]; a collection sets [nextGC] to
    twice the number of surviving objects, or to the floor [threshold] when
    that is smaller, and leaves the floor unchanged. *)
Theorem shouldCollect_threshold_policy (g : GarbageCollector) :
  (shouldCollect g = true ↔ nextGC g <= objectCount g) ∧
  ∀ stack globals h g' h',
    collect stack globals g h = Some (g', h') →
    nextGC g' = Z.max (2 * objectCount g') (threshold g) ∧
    threshold g' = threshold g ∧
    threshold g' <= nextGC g'.
Proof.
  split.
  - unfold shouldCollect, objectCount. apply Z.leb_le.
  - intros stack globals h g' h'. unfold collect, objectCount.
    destruct (markValues stack h) as [h1|]; [|done].
    destruct (markValues globals h1) as [h2|]; [|done].
    destruct (sweep (objects g) h2) as [[objs h3]|]; [|done].
    intros [= <- <-]. simpl.
    destruct (Z.ltb_spec (Z.of_nat (length objs) * 2) (threshold g)); lia.
Qed.

Lemma shouldCollect_threshold_policy_witness :
  shouldCollect sample_gc = false ∧
  ∃ g' h', collect [Obj 2%N] [] sample_gc sample_heap = Some (g', h') ∧
           nextGC g' = 8 ∧ objectCount g' = 1.
Proof.
  split; [reflexivity|].
  destruct (collect [Obj 2%N] [] sample_gc sample_heap) as [[g' h']|] eqn:E;
    [|by vm_compute in E].
  exists g', h'. split; [done|].
  destruct (shouldCollect_threshold_policy sample_gc) as [_ Hpol].
  destruct (Hpol _ _ _ _ _ E) as (Hnext & _ & _).
  assert (Hcount : objectCount g' = 1).
  { vm_compute in E. by injection E as <- <-. }
  split; [|done]. rewrite Hnext, Hcount. reflexivity.
Defined.

(** C4, counterexample to "the threshold doubles after every collection":
    with eight unreferenced objects and [nextGC = 8] a collection is due, and
    after it [nextGC] is 8 again, not 16. *)
Lemma threshold_not_doubled :
  shouldCollect eight_gc = true ∧
  ∃ g' h', collect [] (replicate 256 Nil) eight_gc eight_heap = Some (g', h') ∧
           nextGC eight_gc = 8 ∧ nextGC g' = 8 ∧ nextGC g' ≠ 2 * nextGC eight_gc.
Proof.
  split; [reflexivity|].
  eexists _, _. split; [vm_compute; reflexivity|].
  split_and!; [reflexivity | reflexivity | done].
Qed.

(** * Properties of the assembler *)

Section AssemblerFacts.

Import Asm.
Implicit Types (a : Assembler) (c : Chunk).

Lemma code_size_emit instr a : code_size (emit instr a) = code_size a + 1.
Proof. unfold code_size, emit, write. simpl. rewrite length_app. simpl. lia. Qed.

(** Appending an instruction keeps an assembler well formed. *)
Lemma emit_ok instr a : asm_ok a → asm_ok (emit instr a).
Proof.
  intros (Hnd & Hoff & Hlab). split_and!; [done | |].
  - intros off name Hin. destruct (Hoff off name Hin) as [Hr [opc Hopc]].
    rewrite code_size_emit. split; [lia|]. exists opc.
    simpl. by apply lookup_app_l_Some.
  - intros name target Ht. rewrite code_size_emit.
    specialize (Hlab name target Ht). lia.
Qed.

Lemma label_ok name a : asm_ok a → asm_ok (label name a).
Proof.
  intros (Hnd & Hoff & Hlab). split_and!; [done | done |].
  intros n target. simpl. rewrite lookup_insert.
  case_decide; [intros [= <-] | apply Hlab].
  unfold code_size. simpl. lia.
Qed.

Lemma push_ok value a : asm_ok a → asm_ok (push value a).
Proof.
  intros Ha.
  change (push value a) with
    (emit (mkInstruction PUSH
             (wrap32 (Z.of_nat (length (constants (chunk a) ++ [Int value])) - 1)))
          (mkAssembler (mkChunk (code (chunk a))
                                (constants (chunk a) ++ [Int value])
                                (lines (chunk a)))
                       (labels a) (unresolvedJumps a) (currentLine a))).
  apply emit_ok. exact Ha.
Qed.

Lemma emit_jump_ok opc name a : asm_ok a → asm_ok (emit_jump opc name a).
Proof.
  intros (Hnd & Hoff & Hlab). unfold emit_jump.
  split_and!; simpl.
  - rewrite fmap_app. apply NoDup_app. split_and!; [done | | apply NoDup_singleton].
    intros off Hin Hin'. apply list_elem_of_singleton in Hin'. simpl in Hin'.
    apply list_elem_of_fmap in Hin as ([off' name'] & Heq & Hin).
    simpl in Heq. destruct (Hoff _ _ Hin) as [Hr _]. lia.
  - intros off name' Hin. unfold code_size, emit, write. simpl.
    rewrite length_app. simpl.
    apply elem_of_app in Hin as [Hin|Hin].
    + destruct (Hoff _ _ Hin) as [Hr [o Ho]]. unfold code_size in Hr.
      split; [lia|]. exists o. by apply lookup_app_l_Some.
    + apply list_elem_of_singleton in Hin as [= -> ->].
      unfold code_size. split; [lia|]. exists opc.
      rewrite Nat2Z.id. by rewrite list_lookup_middle.
  - intros n target Ht. specialize (Hlab n target Ht).
    unfold code_size, emit, write in *. simpl. rewrite length_app. simpl. lia.
Qed.

Lemma call_ok k a : asm_ok a → asm_ok (call k a).
Proof.
  destruct k; simpl;
    first [ apply label_ok | apply push_ok | apply emit_ok
          | apply emit_jump_ok
          | intros (Hnd & Hoff & Hlab); by split_and! ].
Qed.

(** Every build is well formed. *)
Lemma build_ok c calls : asm_ok (build c calls).
Proof.
  unfold build.
  assert (H0 : asm_ok (new_Assembler c)).
  { split_and!; simpl; [constructor | |].
    - intros off name Hin. by apply elem_of_nil in Hin.
    - intros name target Ht. by rewrite lookup_empty in Ht. }
  revert H0. generalize (new_Assembler c).
  induction calls as [|k calls IH]; intros a Ha; simpl; [done|].
  apply IH. by apply call_ok.
Qed.

(** The loop of [resolve]: defined labels are patched in, undefined ones
    are reported and their instruction is left alone, and no other
    instruction changes. *)
Lemma resolve_jumps_spec (lbls : gmap string Z) jumps cd err :
  NoDup jumps.*1 →
  (∀ off name, (off, name) ∈ jumps → 0 <= off < Z.of_nat (length cd)) →
  ∃ cd',
    resolve_jumps lbls jumps cd err =
      Some (cd', err ++ (undefined_label <$> undefined_names lbls jumps)) ∧
    length cd' = length cd ∧
    (∀ off name target, (off, name) ∈ jumps → lbls !! name = Some target →
       cd' !! Z.to_nat off =
         set_operand (wrap32 target) <$> cd !! Z.to_nat off) ∧
    (∀ off name, (off, name) ∈ jumps → lbls !! name = None →
       cd' !! Z.to_nat off = cd !! Z.to_nat off) ∧
    (∀ i, (∀ off name, (off, name) ∈ jumps → Z.to_nat off ≠ i) →
       cd' !! i = cd !! i).
Proof.
  revert cd err. induction jumps as [|[off name] jumps IH]; intros cd err Hnd Hin.
  - exists cd. unfold undefined_names. simpl. rewrite app_nil_r.
    split_and!; try done; intros ? ? ? Hx; by apply elem_of_nil in Hx.
  - rewrite fmap_cons in Hnd. apply NoDup_cons in Hnd as [Hoff Hnd]. simpl in Hoff.
    assert (Hhead : 0 <= off < Z.of_nat (length cd)) by (apply (Hin off name); by left).
    assert (Hne : ∀ off' name', (off', name') ∈ jumps → Z.to_nat off' ≠ Z.to_nat off).
    { intros off' name' Hin' Heq.
      assert (0 <= off' < Z.of_nat (length cd)) by (apply (Hin off' name'); by right).
      assert (off' = off) as -> by lia.
      apply Hoff. by apply (list_elem_of_fmap_2 fst) in Hin'. }
    simpl. unfold undefined_names. rewrite filter_cons. simpl.
    destruct (lbls !! name) as [target|] eqn:Hl.
    + rewrite decide_False by done.
      replace (in_bounds off (Z.of_nat (length cd))) with true
        by (unfold in_bounds; symmetry; apply andb_true_iff;
            split; [apply Z.leb_le | apply Z.ltb_lt]; lia).
      destruct (IH (alter (set_operand (wrap32 target)) (Z.to_nat off) cd) err Hnd)
        as (cd' & Hres & Hlen & Hdef & Hundef & Hframe).
      { intros off' name' Hin'. rewrite length_alter. apply (Hin off' name'). by right. }
      exists cd'. split; [exact Hres|].
      rewrite length_alter in Hlen. split; [done|]. split_and!.
      * intros off' name' target' [[= -> ->]|Hin']%elem_of_cons Hl'.
        -- rewrite Hframe by (intros o n Hon; by apply (Hne o n)).
           rewrite list_lookup_alter_eq. congruence.
        -- rewrite (Hdef off' name' target' Hin' Hl').
           rewrite list_lookup_alter_ne; [done|].
           intros Heq. by apply (Hne off' name' Hin').
      * intros off' name' [[= -> ->]|Hin']%elem_of_cons Hl'; [congruence|].
        rewrite (Hundef off' name' Hin' Hl').
        rewrite list_lookup_alter_ne; [done|].
        intros Heq. by apply (Hne off' name' Hin').
      * intros i Hi. rewrite Hframe.
        -- rewrite list_lookup_alter_ne; [done|]. apply (Hi off name). by left.
        -- intros o n Hon. apply (Hi o n). by right.
    + rewrite decide_True by done.
      destruct (IH cd (err ++ [undefined_label name]) Hnd)
        as (cd' & Hres & Hlen & Hdef & Hundef & Hframe).
      { intros off' name' Hin'. apply (Hin off' name'). by right. }
      exists cd'. split.
      { rewrite Hres. unfold undefined_names.
        rewrite !fmap_cons. simpl. by rewrite <- app_assoc. }
      split; [done|]. split_and!.
      * intros off' name' target' [[= -> ->]|Hin']%elem_of_cons Hl'; [congruence|].
        by apply (Hdef off' name' target').
      * intros off' name' [[= -> ->]|Hin']%elem_of_cons Hl'.
        -- apply Hframe. intros o n Hon. by apply (Hne o n).
        -- by apply (Hundef off' name').
      * intros i Hi. apply Hframe. intros o n Hon. apply (Hi o n). by right.
Qed.

Lemma elem_of_undefined_names (lbls : gmap string Z) jumps name :
  name ∈ undefined_names lbls jumps ↔
  lbls !! name = None ∧ ∃ off, (off, name) ∈ jumps.
Proof.
  unfold undefined_names. rewrite list_elem_of_fmap. split.
  - intros ([off n] & -> & [Hn Hin]%list_elem_of_filter). simpl in *. eauto.
  - intros [Hn [off Hin]]. exists (off, name). split; [done|].
    apply list_elem_of_filter. done.
Qed.

Lemma wrap32_small z : 0 <= z < 2 ^ 31 → wrap32 z = z.
Proof.
  intros Hz. unfold wrap32.
  rewrite Z.mod_small; lia.
Qed.

End AssemblerFacts.

(** * How a build grows *)

Section Assembling.

Import Asm.

Lemma extends_refl a : extends a a.
Proof. exists [], [], [], []. by rewrite !app_nil_r. Qed.

Lemma extends_trans a b d : extends a b → extends b d → extends a d.
Proof.
  intros (cd & cs & ls & js & H1 & H2 & H3 & H4 & H5)
         (cd' & cs' & ls' & js' & H1' & H2' & H3' & H4' & H5').
  exists (cd ++ cd'), (cs ++ cs'), (ls ++ ls'), (js ++ js').
  rewrite H1', H2', H3', H5', H1, H2, H3, H5, !app_assoc, !length_app.
  split_and!; try done. lia.
Qed.

Lemma emit_extends instr a : extends a (emit instr a).
Proof.
  exists [instr], [], [currentLine a], []. simpl.
  by rewrite !app_nil_r.
Qed.

Lemma call_extends k a : extends a (call k a).
Proof.
  destruct k; simpl; try apply emit_extends.
  - (* label *) exists [], [], [], []. simpl. by rewrite !app_nil_r.
  - (* push *)
    exists [mkInstruction PUSH
              (wrap32 (Z.of_nat (length (constants (chunk a) ++ [Int value])) - 1))],
           [Int value], [currentLine a], [].
    unfold push. simpl. by rewrite !app_nil_r.
  - exists [mkInstruction JMP 0], [], [currentLine a], [(code_size a, name)].
    simpl. by rewrite !app_nil_r.
  - exists [mkInstruction JMP_IF_FALSE 0], [], [currentLine a],
           [(code_size a, name)].
    simpl. by rewrite !app_nil_r.
  - exists [mkInstruction JMP_IF_TRUE 0], [], [currentLine a],
           [(code_size a, name)].
    simpl. by rewrite !app_nil_r.
  - (* nextLine *) exists [], [], [], []. simpl. by rewrite !app_nil_r.
Qed.

Lemma calls_extend calls a : extends a (assembler_from a calls).
Proof.
  revert a. induction calls as [|k calls IH]; intros a; simpl.
  - apply extends_refl.
  - eapply extends_trans; [apply call_extends | apply IH].
Qed.

Lemma build_app c calls more :
  build c (calls ++ more) = assembler_from (build c calls) more.
Proof. unfold build, assembler_from. by rewrite foldl_app. Qed.

Lemma call_jumps_ok k a : jumps_ok a → jumps_ok (call k a).
Proof.
  intros Ha.
  assert (Hemit : ∀ instr, jumps_ok (emit instr a)).
  { intros instr off name Hin. destruct (Ha off name Hin) as (H0 & opc & Hj & Hc).
    split; [done|]. exists opc. split; [done|]. simpl.
    by apply lookup_app_l_Some. }
  assert (Hjump : ∀ opc name, is_jump opc = true →
            jumps_ok (emit_jump opc name a)).
  { intros opc name Hj off name' Hin. simpl in Hin.
    apply elem_of_app in Hin as [Hin|Hin].
    - destruct (Ha off name' Hin) as (H0 & opc' & Hj' & Hc).
      split; [done|]. exists opc'. split; [done|]. simpl.
      by apply lookup_app_l_Some.
    - apply list_elem_of_singleton in Hin as [= -> ->].
      unfold code_size. split; [lia|]. exists opc. split; [done|]. simpl.
      rewrite Nat2Z.id. rewrite lookup_app_r by lia.
      by rewrite Nat.sub_diag. }
  destruct k; simpl; try apply Hemit; try (by apply Hjump); done.
Qed.

Lemma calls_jumps_ok calls a : jumps_ok a → jumps_ok (assembler_from a calls).
Proof.
  revert a. induction calls as [|k calls IH]; intros a Ha; simpl; [done|].
  apply IH. by apply call_jumps_ok.
Qed.

Lemma build_jumps_ok c calls : jumps_ok (build c calls).
Proof.
  apply (calls_jumps_ok calls (new_Assembler c)).
  intros off name Hin. simpl in Hin. by apply elem_of_nil in Hin.
Qed.

(** [resolve] on a build, spelled out. *)
Lemma resolve_build c calls err0 :
  let a := build c calls in
  ∃ cd',
    resolve a err0 =
      Some (mkAssembler (mkChunk cd' (constants (chunk a)) (lines (chunk a)))
                        (labels a) (unresolvedJumps a) (currentLine a),
            err0 ++ (undefined_label <$>
                       undefined_names (labels a) (unresolvedJumps a))) ∧
    length cd' = length (code (chunk a)) ∧
    (∀ off name target, (off, name) ∈ unresolvedJumps a →
       labels a !! name = Some target →
       cd' !! Z.to_nat off =
         set_operand (wrap32 target) <$> code (chunk a) !! Z.to_nat off) ∧
    (∀ off name, (off, name) ∈ unresolvedJumps a → labels a !! name = None →
       cd' !! Z.to_nat off = code (chunk a) !! Z.to_nat off) ∧
    (∀ i, (∀ off name, (off, name) ∈ unresolvedJumps a → Z.to_nat off ≠ i) →
       cd' !! i = code (chunk a) !! i).
Proof.
  intros a.
  destruct (build_ok c calls) as (Hnd & Hoff & Hlab). fold a in Hnd, Hoff, Hlab.
  destruct (resolve_jumps_spec (labels a) (unresolvedJumps a)
              (code (chunk a)) err0 Hnd)
    as (cd' & Hres & Hrest).
  { intros off name Hin. by destruct (Hoff off name Hin). }
  exists cd'. split; [|exact Hrest].
  unfold resolve. by rewrite Hres.
Qed.

(** What [resolve] does to one position of the code. *)
Lemma resolve_build_at c calls err0 a' err i instr :
  resolve (build c calls) err0 = Some (a', err) →
  code (chunk (build c calls)) !! i = Some instr →
  ∃ x, code (chunk a') !! i = Some (mkInstruction (opcode instr) x) ∧
       (is_jump (opcode instr) = false → x = operand instr).
Proof.
  intros Hres Hi.
  destruct (resolve_build c calls err0)
    as (cd' & Hres' & Hlen & Hdef & Hundef & Hframe).
  rewrite Hres in Hres'. injection Hres' as -> _. simpl.
  set (a := build c calls) in *.
  destruct (decide (Exists (fun j => Z.to_nat j.1 = i) (unresolvedJumps a)))
    as [Hex|Hnex].
  - apply Exists_exists in Hex as ([off name] & Hin & Hoff). simpl in Hoff.
    destruct (build_jumps_ok c calls off name Hin) as (_ & opc & Hj & Hc).
    fold a in Hc. rewrite Hoff, Hi in Hc. injection Hc as ->.
    destruct (labels a !! name) as [target|] eqn:Hl.
    + exists (wrap32 target). split; [|simpl; congruence].
      rewrite <- Hoff, (Hdef off name target Hin Hl), Hoff, Hi. done.
    + exists 0. split; [|done].
      rewrite <- Hoff, (Hundef off name Hin Hl), Hoff, Hi. done.
  - exists (operand instr). split; [|done].
    rewrite Hframe, Hi; [by destruct instr|].
    intros off name Hin Hoff. apply Hnex, Exists_exists.
    by exists (off, name).
Qed.

(** Only [label(name)] touches the binding of [name]. *)
Lemma call_labels k a name :
  k ≠ CLabel name → labels (call k a) !! name = labels a !! name.
Proof.
  intros Hk. destruct k; simpl; try done.
  apply lookup_insert_ne. by intros ->.
Qed.

Lemma calls_labels calls a name :
  CLabel name ∉ calls →
  labels (assembler_from a calls) !! name = labels a !! name.
Proof.
  revert a. induction calls as [|k calls IH]; intros a Hnot; simpl; [done|].
  rewrite IH by (intros Hin; apply Hnot; by right).
  apply call_labels. intros ->. apply Hnot. by left.
Qed.

(** A bound name stays bound. *)
Lemma call_keeps_bound k a name :
  is_Some (labels a !! name) → is_Some (labels (call k a) !! name).
Proof.
  intros Hb. destruct k; simpl; try done.
  rewrite lookup_insert. case_decide; [by eexists | done].
Qed.

Lemma calls_keep_bound calls a name :
  is_Some (labels a !! name) →
  is_Some (labels (assembler_from a calls) !! name).
Proof.
  revert a. induction calls as [|k calls IH]; intros a Hb; simpl; [done|].
  by apply IH, call_keeps_bound.
Qed.

End Assembling.

(** C6, as the code has it. For every build (any starting chunk, any
    sequence of builder calls) [resolve] returns normally, and: for every
    recorded jump whose label was never defined it writes the line
    [Error: Undefined label '<name>'] to the error stream and leaves the
    instruction with its placeholder operand 0; for every recorded jump
    whose label is defined it sets the operand of that jump to the label's
    recorded instruction index (as an [int32_t], hence exactly that index
    when the code has fewer than 2^31 instructions). The lines written are
    exactly the reports of the undefined labels. *)
Theorem resolve_logs_undefined_patches_defined
    (c : Chunk) (calls : list Asm.Call) :
  ∃ a' err,
    Asm.resolve (Asm.build c calls) [] = Some (a', err) ∧
    err = Asm.undefined_label <$>
            undefined_names (Asm.labels (Asm.build c calls))
                            (Asm.unresolvedJumps (Asm.build c calls)) ∧
    (∀ off name,
       (off, name) ∈ Asm.unresolvedJumps (Asm.build c calls) →
       Asm.labels (Asm.build c calls) !! name = None →
       Asm.undefined_label name ∈ err ∧
       ∃ opc,
         code (Asm.chunk (Asm.build c calls)) !! Z.to_nat off
           = Some (mkInstruction opc 0) ∧
         code (Asm.chunk a') !! Z.to_nat off = Some (mkInstruction opc 0)) ∧
    (∀ off name target,
       (off, name) ∈ Asm.unresolvedJumps (Asm.build c calls) →
       Asm.labels (Asm.build c calls) !! name = Some target →
       ∃ opc,
         code (Asm.chunk (Asm.build c calls)) !! Z.to_nat off
           = Some (mkInstruction opc 0) ∧
         code (Asm.chunk a') !! Z.to_nat off
           = Some (mkInstruction opc (wrap32 target)) ∧
         (Asm.code_size (Asm.build c calls) < 2 ^ 31 → wrap32 target = target)).
Proof.
  set (a := Asm.build c calls).
  destruct (build_ok c calls) as (Hnd & Hoff & Hlab). fold a in Hnd, Hoff, Hlab.
  destruct (resolve_jumps_spec (Asm.labels a) (Asm.unresolvedJumps a)
              (code (Asm.chunk a)) [] Hnd)
    as (cd' & Hres & Hlen & Hdef & Hundef & _).
  { intros off name Hin. by destruct (Hoff off name Hin). }
  unfold Asm.resolve. rewrite Hres. simpl.
  eexists _, _. split; [reflexivity|]. simpl. split; [done|]. split.
  - intros off name Hin Hl. split.
    + apply list_elem_of_fmap_2. apply elem_of_undefined_names. eauto.
    + destruct (Hoff off name Hin) as [_ [opc Hopc]]. exists opc.
      split; [done|]. by rewrite (Hundef off name Hin Hl).
  - intros off name target Hin Hl.
    destruct (Hoff off name Hin) as [_ [opc Hopc]]. exists opc.
    split_and!; [done | |].
    + by rewrite (Hdef off name target Hin Hl), Hopc.
    + intros Hsize. apply wrap32_small. specialize (Hlab name target Hl). lia.
Qed.

Lemma resolve_logs_undefined_patches_defined_witness :
  ∃ a', Asm.resolve (Asm.build empty_Chunk forward_jump_calls) []
        = Some (a', ["Error: Undefined label 'nowhere'"]) ∧
        code (Asm.chunk a') !! 0%nat = Some (mkInstruction JMP 2) ∧
        code (Asm.chunk a') !! 2%nat = Some (mkInstruction JMP 0).
Proof.
  destruct (resolve_logs_undefined_patches_defined empty_Chunk forward_jump_calls)
    as (a' & err & Hres & Herr & Hundef & Hdef).
  exists a'. split_and!.
  - rewrite Hres, Herr. reflexivity.
  - destruct (Hdef 0 "end" 2) as (opc & H0 & H1 & _);
      [vm_compute; by left | reflexivity |].
    vm_compute in H0. injection H0 as <-. exact H1.
  - destruct (Hundef 2 "nowhere") as (_ & opc & H0 & H1);
      [vm_compute; right; by left | reflexivity |].
    vm_compute in H0. injection H0 as <-. exact H1.
Defined.

(** C6, counterexample to "reports a build-time error to the caller and does
    not leave the jump as a resolved jump to instruction 0": with a jump to
    the undefined label ["missing"], [resolve] returns normally and the chunk
    it leaves is the very chunk of the build whose jump was resolved to a
    label at instruction 0; the one trace of the error is a line on the
    error stream. *)
Lemma undefined_label_left_as_jump_to_zero :
  ∃ a_undefined a_defined,
    Asm.resolve (Asm.build empty_Chunk undefined_jump_calls) []
      = Some (a_undefined, ["Error: Undefined label 'missing'"]) ∧
    Asm.resolve (Asm.build empty_Chunk jump_to_start_calls) []
      = Some (a_defined, []) ∧
    Asm.chunk a_undefined = Asm.chunk a_defined ∧
    code (Asm.chunk a_undefined) !! 1%nat = Some (mkInstruction JMP 0).
Proof.
  eexists _, _.
  split; [vm_compute; reflexivity|].
  split; [vm_compute; reflexivity|].
  split; reflexivity.
Qed.

(** C5, as the code has it. [label(name)] binds [name] to the current
    instruction count whatever it was bound to before: a second definition
    overwrites the first. Nothing else changes (other labels, chunk, recorded
    jumps, line counter), and the only lines a later [resolve] writes are the
    reports of undefined labels, so the redefinition is never reported.
    In every build that calls [label(name)] twice (or more), the name is
    bound in the end to the instruction count at its last definition, the
    address recorded by the first one being overwritten; [resolve] returns
    normally without a report about [name]; and every jump to [name],
    wherever in the build it was emitted, is patched to that later address
    (as an [int32_t], hence exactly that address when the code has fewer
    than 2^31 instructions). *)
Theorem label_rebinds_silently
    (a0 : Asm.Assembler) (c : Chunk)
    (before between after : list Asm.Call) (name : string) :
  let a1 := Asm.build c (before ++ Asm.CLabel name :: between) in
  let a := Asm.build c (before ++ Asm.CLabel name :: between ++
                        Asm.CLabel name :: after) in
  Asm.CLabel name ∉ after →
  (Asm.labels (Asm.label name a0) !! name = Some (Asm.code_size a0) ∧
   delete name (Asm.labels (Asm.label name a0)) = delete name (Asm.labels a0) ∧
   Asm.chunk (Asm.label name a0) = Asm.chunk a0 ∧
   Asm.unresolvedJumps (Asm.label name a0) = Asm.unresolvedJumps a0 ∧
   Asm.currentLine (Asm.label name a0) = Asm.currentLine a0 ∧
   ∀ err a' err',
     Asm.resolve (Asm.label name a0) err = Some (a', err') →
     ∃ names, err' = err ++ (Asm.undefined_label <$> names) ∧ name ∉ names) ∧
  ((Asm.CLabel name ∉ between) →
   Asm.labels a1 !! name = Some (Asm.code_size (Asm.build c before))) ∧
  is_Some (Asm.labels a1 !! name) ∧
  Asm.labels a !! name = Some (Asm.code_size a1) ∧
  ∃ a' names,
    Asm.resolve a [] = Some (a', Asm.undefined_label <$> names) ∧
    (name ∉ names) ∧
    ∀ off, (off, name) ∈ Asm.unresolvedJumps a →
      ∃ opc,
        is_jump opc = true ∧
        code (Asm.chunk a) !! Z.to_nat off = Some (mkInstruction opc 0) ∧
        code (Asm.chunk a') !! Z.to_nat off
          = Some (mkInstruction opc (wrap32 (Asm.code_size a1))) ∧
        (Asm.code_size a < 2 ^ 31 →
         wrap32 (Asm.code_size a1) = Asm.code_size a1).
Proof.
  intros a1 a Hlast.
  assert (Hfirst : ∀ more, Asm.CLabel name ∉ more →
            Asm.labels (Asm.build c (before ++ Asm.CLabel name :: more)) !! name
            = Some (Asm.code_size (Asm.build c before))).
  { intros more Hmore. rewrite build_app. simpl.
    fold (assembler_from (Asm.label name (Asm.build c before)) more).
    rewrite calls_labels by done. simpl. apply lookup_insert_eq. }
  assert (Hbound : is_Some (Asm.labels a1 !! name)).
  { unfold a1. rewrite build_app. simpl.
    fold (assembler_from (Asm.label name (Asm.build c before)) between).
    apply calls_keep_bound. simpl. rewrite lookup_insert_eq. by eexists. }
  assert (Hend : Asm.labels a !! name = Some (Asm.code_size a1)).
  { unfold a.
    replace (before ++ Asm.CLabel name :: between ++ Asm.CLabel name :: after)
      with ((before ++ Asm.CLabel name :: between) ++ Asm.CLabel name :: after)
      by (by rewrite <- app_assoc).
    rewrite build_app. simpl. fold a1.
    fold (assembler_from (Asm.label name a1) after).
    rewrite calls_labels by done. simpl. apply lookup_insert_eq. }
  split; [|split; [|split; [|split]]]; [|by apply Hfirst|done|done|].
  { split_and!; simpl; try done.
    - apply lookup_insert_eq.
    - apply delete_insert_eq.
    - intros err a' err'. unfold Asm.resolve. simpl.
      set (lbls := <[name := Asm.code_size a0]> (Asm.labels a0)).
      assert (Hgen : ∀ jumps cd e cd' e',
                Asm.resolve_jumps lbls jumps cd e = Some (cd', e') →
                e' = e ++ (Asm.undefined_label <$> undefined_names lbls jumps)).
      { induction jumps as [|[off n] jumps IH]; intros cd e cd' e'; simpl.
        - intros [= <- <-]. unfold undefined_names. simpl. by rewrite app_nil_r.
        - unfold undefined_names. rewrite filter_cons. simpl.
          destruct (lbls !! n) as [t|] eqn:Hn.
          + rewrite decide_False by done.
            destruct (in_bounds off _); [apply IH | done].
          + rewrite decide_True by done. intros Hr. apply IH in Hr.
            rewrite Hr. rewrite !fmap_cons. simpl. by rewrite <- app_assoc. }
      destruct (Asm.resolve_jumps lbls _ _ err) as [[cd e]|] eqn:Hr; [|done].
      intros [= <- <-]. apply Hgen in Hr.
      exists (undefined_names lbls (Asm.unresolvedJumps a0)). split; [done|].
      rewrite elem_of_undefined_names. intros [Hnone _].
      unfold lbls in Hnone. by rewrite lookup_insert_eq in Hnone. }
  destruct (resolve_build c (before ++ Asm.CLabel name :: between ++
                             Asm.CLabel name :: after) [])
    as (cd' & Hres & Hlen & Hdef & _). fold a in Hres, Hlen, Hdef.
  eexists _, (undefined_names (Asm.labels a) (Asm.unresolvedJumps a)).
  split; [exact Hres|]. split.
  { rewrite elem_of_undefined_names. intros [Hnone _]. congruence. }
  intros off Hin.
  destruct (build_jumps_ok c _ off name Hin) as (_ & opc & Hj & Hc).
  fold a in Hc. exists opc. split_and!; [done | done | |].
  - simpl. by rewrite (Hdef off name _ Hin Hend), Hc.
  - intros Hsize. apply wrap32_small.
    destruct (build_ok c (before ++ Asm.CLabel name :: between ++
                          Asm.CLabel name :: after)) as (_ & _ & Hlab).
    fold a in Hlab. specialize (Hlab name _ Hend). lia.
Qed.

Lemma label_rebinds_silently_witness :
  Asm.labels (Asm.build empty_Chunk duplicate_label_calls) !! "L" = Some 2 ∧
  ∃ a', Asm.resolve (Asm.build empty_Chunk duplicate_label_calls) []
          = Some (a', []) ∧
        code (Asm.chunk a') !! 1%nat = Some (mkInstruction JMP 2).
Proof.
  destruct (label_rebinds_silently (Asm.new_Assembler empty_Chunk) empty_Chunk
              [] [Asm.COp NOP; Asm.CJump "L"] [Asm.COp HALT] "L")
    as (_ & _ & _ & Hend & a' & names & Hres & _ & Hjumps).
  - intros Hin. apply list_elem_of_singleton in Hin. discriminate Hin.
  - split; [exact Hend|].
    exists a'. split.
    + assert (H0 := Hres). vm_compute in H0. injection H0 as _ H0.
      etrans; [exact Hres|]. f_equal. f_equal. symmetry. exact H0.
    + destruct (Hjumps 1) as (opc & _ & H0 & H1 & _); [vm_compute; by left|].
      vm_compute in H0. injection H0 as <-. exact H1.
Defined.

(** C5, counterexample to "the first recorded target is not overwritten and
    the redefinition is reported": after [label("L")] at instruction 0 and
    again at instruction 2, the label maps to 2, the jump emitted in between
    is patched to 2, and [resolve] writes nothing. *)
Lemma label_redefinition_overwrites :
  Asm.labels (Asm.build empty_Chunk [Asm.CLabel "L"]) !! "L" = Some 0 ∧
  Asm.labels (Asm.build empty_Chunk duplicate_label_calls) !! "L" = Some 2 ∧
  Asm.resolve (Asm.build empty_Chunk duplicate_label_calls) [] =
    Some (Asm.mkAssembler
            (mkChunk [mkInstruction NOP 0; mkInstruction JMP 2;
                      mkInstruction HALT 0] [] [1; 1; 1])
            (<["L" := 2]> ∅) [(1, "L")] 1,
          []).
Proof.
  split_and!; [reflexivity | reflexivity |].
  vm_compute. reflexivity.
Qed.

(** * The virtual machine *)

Section Machine.

Implicit Types (vm : VM) (c : Chunk) (instr : Instruction).

Lemma pop_back_nil {A} : pop_back (@nil A) = None.
Proof. reflexivity. Qed.

Lemma pop_back_snoc {A} (l : list A) x : pop_back (l ++ [x]) = Some (l, x).
Proof. unfold pop_back. by rewrite last_snoc, removelast_last. Qed.

Lemma wrap32_le n : 0 <= n → wrap32 n <= n.
Proof.
  intros Hn. unfold wrap32.
  pose proof (Z.mod_le (n + 2 ^ 31) (2 ^ 32)). lia.
Qed.

Lemma wrap64_small z : in_int64 z → wrap64 z = z.
Proof.
  unfold in_int64, wrap64. intros Hz. rewrite Z.mod_small; lia.
Qed.

(** After the collection check no collection is due, and the check changes
    nothing but the collector and the store. *)
Lemma maybe_collect_ok vm :
  vm_ok vm →
  ∃ g h,
    maybe_collect vm = Some (tt, set_gc_heap g h vm) ∧
    shouldCollect g = false ∧
    vm_ok (set_gc_heap g h vm).
Proof.
  intros (Hlen & Hreg & Hun & Hroots). unfold maybe_collect.
  destruct (shouldCollect (gc vm)) eqn:Hs.
  - destruct (collect_spec _ _ _ _ Hreg Hun Hroots) as (h' & Hc & _).
    destruct (collect_invariant _ _ _ _ _ _ Hreg Hun Hroots Hc)
      as (Hreg' & Hun' & Hroots' & Hq).
    rewrite Hc. eexists _, h'. split; [done|]. split; [done|].
    by split_and!.
  - exists (gc vm), (heap vm). by destruct vm.
Qed.

Lemma step_dispatch_quiet vm c instr :
  chunk vm = Some c → shouldCollect (gc vm) = false →
  code c !! Z.to_nat (ip vm) = Some instr →
  step vm = dispatch c instr (set_ip (ip vm + 1) vm).
Proof.
  intros Hc Hq Hi. unfold step, maybe_collect, bind, get, modify.
  by rewrite Hc, Hq, Hi.
Qed.

(** One loop iteration: the collection check, then the instruction at
    [ip] runs with [ip] already advanced. *)
Lemma step_dispatch vm c instr :
  vm_ok vm → chunk vm = Some c →
  code c !! Z.to_nat (ip vm) = Some instr →
  ∃ g h,
    step vm = dispatch c instr (set_ip (ip vm + 1) (set_gc_heap g h vm)) ∧
    shouldCollect g = false ∧
    vm_ok (set_gc_heap g h vm).
Proof.
  intros Hok Hc Hi.
  destruct (maybe_collect_ok vm Hok) as (g & h & Hm & Hq & Hok').
  exists g, h. split; [|done].
  unfold step, bind, get, modify. rewrite Hc, Hm. simpl. by rewrite Hi.
Qed.

Lemma loop_guard_true vm c :
  chunk vm = Some c → running vm = true →
  ip vm < Z.of_nat (length (code c)) →
  loop_guard vm = true.
Proof.
  intros Hc Hr Hi. unfold loop_guard. rewrite Hc, Hr. simpl.
  by apply Z.ltb_lt.
Qed.

Lemma run_step fuel vm vm' :
  loop_guard vm = true → step vm = Some (tt, vm') →
  run (S fuel) vm = run fuel vm'.
Proof. intros Hg Hs. simpl. by rewrite Hg, Hs. Qed.

Lemma run_done fuel vm : loop_guard vm = false → run fuel vm = Done vm.
Proof. intros Hg. destruct fuel; simpl; by rewrite Hg. Qed.

(** [execute] answers [true] exactly when the loop stopped with the
    instruction pointer at or past the end of the code. *)
Lemma execute_true_iff fuel c vm vm' b :
  execute fuel c vm = Done (b, vm') →
  chunk vm' = Some c →
  (b = true ↔ Z.of_nat (length (code c)) <= ip vm').
Proof.
  unfold execute. destruct (run fuel (execute_begin c vm)) as [vm1| |] eqn:Hr;
    [|done..].
  intros [= <- <-] Hc.
  assert (Hg : loop_guard vm1 = false).
  { clear -Hr. revert Hr. generalize (execute_begin c vm).
    induction fuel as [|fuel IH]; intros v; simpl.
    - destruct (loop_guard v) eqn:E; [done | by intros [= <-]].
    - destruct (loop_guard v) eqn:E; [|by intros [= <-]].
      destruct (step v) as [[[] v']|]; [apply IH | done]. }
  unfold loop_guard in Hg. rewrite Hc in Hg. unfold execute_result.
  destruct (running vm1); simpl in *.
  - apply Z.ltb_ge in Hg. split; [done|]. intros _. reflexivity.
  - by rewrite Z.leb_le.
Qed.

(** A machine with an empty registry, 256 [Nil] globals and no object
    reference on its stack is well formed. *)
Lemma vm_ok_without_objects vm :
  globals vm = replicate 256 Nil →
  objects (gc vm) = [] → 0 < threshold (gc vm) →
  (∀ p, Obj p ∉ stack vm) →
  vm_ok vm.
Proof.
  intros Hg Ho Ht Hs. split_and!.
  - by rewrite Hg, length_replicate.
  - split_and!; [rewrite Ho; constructor | | done].
    intros p Hp. rewrite Ho in Hp. by apply elem_of_nil in Hp.
  - intros p o Hp. rewrite Ho in Hp. by apply elem_of_nil in Hp.
  - intros p [Hp|Hp]%elem_of_app; [by apply Hs in Hp|].
    rewrite Hg in Hp. by apply elem_of_replicate in Hp as [? _].
Qed.

Lemma fresh_VM_ok c : vm_ok (execute_begin c fresh_VM).
Proof.
  apply vm_ok_without_objects; [reflexivity | reflexivity | reflexivity |].
  intros p Hp. by apply elem_of_nil in Hp.
Qed.

End Machine.

(** * The run invariant *)

Section Invariant.

Implicit Types (vm : VM) (c : Chunk) (h : gmap N Object) (v : Value).

Lemma triple_ret {A} (P : VM → Prop) (a : A) (Q : A → VM → Prop) :
  (∀ vm, P vm → Q a vm) → triple P (ret a) Q.
Proof. intros H vm a' vm' HP [= <- <-]. by apply H. Qed.

Lemma triple_bind {A B} (P : VM → Prop) (m : M A) (R : A → VM → Prop)
    (k : A → M B) (Q : B → VM → Prop) :
  triple P m R → (∀ a, triple (R a) (k a) Q) → triple P (bind m k) Q.
Proof.
  intros Hm Hk vm b vm' HP. unfold bind.
  destruct (m vm) as [[a vm1]|] eqn:E; [|done].
  intros Hb. eapply Hk; [|exact Hb]. by eapply Hm.
Qed.

Lemma triple_undefined {A} (P : VM → Prop) (Q : A → VM → Prop) :
  triple P undefined Q.
Proof. by intros vm a vm' _ ?. Qed.

Lemma triple_modify (P : VM → Prop) (f : VM → VM) (Q : unit → VM → Prop) :
  (∀ vm, P vm → Q tt (f vm)) → triple P (modify f) Q.
Proof. intros H vm a vm' HP [= <- <-]. by apply H. Qed.

Lemma triple_get {A} (P : VM → Prop) (f : VM → A) (Q : A → VM → Prop) :
  (∀ vm, P vm → Q (f vm) vm) → triple P (get f) Q.
Proof. intros H vm a vm' HP [= <- <-]. by apply H. Qed.

Lemma triple_weaken {A} (P P' : VM → Prop) (m : M A) (Q Q' : A → VM → Prop) :
  triple P' m Q' → (∀ vm, P vm → P' vm) → (∀ a vm, Q' a vm → Q a vm) →
  triple P m Q.
Proof. intros Hm HP HQ vm a vm' H E. apply HQ. eapply Hm; [by apply HP | done]. Qed.

Lemma value_ok_nonobj h v : (∀ p, v ≠ Obj p) → value_ok h v.
Proof. intros H p ->. by destruct (H p). Qed.

Lemma roots_ok_elem vs h v : roots_ok vs h → v ∈ vs → value_ok h v.
Proof. intros H Hv p ->. by apply H. Qed.

(** The invariant only looks at the stack, the globals, the collector and
    the store; a new stack made of old or valid values keeps it. *)
Lemma run_inv_restack c vm vm' :
  run_inv c vm →
  chunk vm' = chunk vm →
  globals vm' = globals vm → gc vm' = gc vm → heap vm' = heap vm →
  (∀ v, v ∈ stack vm' → v ∈ stack vm ∨ value_ok (heap vm) v) →
  run_inv c vm'.
Proof.
  intros (Hch & (Hlen & Hreg & Hun & Hroots) & Hc) Hch' Hg Hgc Hh Hs.
  split; [by rewrite Hch'|].
  split; [split_and!|]; rewrite ?Hg, ?Hgc, ?Hh; try done.
  - intros p [Hp|Hp]%elem_of_app.
    + destruct (Hs _ Hp) as [Hold|Hv]; [|by apply Hv].
      apply Hroots, elem_of_app. by left.
    + apply Hroots, elem_of_app. by right.
  - intros p Hp. rewrite Hh, Hgc. by apply Hc.
Qed.

Lemma last_Some_snoc {A} (l : list A) x : last l = Some x → l = removelast l ++ [x].
Proof.
  intros Hl. destruct l as [|y l] using rev_ind; [done|].
  rewrite last_snoc in Hl. injection Hl as ->. by rewrite removelast_last.
Qed.

(** Keeping the invariant, a pop yields a value that is valid in the store;
    any property [F] of the globals, collector and store is kept too. *)
Lemma triple_pop c (F : VM → Prop) :
  stable F →
  triple (fun vm => run_inv c vm ∧ F vm) pop
         (fun v vm => run_inv c vm ∧ value_ok (heap vm) v ∧ F vm).
Proof.
  intros HF vm v vm' [Hinv HFvm]. unfold pop, bind, get.
  destruct (pop_back (stack vm)) as [[s x]|] eqn:E.
  - unfold modify, ret. simpl. intros [= <- <-].
    unfold pop_back in E. destruct (last (stack vm)) as [y|] eqn:El; [|done].
    injection E as <- <-. apply last_Some_snoc in El.
    split_and!.
    + eapply run_inv_restack; [exact Hinv | done..|].
      simpl. intros w Hw. left. rewrite El. apply elem_of_app. by left.
    + simpl. destruct Hinv as (_ & (_ & _ & _ & Hroots) & _).
      eapply roots_ok_elem; [exact Hroots|].
      rewrite El, <- app_assoc. apply elem_of_app. right. by left.
    + by eapply HF; [..|exact HFvm].
  - unfold runtimeError, modify, ret. simpl. intros [= <- <-].
    split_and!.
    + by eapply run_inv_restack; [exact Hinv | done..| left].
    + by apply value_ok_nonobj.
    + by eapply HF; [..|exact HFvm].
Qed.

Lemma triple_push c v (F : VM → Prop) :
  stable F →
  triple (fun vm => run_inv c vm ∧ value_ok (heap vm) v ∧ F vm) (push v)
         (fun _ vm => run_inv c vm ∧ F vm).
Proof.
  intros HF vm a vm' (Hinv & Hv & HFvm). unfold push, modify. intros [= <- <-].
  split.
  - eapply run_inv_restack; [exact Hinv | done..|].
    simpl. intros w [Hw|Hw]%elem_of_app; [by left|].
    apply list_elem_of_singleton in Hw as ->. by right.
  - by eapply HF; [..|exact HFvm].
Qed.

Lemma triple_runtimeError c msg (F : VM → Prop) :
  stable F →
  triple (fun vm => run_inv c vm ∧ F vm) (runtimeError msg)
         (fun _ vm => run_inv c vm ∧ F vm).
Proof.
  intros HF vm a vm' (Hinv & HFvm). unfold runtimeError, modify.
  intros [= <- <-]. split.
  - by eapply run_inv_restack; [exact Hinv | done..| left].
  - by eapply HF; [..|exact HFvm].
Qed.

Lemma stable_True : stable (fun _ => True).
Proof. by intros vm vm' _ _ _ _. Qed.

Lemma stable_value_ok v : stable (fun vm => value_ok (heap vm) v).
Proof. intros vm vm' _ _ Hh H. by rewrite Hh. Qed.

Lemma stable_and (F G : VM → Prop) :
  stable F → stable G → stable (fun vm => F vm ∧ G vm).
Proof. intros HF HG vm vm' H1 H2 H3 [? ?]. split; [by eapply HF | by eapply HG]. Qed.

Lemma triple_pop0 c :
  triple (run_inv c) pop (fun v vm => run_inv c vm ∧ value_ok (heap vm) v).
Proof.
  eapply triple_weaken; [apply (triple_pop c (fun _ => True) stable_True) | |];
    simpl; intuition.
Qed.

Lemma triple_push0 c v :
  triple (fun vm => run_inv c vm ∧ value_ok (heap vm) v) (push v)
         (fun _ vm => run_inv c vm).
Proof.
  eapply triple_weaken; [apply (triple_push c v (fun _ => True) stable_True) | |];
    simpl; intuition.
Qed.

Lemma triple_runtimeError0 c msg :
  triple (run_inv c) (runtimeError msg) (fun _ vm => run_inv c vm).
Proof.
  eapply triple_weaken;
    [apply (triple_runtimeError c msg (fun _ => True) stable_True) | |];
    simpl; intuition.
Qed.

(** Pushing a value that is not an object reference. *)
Lemma triple_push_plain c v :
  (∀ p, v ≠ Obj p) → triple (run_inv c) (push v) (fun _ vm => run_inv c vm).
Proof.
  intros Hv. eapply triple_weaken; [apply (triple_push0 c) | | by intros ? ? H].
  intros vm Hinv. split; [done|]. by apply value_ok_nonobj.
Qed.

(** Two pops in a row, as most instructions start. *)
Lemma triple_pop2 c {A} (k : Value → Value → M A) (Q : A → VM → Prop) :
  (∀ b a, triple (fun vm => run_inv c vm ∧ value_ok (heap vm) a ∧
                            value_ok (heap vm) b) (k b a) Q) →
  triple (run_inv c) (bind pop (fun b => bind pop (fun a => k b a))) Q.
Proof.
  intros Hk. eapply triple_bind; [apply (triple_pop0 c)|]. intros b. simpl.
  eapply triple_bind.
  - apply (triple_pop c (fun vm => value_ok (heap vm) b)). apply stable_value_ok.
  - intros a. simpl. eapply triple_weaken; [apply Hk | | by intros ? ? H].
    simpl. intuition.
Qed.

Lemma triple_binaryOp c op :
  triple (run_inv c) (binaryOp op)
         (fun v vm => run_inv c vm ∧ value_ok (heap vm) v).
Proof.
  unfold binaryOp. apply triple_pop2. intros b a.
  assert (Herr : ∀ msg, triple
            (fun vm => run_inv c vm ∧ value_ok (heap vm) a ∧ value_ok (heap vm) b)
            (bind (runtimeError msg) (fun _ => ret Nil))
            (fun v vm => run_inv c vm ∧ value_ok (heap vm) v)).
  { intros msg. eapply triple_bind.
    - eapply triple_weaken; [apply (triple_runtimeError0 c) | | ]; simpl; [intuition|].
      intros ? vm H. exact H.
    - intros []. apply triple_ret. intros vm H. split; [done|].
      by apply value_ok_nonobj. }
  assert (Hret : ∀ v, (∀ p, v ≠ Obj p) → triple
            (fun vm => run_inv c vm ∧ value_ok (heap vm) a ∧ value_ok (heap vm) b)
            (ret v)
            (fun v vm => run_inv c vm ∧ value_ok (heap vm) v)).
  { intros v Hv. apply triple_ret. intros vm [H _]. split; [done|].
    by apply value_ok_nonobj. }
  destruct a, b; try apply Herr.
  destruct op; try apply Herr; try (by apply Hret);
    (destruct (_ =? 0); [apply Herr|]);
    (destruct (_ && _); [apply triple_undefined | by apply Hret]).
Qed.

Lemma triple_pop_inv c :
  triple (run_inv c) pop (fun _ vm => run_inv c vm).
Proof.
  eapply triple_weaken; [apply (triple_pop0 c) | done |].
  by intros ? ? [H _].
Qed.

Lemma triple_deref (P : VM → Prop) p :
  triple P (deref p) (fun o vm => P vm ∧ heap vm !! p = Some o).
Proof.
  intros vm o vm' HP. unfold deref.
  destruct (p =? nullptr)%N; [done|].
  destruct (heap vm !! p) as [o'|] eqn:E; [|done]. by intros [= <- <-].
Qed.

Lemma peek_ok c vm : run_inv c vm → value_ok (heap vm) (peek 0 vm).
Proof.
  intros (_ & (_ & _ & _ & Hroots) & _). unfold peek.
  destruct (_ <=? 0); [by apply value_ok_nonobj|].
  destruct (stack vm !! _) as [v|] eqn:E; simpl; [|by apply value_ok_nonobj].
  eapply roots_ok_elem; [exact Hroots|].
  apply elem_of_app. left. by eapply list_elem_of_lookup_2.
Qed.

(** Changes to the instruction pointer, the flag, the return addresses and
    the streams keep the invariant. *)
Lemma triple_control c (f : VM → VM) :
  (∀ vm, chunk (f vm) = chunk vm ∧ stack (f vm) = stack vm ∧
         globals (f vm) = globals vm ∧
         gc (f vm) = gc vm ∧ heap (f vm) = heap vm) →
  triple (run_inv c) (modify f) (fun _ vm => run_inv c vm).
Proof.
  intros Hf. apply triple_modify. intros vm Hinv.
  destruct (Hf vm) as (Hch & Hs & Hg & Hgc & Hh).
  eapply run_inv_restack; [exact Hinv | done..|].
  rewrite Hs. by left.
Qed.

(** Storing a valid value in a global slot keeps the invariant. *)
Lemma run_inv_store c vm i v :
  run_inv c vm → value_ok (heap vm) v →
  run_inv c (set_globals (<[i := v]> (globals vm)) vm).
Proof.
  intros (Hch & (Hlen & Hreg & Hun & Hroots) & Hc) Hv.
  split; [done|].
  split; [split_and!|]; simpl; try done.
  - by rewrite length_insert.
  - intros p [Hp|Hp]%elem_of_app.
    + apply Hroots, elem_of_app. by left.
    + apply list_elem_of_lookup in Hp as [j Hj].
      destruct (decide (i = j)) as [->|Hij].
      * destruct (decide (j < length (globals vm))%nat).
        -- rewrite list_lookup_insert_eq in Hj by done.
           injection Hj as ->. by apply Hv.
        -- rewrite list_insert_ge in Hj by lia.
           apply Hroots, elem_of_app. right. by eapply list_elem_of_lookup_2.
      * rewrite list_lookup_insert_ne in Hj by done.
        apply Hroots, elem_of_app. right. by eapply list_elem_of_lookup_2.
Qed.

(** Writing an array element keeps the invariant: the object stays where it
    is, with its mark flag. *)
Lemma run_inv_write c vm p o data :
  run_inv c vm → heap vm !! p = Some o →
  run_inv c (set_heap (<[p := mkObject data (marked o)]> (heap vm)) vm).
Proof.
  intros (Hch & (Hlen & (Hnd & Hlive & Hthr) & Hun & Hroots) & Hc) Ho.
  assert (Hsome : ∀ q, is_Some (heap vm !! q) →
            is_Some (<[p := mkObject data (marked o)]> (heap vm) !! q)).
  { intros q Hq. rewrite lookup_insert. case_decide; [by eexists | done]. }
  split; [done|].
  split; [split_and!|]; simpl; try done.
  - split_and!; [done | | done]. intros q Hq.
    destruct (Hlive q Hq) as [? ?]. auto.
  - intros q x Hq. rewrite lookup_insert. case_decide as Hpq.
    + intros [= <-]. simpl. subst q. by eapply Hun.
    + by apply Hun.
  - intros q Hq. destruct (Hroots q Hq); auto.
  - intros q Hq. destruct (Hc q Hq) as [?|[? ?]]; auto.
Qed.

(** Allocating an array and pushing its address keeps the invariant. *)
Lemma run_inv_allocate c vm o p g h :
  run_inv c vm → marked o = false →
  allocate o (gc vm) (heap vm) = (p, g, h) →
  run_inv c (set_stack (stack vm ++ [Obj p]) (set_gc_heap g h vm)).
Proof.
  intros (Hch & (Hlen & Hreg & Hun & Hroots) & Hc) Hm Ha.
  destruct (allocate_preserves _ _ _ _ _ _ Ha Hm Hreg Hun)
    as (Hreg' & Hun' & Hp & Hfresh & Hnew & Hobjs & Hold).
  assert (Hkeep : ∀ q, is_Some (heap vm !! q) → is_Some (h !! q)).
  { intros q [x Hx]. rewrite Hold; [by eexists|]. intros ->.
    by rewrite Hfresh in Hx. }
  split; [done|].
  split; [split_and!|]; simpl; try done.
  - intros q Hq. rewrite <- app_assoc in Hq.
    apply elem_of_app in Hq as [Hq|Hq].
    + destruct (Hroots q) as [?|?]; [apply elem_of_app; by left | by left |].
      right. by apply Hkeep.
    + apply elem_of_cons in Hq as [[= ->]|Hq].
      * right. rewrite Hnew. by eexists.
      * destruct (Hroots q) as [?|?]; [apply elem_of_app; by right | by left |].
        right. by apply Hkeep.
  - intros q Hq. simpl. destruct (Hc q Hq) as [?|[Hl Hn]]; [by left|]. right.
    split; [by apply Hkeep|]. rewrite Hobjs. intros [?|Hin]%elem_of_app; [done|].
    apply list_elem_of_singleton in Hin as ->.
    destruct Hl as [x Hx]. by rewrite Hfresh in Hx.
Qed.

Ltac control := apply triple_control; by intros [].

(** Every instruction keeps the invariant. *)
Lemma dispatch_inv c instr :
  triple (run_inv c) (dispatch c instr) (fun _ vm => run_inv c vm).
Proof.
  assert (Hpush : ∀ v, triple (fun vm => run_inv c vm ∧ value_ok (heap vm) v)
                         (push v) (fun _ vm => run_inv c vm))
    by (intros v; apply triple_push0).
  assert (Hdrop : ∀ (P : VM → Prop) msg, (∀ vm, P vm → run_inv c vm) →
            triple P (runtimeError msg) (fun _ vm => run_inv c vm)).
  { intros P msg HP. eapply triple_weaken; [apply (triple_runtimeError0 c) | |];
      simpl; [done | by intros ? ? H]. }
  assert (Hbin : triple (run_inv c)
            (bind (binaryOp (opcode instr)) (fun v => push v))
            (fun _ vm => run_inv c vm)).
  { eapply triple_bind; [apply triple_binaryOp|]. intros v. apply Hpush. }
  assert (Hplain : ∀ (P : VM → Prop) v, (∀ p, v ≠ Obj p) →
            (∀ vm, P vm → run_inv c vm) →
            triple P (push v) (fun _ vm => run_inv c vm)).
  { intros P v Hv HP. eapply triple_weaken; [apply (triple_push_plain c v Hv) | |];
      simpl; [done | by intros ? ? H]. }
  assert (Hskip : ∀ (P : VM → Prop), (∀ vm, P vm → run_inv c vm) →
            triple P (ret tt) (fun _ vm => run_inv c vm)).
  { intros P HP. by apply triple_ret. }
  unfold dispatch. destruct (opcode instr) eqn:Hop; try exact Hbin.
  - (* PUSH *)
    destruct (in_bounds _ _); [|by apply Hskip].
    destruct (constants c !! _) as [v|] eqn:Hv; [|apply triple_undefined].
    eapply triple_weaken; [apply (Hpush v) | | by intros ? ? H].
    intros vm Hinv. split; [done|]. intros p ->.
    destruct Hinv as (_ & _ & Hc).
    destruct (Hc p) as [?|[? _]]; [by eapply list_elem_of_lookup_2 | by left | by right].
  - (* POP *)
    eapply triple_bind; [apply (triple_pop_inv c)|]. intros v.
    by apply Hskip.
  - (* DUP *)
    eapply triple_bind; [|intros v; apply (Hpush v)].
    apply triple_get. intros vm Hinv. simpl. split; [done | by eapply peek_ok].
  - (* SWAP *)
    apply triple_pop2. intros b a.
    eapply triple_bind; [|intros u; apply (Hpush a)].
    eapply triple_weaken;
      [apply (triple_push c b (fun vm => value_ok (heap vm) a));
       apply stable_value_ok | |]; simpl; [intuition | by intros ? ? H].
  - (* NEG *)
    eapply triple_bind; [apply (triple_pop0 c)|]. intros a.
    destruct a; first [apply Hdrop | apply Hplain]; simpl; intuition done.
  - (* AND *)
    apply triple_pop2. intros b a. apply Hplain; simpl; intuition done.
  - (* OR *)
    apply triple_pop2. intros b a. apply Hplain; simpl; intuition done.
  - (* NOT *)
    eapply triple_bind; [apply (triple_pop0 c)|]. intros a.
    apply Hplain; simpl; intuition done.
  - (* LOAD *)
    apply triple_runtimeError0.
  - (* STORE *)
    apply triple_runtimeError0.
  - (* LOAD_GLOBAL *)
    eapply triple_bind.
    { apply triple_get with
        (Q := fun g vm => run_inv c vm ∧ g = globals vm). by intros. }
    intros g. destruct (in_bounds _ _); [|apply Hskip; by intros vm [? _]].
    destruct (g !! _) as [v|] eqn:Hv; [|apply triple_undefined].
    eapply triple_weaken; [apply (Hpush v) | | by intros ? ? H].
    intros vm [Hinv ->]. split; [done|].
    destruct Hinv as (_ & (_ & _ & _ & Hroots) & _).
    eapply roots_ok_elem; [exact Hroots|].
    apply elem_of_app. right. by eapply list_elem_of_lookup_2.
  - (* STORE_GLOBAL *)
    eapply triple_bind.
    { apply triple_get with
        (Q := fun g vm => run_inv c vm ∧ g = globals vm). by intros. }
    intros g. destruct (in_bounds _ _); [|apply Hskip; by intros vm [? _]].
    destruct (_ <? _)%nat; [|apply triple_undefined].
    eapply triple_bind.
    { apply triple_get with
        (Q := fun v vm => run_inv c vm ∧ g = globals vm ∧ value_ok (heap vm) v).
      intros vm [Hinv ->]. split_and!; [done | done | by eapply peek_ok]. }
    intros v. apply triple_modify. intros vm (Hinv & -> & Hv).
    by apply run_inv_store.
  - (* JMP *) control.
  - (* JMP_IF_FALSE *)
    eapply triple_bind; [apply triple_get with (Q := fun _ vm => run_inv c vm);
                         by intros|].
    intros v. destruct (negb _); [control | by apply Hskip].
  - (* JMP_IF_TRUE *)
    eapply triple_bind; [apply triple_get with (Q := fun _ vm => run_inv c vm);
                         by intros|].
    intros v. destruct (isTruthy _); [control | by apply Hskip].
  - (* CALL *)
    eapply triple_bind; [control | intros u; control].
  - (* RET *)
    eapply triple_bind; [apply triple_get with (Q := fun _ vm => run_inv c vm);
                         by intros|].
    intros cs. destruct (pop_back cs) as [[cs' addr]|]; [|control].
    eapply triple_bind; [control | intros u; control].
  - (* NEW_ARRAY *)
    destruct (_ <? 0); [apply triple_undefined|].
    intros vm [] vm' Hinv. unfold bind, push, modify.
    destruct (allocate _ (gc vm) (heap vm)) as [[p g] h] eqn:Ha.
    intros [= <-].
    exact (run_inv_allocate c vm
             (new_ArrayObject (Z.to_nat (operand instr))) p g h Hinv eq_refl Ha).
  - (* ARRAY_GET *)
    apply triple_pop2. intros idx arr.
    destruct arr; try (apply Hdrop; simpl; intuition done).
    eapply triple_bind; [apply triple_deref|]. intros o. simpl.
    destruct (payload o); [|apply Hdrop; simpl; intuition done].
    destruct idx; try (apply Hdrop; simpl; intuition done).
    destruct (in_bounds _ _); [|apply Hdrop; simpl; intuition done].
    destruct (_ !! _); [apply Hplain; simpl; intuition done | apply triple_undefined].
  - (* ARRAY_SET *)
    eapply triple_bind; [apply (triple_pop_inv c)|]. intros val.
    eapply triple_bind; [apply (triple_pop_inv c)|]. intros idx.
    eapply triple_bind; [apply (triple_pop_inv c)|]. intros arr.
    destruct arr; try apply triple_runtimeError0.
    eapply triple_bind; [apply triple_deref|]. intros o. simpl.
    destruct (payload o); [|apply Hdrop; simpl; intuition done].
    destruct idx; try (apply Hdrop; simpl; intuition done).
    destruct val; try (apply Hdrop; simpl; intuition done).
    destruct (in_bounds _ _); [|apply Hdrop; simpl; intuition done].
    apply triple_modify. intros vm [Hinv Ho]. by apply run_inv_write.
  - (* ARRAY_LEN *)
    eapply triple_bind; [apply (triple_pop_inv c)|]. intros arr.
    destruct arr; try apply triple_runtimeError0.
    eapply triple_bind; [apply triple_deref|]. intros o. simpl.
    destruct (payload o); [apply Hplain | apply Hdrop]; simpl; intuition done.
  - (* PRINT *)
    eapply triple_bind; [apply (triple_pop_inv c)|]. intros v.
    eapply triple_bind; [apply triple_get with (Q := fun _ vm => run_inv c vm);
                         by intros|].
    intros h. destruct (toString h v); [control | apply triple_undefined].
  - (* HALT *) control.
  - (* NOP *) by apply Hskip.
Qed.

(** The collection check keeps the invariant. *)
Lemma maybe_collect_inv c :
  triple (run_inv c) maybe_collect (fun _ vm => run_inv c vm).
Proof.
  intros vm [] vm' (Hch & Hok & Hc) Hm.
  destruct Hok as (Hlen & Hreg & Hun & Hroots).
  unfold maybe_collect in Hm.
  destruct (shouldCollect (gc vm));
    [|injection Hm as <-; split; [done|]; split; [by split_and!|done]].
  destruct (collect_spec _ _ _ _ Hreg Hun Hroots) as (h' & Hcol & Hh').
  destruct (collect_invariant _ _ _ _ _ _ Hreg Hun Hroots Hcol)
    as (Hreg' & Hun' & Hroots' & _).
  rewrite Hcol in Hm. injection Hm as <-.
  split; [done|]. split; [by split_and!|].
  intros p Hp. simpl. destruct (Hc p Hp) as [?|[[x Hx] Hn]]; [by left|]. right.
  split.
  - rewrite Hh', decide_False by done. rewrite Hx. case_decide; by eexists.
  - intros [_ Hin]%list_elem_of_filter. done.
Qed.

(** One loop iteration keeps the invariant. *)
Lemma step_inv c : triple (run_inv c) step (fun _ vm => run_inv c vm).
Proof.
  assert (Hbody : triple (run_inv c)
            (let* _ := maybe_collect in
             let* i := get ip in
             match code c !! Z.to_nat i with
             | Some instr => let* _ := modify (set_ip (i + 1)) in dispatch c instr
             | None => undefined
             end) (fun _ vm => run_inv c vm)).
  { eapply triple_bind; [apply maybe_collect_inv|]. intros u.
    eapply triple_bind;
      [apply triple_get with (Q := fun _ vm => run_inv c vm); by intros|].
    intros i. destruct (code c !! _) as [instr|]; [|apply triple_undefined].
    eapply triple_bind; [control | intros u'; apply dispatch_inv]. }
  intros vm u vm' Hinv Hs. unfold step in Hs.
  destruct Hinv as (Hch & Hrest). rewrite Hch in Hs.
  eapply Hbody; [|exact Hs]. by split.
Qed.

(** Whatever state the loop stops in satisfies the invariant. *)
Lemma run_keeps_inv c fuel vm vm' :
  run_inv c vm → run fuel vm = Done vm' → run_inv c vm'.
Proof.
  revert vm. induction fuel as [|fuel IH]; intros vm Hinv; simpl.
  - destruct (loop_guard vm); [done | by intros [= <-]].
  - destruct (loop_guard vm); [|by intros [= <-]].
    destruct (step vm) as [[[] vm1]|] eqn:Hs; [|done].
    apply IH. by eapply step_inv.
Qed.

(** A run started on a well-formed machine with valid constants ends on a
    well-formed machine: every root set the loop hands to [collect] meets
    the collector's requirements. *)
Lemma execute_keeps_ok c fuel vm b vm' :
  vm_ok vm → consts_ok c vm →
  execute fuel c vm = Done (b, vm') →
  vm_ok vm' ∧ consts_ok c vm'.
Proof.
  intros Hok Hc. unfold execute.
  destruct (run fuel (execute_begin c vm)) as [vm1| |] eqn:Hr; [|done..].
  intros [= <- <-].
  assert (Hinv : run_inv c (execute_begin c vm)).
  { split; [done|]. split; [|done].
    destruct Hok as (Hlen & Hreg & Hun & Hroots). split_and!; simpl; try done.
    intros p Hp. apply Hroots. apply elem_of_app. by right. }
  by destruct (run_keeps_inv c fuel _ _ Hinv Hr) as (_ & ? & ?).
Qed.

End Invariant.

(** * Properties of single instructions *)

(** C8. For every in-range global index [idx] and every non-empty operand
    stack [s ++ [v]], the loop iteration that executes [STORE_GLOBAL idx]
    stores the top value [v] in slot [idx] and leaves the operand stack as it
    was: [v] is still on top and the depth is unchanged. Nothing is written
    to either stream and the machine keeps running. *)
Theorem STORE_GLOBAL_peeks
    (vm : VM) (c : Chunk) (idx : Z) (s : list Value) (v : Value) :
  vm_ok vm →
  chunk vm = Some c →
  code c !! Z.to_nat (ip vm) = Some (mkInstruction STORE_GLOBAL idx) →
  0 <= idx < Z.of_nat (length (globals vm)) →
  stack vm = s ++ [v] →
  ∃ vm',
    step vm = Some (tt, vm') ∧
    stack vm' = s ++ [v] ∧
    length (stack vm') = length (stack vm) ∧
    peek 0 vm' = v ∧
    globals vm' = <[Z.to_nat idx := v]> (globals vm) ∧
    globals vm' !! Z.to_nat idx = Some v ∧
    ip vm' = ip vm + 1 ∧
    running vm' = running vm ∧
    callStack vm' = callStack vm ∧
    cout vm' = cout vm ∧ cerr vm' = cerr vm.
Proof.
  intros Hok Hc Hi Hidx Hs.
  destruct (step_dispatch vm c _ Hok Hc Hi) as (g & h & Hstep & _ & _).
  destruct Hok as (Hlen & _).
  assert (Hpeek : ∀ vm0, stack vm0 = s ++ [v] → peek 0 vm0 = v).
  { intros vm0 Hs0. unfold peek. rewrite Hs0, length_app. simpl.
    destruct (Z.leb_spec (Z.of_nat (length s + 1)) 0) as [|_]; [lia|].
    replace (Z.to_nat (Z.of_nat (length s + 1) - 1 - 0)) with (length s) by lia.
    by rewrite list_lookup_middle. }
  rewrite Hstep. unfold dispatch, bind, get, modify. simpl.
  rewrite Hlen in *.
  replace (in_bounds idx (wrap32 (Z.of_nat 256))) with true
    by (unfold in_bounds; symmetry; apply andb_true_iff;
        split; [apply Z.leb_le | apply Z.ltb_lt; change (wrap32 _) with 256]; lia).
  replace (Z.to_nat idx <? 256)%nat with true
    by (symmetry; apply Nat.ltb_lt; lia).
  rewrite Hpeek by done.
  eexists. split; [reflexivity|]. simpl.
  split_and!; try done.
  - by apply Hpeek.
  - apply list_lookup_insert_eq. lia.
Qed.

Lemma STORE_GLOBAL_peeks_witness :
  ∃ vm',
    step store_ready_VM = Some (tt, vm') ∧
    stack vm' = [Int 1; Int 7] ∧
    globals vm' !! 0%nat = Some (Int 7).
Proof.
  destruct (STORE_GLOBAL_peeks store_ready_VM store_seven 0 [Int 1] (Int 7))
    as (vm' & Hstep & Hs & _ & _ & _ & Hg & _).
  - apply vm_ok_without_objects; [reflexivity | reflexivity | reflexivity |].
    intros p Hp. simpl in Hp.
    repeat (apply elem_of_cons in Hp as [Hp|Hp]; [done|]).
    by apply elem_of_nil in Hp.
  - reflexivity.
  - reflexivity.
  - unfold store_ready_VM, globals. rewrite length_replicate. lia.
  - reflexivity.
  - by exists vm'.
Defined.

(** C10. The opcodes that read the stack top without popping (DUP,
    STORE_GLOBAL, JMP_IF_FALSE, JMP_IF_TRUE) never raise an error, whatever
    the stack: [peek] beyond the stack depth yields [Nil], the loop iteration
    completes, writes no diagnostic and leaves [running] as it was. On an
    empty stack DUP pushes [Nil] (depth 1), STORE_GLOBAL stores [Nil] in its
    slot (for an in-range slot), and JMP_IF_FALSE takes the jump. *)
Theorem peeking_opcodes_never_underflow
    (vm : VM) (c : Chunk) (instr : Instruction) :
  vm_ok vm →
  chunk vm = Some c →
  code c !! Z.to_nat (ip vm) = Some instr →
  opcode instr ∈ [DUP; STORE_GLOBAL; JMP_IF_FALSE; JMP_IF_TRUE] →
  (∀ d, Z.of_nat (length (stack vm)) <= d → peek d vm = Nil) ∧
  ∃ vm',
    step vm = Some (tt, vm') ∧
    cerr vm' = cerr vm ∧
    running vm' = running vm ∧
    (stack vm = [] →
       (opcode instr = DUP → stack vm' = [Nil]) ∧
       (opcode instr = STORE_GLOBAL →
          stack vm' = [] ∧
          (0 <= operand instr < 256 →
             globals vm' = <[Z.to_nat (operand instr) := Nil]> (globals vm))) ∧
       (opcode instr = JMP_IF_FALSE →
          stack vm' = [] ∧ ip vm' = to_size_t (operand instr))).
Proof.
  intros Hok Hc Hi Hop. split.
  { intros d Hd. unfold peek. by apply Z.leb_le in Hd as ->. }
  destruct (step_dispatch vm c _ Hok Hc Hi) as (g & h & Hstep & _ & _).
  destruct Hok as (Hlen & _).
  assert (Hpeek : ∀ vm0, stack vm0 = [] → peek 0 vm0 = Nil).
  { intros vm0 Hs0. unfold peek. by rewrite Hs0. }
  rewrite Hstep. destruct instr as [op n]. simpl in Hop |- *.
  repeat (apply elem_of_cons in Hop as [->|Hop]);
    [ | | | | by apply elem_of_nil in Hop];
    unfold dispatch, bind, get, modify, push, ret; simpl.
  - eexists. split; [reflexivity|]. simpl. split_and!; try done.
    intros Hs. split_and!; try done. intros _. by rewrite Hs, Hpeek.
  - rewrite Hlen. change (wrap32 (Z.of_nat 256)) with 256.
    destruct (in_bounds n 256) eqn:Hb.
    + apply andb_true_iff in Hb as [Hb1%Z.leb_le Hb2%Z.ltb_lt].
      replace (Z.to_nat n <? 256)%nat with true
        by (symmetry; apply Nat.ltb_lt; lia).
      eexists. split; [reflexivity|]. simpl. split_and!; try done.
      intros Hs. split_and!; try done. intros _. split; [done|].
      intros _. by rewrite Hpeek.
    + eexists. split; [reflexivity|]. simpl. split_and!; try done.
      intros Hs. split_and!; try done. intros _. split; [done|].
      intros Hr. unfold in_bounds in Hb. apply andb_false_iff in Hb.
      destruct Hb as [Hb%Z.leb_gt|Hb%Z.ltb_ge]; lia.
  - destruct (isTruthy (peek 0 _)) eqn:Ht; simpl;
      (eexists; split; [reflexivity|]); simpl; (split_and!; try done);
      intros Hs; (split_and!; try done); intros _; (split; [done|]).
    rewrite Hpeek in Ht by done. done.
  - destruct (isTruthy (peek 0 _)) eqn:Ht; simpl;
      (eexists; split; [reflexivity|]); simpl; (split_and!; try done);
      intros Hs; (split_and!; try done).
Qed.

Lemma peeking_opcodes_never_underflow_witness :
  ∃ vm',
    step (empty_stack_VM (mkInstruction DUP 0)) = Some (tt, vm') ∧
    stack vm' = [Nil] ∧ cerr vm' = [] ∧ running vm' = true.
Proof.
  destruct (peeking_opcodes_never_underflow
              (empty_stack_VM (mkInstruction DUP 0))
              (mkChunk [mkInstruction DUP 0] [] [1]) (mkInstruction DUP 0))
    as (_ & vm' & Hstep & Herr & Hrun & Hempty).
  - apply fresh_VM_ok.
  - reflexivity.
  - reflexivity.
  - simpl. by left.
  - exists vm'. destruct (Hempty eq_refl) as (Hdup & _).
    split_and!; [done | by apply Hdup | done | done].
Defined.

(** * Properties of whole runs *)

Section Runs.

Implicit Types (vm : VM) (c : Chunk).

(** Entering [execute] keeps a machine well formed: the roots shrink to
    the globals. *)
Lemma execute_begin_ok c vm : vm_ok vm → vm_ok (execute_begin c vm).
Proof.
  intros (Hlen & Hreg & Hun & Hroots). split_and!; simpl; try done.
  intros p Hp. apply Hroots. apply elem_of_app. by right.
Qed.

Lemma quot_in_int64 a b :
  in_int64 a → in_int64 b → b ≠ 0 → a ≠ - 2 ^ 63 ∨ b ≠ -1 →
  in_int64 (a ÷ b).
Proof.
  unfold in_int64. intros Ha Hb Hb0 Hmin.
  destruct (decide (b = 1)) as [->|H1]; [rewrite Z.quot_1_r; lia|].
  destruct (decide (b = -1)) as [->|H2].
  { replace (a ÷ -1) with (- a); [lia|].
    change (-1) with (- (1)). rewrite Z.quot_opp_r by lia.
    by rewrite Z.quot_1_r. }
  assert (Habs : Z.abs (a ÷ b) <= 2 ^ 62).
  { rewrite <- Z.quot_abs by done.
    rewrite Z.quot_div_nonneg by lia.
    apply Z.div_le_upper_bound; lia. }
  lia.
Qed.

Lemma rem_in_int64 a b : in_int64 b → b ≠ 0 → in_int64 (Z.rem a b).
Proof.
  unfold in_int64. intros Hb Hb0.
  pose proof (Z.rem_bound_abs a b Hb0) as Hr. lia.
Qed.

(** The first three loop iterations of [PUSH a; PUSH b; OP; ...]: both
    constants are pushed and the instruction [op] is about to run with no
    collection due. *)
Lemma run_two_pushes fuel op a b rest vm :
  vm_ok vm →
  ∃ g h,
    shouldCollect g = false ∧
    run (S (S fuel)) (execute_begin (binary_program op a b rest) vm) =
    run fuel (mkVM (Some (binary_program op a b rest)) 2 [Int a; Int b]
                   (globals vm) (callStack vm) g true h (cout vm) (cerr vm)).
Proof.
  intros Hok.
  assert (Hgen : ∀ asm,
    (∃ tl ls, Asm.chunk asm =
       mkChunk (mkInstruction PUSH 0 :: mkInstruction PUSH 1 ::
                mkInstruction op 0 :: tl) [Int a; Int b] ls) →
    ∃ tl ls, Asm.chunk (foldl (fun asm o => Asm.op o asm) asm rest) =
       mkChunk (mkInstruction PUSH 0 :: mkInstruction PUSH 1 ::
                mkInstruction op 0 :: tl) [Int a; Int b] ls).
  { induction rest as [|o rest IH]; intros asm (tl & ls & Hasm); simpl.
    - eauto.
    - apply IH. unfold Asm.op, Asm.emit, write. simpl. rewrite Hasm. simpl.
      eauto. }
  destruct (Hgen (Asm.op op (Asm.push b (Asm.push a
                    (Asm.new_Assembler empty_Chunk)))))
    as (tl & ls & Hcode); [by exists [], [1; 1; 1]|].
  unfold binary_program. rewrite Hcode. clear Hgen Hcode.
  set (c := mkChunk _ _ _).
  destruct (step_dispatch (execute_begin c vm) c (mkInstruction PUSH 0))
    as (g & h & Hstep & Hq & _);
    [by apply execute_begin_ok | reflexivity | reflexivity |].
  exists g, h. split; [done|].
  rewrite (run_step _ _ (mkVM (Some c) 1 [Int a] (globals vm) (callStack vm)
                              g true h (cout vm) (cerr vm)));
    [ | reflexivity | rewrite Hstep; reflexivity ].
  apply run_step.
  { apply (loop_guard_true _ c); [reflexivity | reflexivity |].
    unfold c, code, ip. rewrite !length_cons. lia. }
  rewrite step_dispatch_quiet with (c := c) (instr := mkInstruction PUSH 1);
    [reflexivity | reflexivity | exact Hq | reflexivity].
Qed.

End Runs.

(** Away from the division that overflows: for all 64-bit integers [a] and
    [b] (for DIV and MOD with [b ≠ 0] and not [a = INT64_MIN] with [b = -1])
    and every well-formed machine, the program PUSH a; PUSH b; OP; PRINT with
    OP among ADD, SUB, MUL, DIV, MOD runs to completion without a diagnostic
    and prints exactly one line: the decimal rendering of the signed 64-bit
    result of [a OP b] with [a] the left operand ([/] truncating toward zero,
    [%] with the sign of the dividend), which for DIV and MOD is the exact
    integer. *)
Lemma arithmetic_prints_result
    (op : OpCode) (a b : Z) (vm : VM) (fuel : nat) :
  arith_op op = true →
  in_int64 a → in_int64 b →
  (op = DIV ∨ op = MOD → b ≠ 0 ∧ (a ≠ - 2 ^ 63 ∨ b ≠ -1)) →
  vm_ok vm →
  (4 <= fuel)%nat →
  ∃ vm',
    execute fuel (print_program op a b) vm = Done (true, vm') ∧
    cout vm' = cout vm ++ [pretty (wrap64 (exact_arith op a b))] ∧
    cerr vm' = cerr vm ∧
    stack vm' = [] ∧
    (in_int64 (exact_arith op a b) →
       wrap64 (exact_arith op a b) = exact_arith op a b) ∧
    (op = DIV ∨ op = MOD → in_int64 (exact_arith op a b)).
Proof.
  intros Hop Ha Hb Hb0 Hok Hfuel.
  destruct fuel as [|[|[|[|k]]]]; [lia..|].
  unfold execute, print_program.
  destruct (run_two_pushes (S (S k)) op a b [PRINT] vm Hok) as (g & h & Hq & ->).
  set (c := binary_program op a b [PRINT]).
  assert (Hz : op = DIV ∨ op = MOD → (b =? 0) = false).
  { intros H. apply Z.eqb_neq. by destruct (Hb0 H). }
  assert (Ht : op = DIV ∨ op = MOD → (a =? - 2 ^ 63) && (b =? -1) = false).
  { intros H. destruct (Hb0 H) as [_ [Hne|Hne]]; apply andb_false_iff;
      [left | right]; by apply Z.eqb_neq. }
  rewrite (run_step _ _ (mkVM (Some c) 3 [Int (wrap64 (exact_arith op a b))]
                              (globals vm) (callStack vm) g true h
                              (cout vm) (cerr vm)));
    [ | reflexivity
      | rewrite step_dispatch_quiet with (c := c) (instr := mkInstruction op 0);
        [ | reflexivity | exact Hq | reflexivity ] ].
  2: { destruct op; try discriminate Hop;
         unfold dispatch, binaryOp, bind; simpl;
         rewrite ?Hz, ?Ht by auto; reflexivity. }
  rewrite (run_step _ _ (mkVM (Some c) 4 [] (globals vm) (callStack vm) g true h
                              (cout vm ++ [pretty (wrap64 (exact_arith op a b))])
                              (cerr vm)));
    [ | reflexivity
      | rewrite step_dispatch_quiet with (c := c) (instr := mkInstruction PRINT 0);
        [reflexivity | reflexivity | exact Hq | reflexivity] ].
  rewrite run_done by reflexivity.
  eexists. split; [reflexivity|]. simpl. split_and!; try done.
  - apply wrap64_small.
  - intros H. destruct (Hb0 H) as [Hne Hmin]. destruct H as [-> | ->]; simpl.
    + by apply quot_in_int64.
    + by apply rem_in_int64.
Qed.

(** C9, evaluated on the code. [binaryOp] guards DIV and MOD against a zero
    divisor only. With [a = INT64_MIN] and [b = -1] the host's [a / b] and
    [a % b] have no result: the division overflows and the run is cut short
    inside [execute], on every well-formed machine and however many
    iterations are allowed; the program PUSH a; PUSH b; OP; PRINT prints
    nothing and [execute] does not return. *)
Theorem division_overflow_aborts_the_run
    (op : OpCode) (vm : VM) (fuel : nat) :
  op = DIV ∨ op = MOD →
  vm_ok vm →
  (3 <= fuel)%nat →
  execute fuel (print_program op (- 2 ^ 63) (-1)) vm = Crashed.
Proof.
  intros Hop Hok Hfuel.
  destruct fuel as [|[|[|k]]]; [lia..|].
  unfold execute, print_program.
  destruct (run_two_pushes (S k) op (- 2 ^ 63) (-1) [PRINT] vm Hok)
    as (g & h & Hq & ->).
  set (c := binary_program op (- 2 ^ 63) (-1) [PRINT]).
  set (vm2 := mkVM (Some c) 2 [Int (- 2 ^ 63); Int (-1)] (globals vm)
                   (callStack vm) g true h (cout vm) (cerr vm)).
  assert (Hg : loop_guard vm2 = true) by reflexivity.
  assert (Hstep : step vm2 = None).
  { rewrite step_dispatch_quiet with (c := c) (instr := mkInstruction op 0);
      [ | reflexivity | exact Hq | reflexivity ].
    destruct Hop as [-> | ->]; reflexivity. }
  cbn [run]. by rewrite Hg, Hstep.
Qed.

Lemma division_overflow_aborts_the_run_witness :
  execute 4 (print_program DIV (- 2 ^ 63) (-1)) fresh_VM = Crashed ∧
  execute 4 (print_program MOD (- 2 ^ 63) (-1)) fresh_VM = Crashed.
Proof.
  assert (Hok : vm_ok fresh_VM).
  { apply vm_ok_without_objects; [reflexivity | reflexivity | reflexivity |].
    intros p Hp. by apply elem_of_nil in Hp. }
  split.
  - apply division_overflow_aborts_the_run; [by left | exact Hok | lia].
  - apply division_overflow_aborts_the_run; [by right | exact Hok | lia].
Defined.

(** C3, as the code has it. For every integer [a] and every well-formed
    machine, the program PUSH a; PUSH 0; DIV (likewise MOD) does not crash:
    the run ends with [running] cleared and the diagnostic of the zero
    divisor on the error stream, prints nothing, and produces no integer
    result; what the failed operation leaves on the operand stack is the
    [Nil] that [binaryOp] returns. *)
Theorem zero_divisor_errors_and_leaves_nil
    (op : OpCode) (a : Z) (vm : VM) (fuel : nat) :
  op = DIV ∨ op = MOD →
  in_int64 a →
  vm_ok vm →
  (3 <= fuel)%nat →
  ∃ r vm',
    execute fuel (zero_divisor_program op a) vm = Done (r, vm') ∧
    running vm' = false ∧
    cerr vm' = cerr vm ++ ["Runtime Error: " +:+ zero_divisor_message op;
                           "  at instruction 3"] ∧
    cout vm' = cout vm ∧
    stack vm' = [Nil].
Proof.
  intros Hop Ha Hok Hfuel.
  destruct fuel as [|[|[|k]]]; [lia..|].
  unfold execute, zero_divisor_program.
  destruct (run_two_pushes (S k) op a 0 [] vm Hok) as (g & h & Hq & ->).
  set (c := binary_program op a 0 []).
  rewrite (run_step _ _
             (mkVM (Some c) 3 [Nil] (globals vm) (callStack vm) g false h
                   (cout vm)
                   (cerr vm ++ ["Runtime Error: " +:+ zero_divisor_message op;
                                "  at instruction 3"])));
    [ | reflexivity
      | rewrite step_dispatch_quiet with (c := c) (instr := mkInstruction op 0);
        [ | reflexivity | exact Hq | reflexivity ] ].
  2: { destruct Hop as [-> | ->]; reflexivity. }
  rewrite run_done by reflexivity.
  eexists _, _. split; [reflexivity|]. done.
Qed.

Lemma zero_divisor_errors_and_leaves_nil_witness :
  ∃ r vm',
    execute 3 (zero_divisor_program MOD 5) fresh_VM = Done (r, vm') ∧
    cerr vm' = ["Runtime Error: Modulo by zero"; "  at instruction 3"] ∧
    stack vm' = [Nil].
Proof.
  destruct (zero_divisor_errors_and_leaves_nil MOD 5 fresh_VM 3)
    as (r & vm' & Hexec & _ & Herr & _ & Hstack).
  - by right.
  - unfold in_int64. lia.
  - apply vm_ok_without_objects; [reflexivity | reflexivity | reflexivity |].
    intros p Hp. by apply elem_of_nil in Hp.
  - lia.
  - exists r, vm'. split_and!; [done | | done]. rewrite Herr. reflexivity.
Defined.

(** C3, counterexample to "no result value appears on the operand stack":
    after PUSH 7; PUSH 0; DIV on a new machine both operands are gone and the
    stack holds one value, [Nil]. *)
Lemma zero_divisor_pushes_a_value :
  ∃ vm',
    final_vm (execute 3 (zero_divisor_program DIV 7) fresh_VM) = Some vm' ∧
    stack vm' = [Nil] ∧
    length (stack vm') = 1%nat.
Proof. eexists. split; [vm_compute; reflexivity|]. done. Qed.

(** C1, evaluated on the code. [execute] answers with
    [running || ip >= code.size()], and both HALT and a runtime error clear
    [running]: a chunk whose HALT is followed by another instruction halts
    without any diagnostic and yet returns false, while a chunk whose last
    instruction pops an empty stack reports the underflow and returns true. *)
Theorem execute_result_conflates_halt_and_error :
  (∃ vm', execute 2 halt_then_nop fresh_VM = Done (false, vm') ∧
          running vm' = false ∧ ip vm' = 1 ∧ cerr vm' = []) ∧
  (∃ vm', execute 2 pop_on_empty fresh_VM = Done (true, vm') ∧
          running vm' = false ∧ ip vm' = 1 ∧
          cerr vm' = ["Runtime Error: Stack underflow"; "  at instruction 1"]).
Proof.
  split; (eexists; split; [vm_compute; reflexivity|]); done.
Qed.

(** C7, as the code has it. [execute] starts every run with the given
    chunk, the instruction pointer at 0, an empty operand stack and
    [running] set, so the run does not depend on the chunk, pointer, operand
    stack or flag left by an earlier call. The global table is not touched
    on entry: the contents left by the earlier call are what the new run
    starts from. *)
Theorem execute_resets_stack_and_ip_only
    (fuel : nat) (c : Chunk) (vm : VM) :
  chunk (execute_begin c vm) = Some c ∧
  ip (execute_begin c vm) = 0 ∧
  stack (execute_begin c vm) = [] ∧
  running (execute_begin c vm) = true ∧
  globals (execute_begin c vm) = globals vm ∧
  execute fuel c vm =
    match run fuel (execute_begin c vm) with
    | Done vm' => Done (execute_result c vm', vm')
    | Crashed => Crashed
    | OutOfFuel => OutOfFuel
    end ∧
  ∀ vm2,
    globals vm2 = globals vm → callStack vm2 = callStack vm →
    gc vm2 = gc vm → heap vm2 = heap vm →
    cout vm2 = cout vm → cerr vm2 = cerr vm →
    execute fuel c vm2 = execute fuel c vm.
Proof.
  split_and!; try reflexivity.
  intros vm2 Hg Hcs Hgc Hh Hout Herr.
  unfold execute, execute_begin. by rewrite Hg, Hcs, Hgc, Hh, Hout, Herr.
Qed.

Lemma execute_resets_stack_and_ip_only_witness :
  execute 2 print_global store_ready_VM = execute 2 print_global fresh_VM.
Proof.
  destruct (execute_resets_stack_and_ip_only 2 print_global fresh_VM)
    as (_ & _ & _ & _ & _ & _ & Hsame).
  apply Hsame; reflexivity.
Defined.

(** C7, counterexample to "no contents of the global table from a previous
    [execute] invocation influence the new run": after a first run that
    stores 7 in global slot 0, a second run on the same machine that prints
    that slot writes 7, whereas on a new machine it writes nil. *)
Lemma globals_survive_between_runs :
  ∃ vm1 vm2 vm2',
    final_vm (execute 3 store_seven fresh_VM) = Some vm1 ∧
    final_vm (execute 2 print_global vm1) = Some vm2 ∧
    final_vm (execute 2 print_global fresh_VM) = Some vm2' ∧
    cout vm2 = ["7"] ∧ cout vm2' = ["nil"].
Proof.
  eexists _, _, _.
  split; [vm_compute; reflexivity|].
  split; [vm_compute; reflexivity|].
  split; [vm_compute; reflexivity|].
  split; reflexivity.
Qed.

(** * The example programs, run in the model *)

Example example1_prints_85 :
  run_output example1_chunk 20 = Some (["85"], []).
Proof. vm_compute. reflexivity. Qed.

Example example4_prints_element_and_length :
  run_output example4_chunk 20 = Some (["42"; "5"], []).
Proof. vm_compute. reflexivity. Qed.

Example branch_taken_prints_10 :
  (c ← assemble (branch_calls 1); run_output c 20) = Some (["10"], []).
Proof. vm_compute. reflexivity. Qed.

Example branch_not_taken_prints_20 :
  (c ← assemble (branch_calls 0); run_output c 20) = Some (["20"], []).
Proof. vm_compute. reflexivity. Qed.

(** The collection that runs once eight objects are registered frees the six
    unreferenced arrays and keeps the array held in the global slot (address
    1), with the element stored in it, and the array still on the stack
    (address 8); one more array (address 9) is allocated afterwards. *)
Example gc_keeps_the_stored_array :
  ∃ vm, final_vm (execute 40 gc_liveness_chunk fresh_VM) = Some vm ∧
        cout vm = ["99"] ∧ cerr vm = [] ∧
        objects (gc vm) = [1%N; 8%N; 9%N] ∧
        globals vm !! 0%nat = Some (Obj 1%N).
Proof. eexists. split; [vm_compute; reflexivity|]. done. Qed.

Example fixed2_samples :
  fixed2 0x3FF8000000000000 = "1.50" ∧
  fixed2 0xC005666666666666 = "-2.67" ∧
  fixed2 0 = "0.00".
Proof. by vm_compute. Qed.

(** * Reasoning about sequences of instructions *)

Section Sequences.

Implicit Types (vm : VM) (c : Chunk) (instr : Instruction).

Lemma steps_run n fuel vm vm' :
  steps n vm = Some vm' → run (n + fuel) vm = run fuel vm'.
Proof.
  revert vm. induction n as [|n IH]; intros vm; simpl.
  - by intros [= <-].
  - destruct (loop_guard vm); [|done].
    destruct (step vm) as [[[] vm1]|]; [apply IH | done].
Qed.

Lemma steps_app n m vm vm1 :
  steps n vm = Some vm1 → steps (n + m) vm = steps m vm1.
Proof.
  revert vm. induction n as [|n IH]; intros vm; simpl.
  - by intros [= <-].
  - destruct (loop_guard vm); [|done].
    destruct (step vm) as [[[] vm2]|]; [apply IH | done].
Qed.

Lemma fetches_lookup c pc instrs k instr :
  fetches c pc instrs → instrs !! k = Some instr →
  code c !! Z.to_nat (pc + Z.of_nat k) = Some instr ∧
  pc + Z.of_nat k < Z.of_nat (length (code c)).
Proof.
  intros [Hpc Hf] Hk. rewrite <- Hf in Hk.
  apply lookup_take_Some in Hk as [Hk _].
  rewrite lookup_drop in Hk.
  replace (Z.to_nat (pc + Z.of_nat k)) with (Z.to_nat pc + k)%nat by lia.
  split; [done|]. apply lookup_lt_Some in Hk. lia.
Qed.

Lemma fetches_head c pc instr rest :
  fetches c pc (instr :: rest) →
  code c !! Z.to_nat pc = Some instr ∧ pc < Z.of_nat (length (code c)) ∧
  fetches c (pc + 1) rest.
Proof.
  intros Hf. destruct (fetches_lookup c pc _ 0 instr Hf eq_refl) as [H0 H1].
  rewrite Z.add_0_r in H0, H1. split_and!; [done..|].
  destruct Hf as [Hpc Hf]. split; [lia|].
  replace (Z.to_nat (pc + 1)) with (S (Z.to_nat pc)) by lia.
  simpl in Hf.
  rewrite (drop_S _ instr _ H0) in Hf. simpl in Hf. by injection Hf.
Qed.

(** One loop iteration from a state of a run: after the collection check the
    invariant holds, what the roots refer to is still there, and the
    instruction runs with [ip] advanced. *)
Lemma step_spec c vm instr :
  run_inv c vm → code c !! Z.to_nat (ip vm) = Some instr →
  ∃ g h,
    step vm = dispatch c instr (set_ip (ip vm + 1) (set_gc_heap g h vm)) ∧
    run_inv c (set_ip (ip vm + 1) (set_gc_heap g h vm)) ∧
    heap_kept (stack vm ++ globals vm) (heap vm) h ∧
    (shouldCollect (gc vm) = false → g = gc vm ∧ h = heap vm) ∧
    shouldCollect g = false.
Proof.
  intros Hinv Hi. destruct Hinv as (Hch & Hok & Hc).
  destruct (maybe_collect vm) as [[[] vm1]|] eqn:Hm.
  2: { destruct (maybe_collect_ok vm Hok) as (g & h & Hm' & _). congruence. }
  assert (Hinv1 : run_inv c vm1).
  { eapply (maybe_collect_inv c vm tt vm1); [by split_and!|done]. }
  assert (Hshape : ∃ g h, vm1 = set_gc_heap g h vm ∧
            heap_kept (stack vm ++ globals vm) (heap vm) h ∧
            (shouldCollect (gc vm) = false → g = gc vm ∧ h = heap vm) ∧
            shouldCollect g = false).
  { unfold maybe_collect in Hm. destruct (shouldCollect (gc vm)) eqn:Hs.
    - destruct Hok as (Hlen & Hreg & Hun & Hroots).
      destruct (collect_spec _ _ _ _ Hreg Hun Hroots) as (h' & Hcol & Hh').
      destruct (collect_invariant _ _ _ _ _ _ Hreg Hun Hroots Hcol)
        as (_ & _ & _ & Hquiet).
      rewrite Hcol in Hm. injection Hm as <-.
      eexists _, h'. split; [done|]. split; [|done].
      intros p o Hr Ho. rewrite Hh', Ho.
      case_decide; rewrite (decide_True (P := referenced _ p)) by done;
        simpl; eauto.
    - injection Hm as <-. exists (gc vm), (heap vm).
      split; [by destruct vm|]. split; [|done]. intros p o _ Ho. eauto. }
  destruct Hshape as (g & h & -> & Hkeep & Hq & Hquiet).
  exists g, h. split_and!; try done.
  unfold step, bind, get, modify. rewrite Hch, Hm. simpl. by rewrite Hi.
Qed.

Lemma pop_snoc vm l x :
  stack vm = l ++ [x] → pop vm = Some (x, set_stack l vm).
Proof.
  intros Hs. unfold pop, bind, get. by rewrite Hs, pop_back_snoc.
Qed.


Lemma peek_snoc vm l x : stack vm = l ++ [x] → peek 0 vm = x.
Proof.
  intros Hs. unfold peek. rewrite Hs, length_app. simpl.
  destruct (Z.leb_spec (Z.of_nat (length l + 1)) 0) as [|_]; [lia|].
  replace (Z.to_nat (Z.of_nat (length l + 1) - 1 - 0)) with (length l) by lia.
  by rewrite list_lookup_middle.
Qed.

Lemma peek_empty vm : stack vm = [] → peek 0 vm = Nil.
Proof. intros Hs. unfold peek. by rewrite Hs. Qed.

End Sequences.

Section Checker.

Implicit Types (vm : VM) (c : Chunk).

(** The boolean check is sound. *)
Lemma run_inv_b_sound c vm : run_inv_b c vm = true → run_inv c vm.
Proof.
  unfold run_inv_b. rewrite !andb_true_iff.
  intros ((((((Hch & Hlen) & Hnd) & Hreg) & Hthr) & Hroots) & Hconst).
  apply bool_decide_eq_true in Hch, Hnd.
  apply Nat.eqb_eq in Hlen. apply Z.ltb_lt in Hthr.
  rewrite forallb_forall in Hreg, Hroots, Hconst.
  split; [done|]. split; [split_and!|]; try done.
  - split_and!; [done | | done]. intros p Hp.
    apply list_elem_of_In, Hreg in Hp. unfold registered_ok_b in Hp.
    apply andb_true_iff in Hp as [Hn Hl].
    apply negb_true_iff, N.eqb_neq in Hn. split; [done|].
    destruct (heap vm !! p); [by eexists | done].
  - intros p o Hp Ho.
    apply list_elem_of_In, Hreg in Hp. unfold registered_ok_b in Hp.
    apply andb_true_iff in Hp as [_ Hl]. rewrite Ho in Hl.
    by apply negb_true_iff in Hl.
  - intros p Hp. apply list_elem_of_In, Hroots in Hp. simpl in Hp.
    apply orb_true_iff in Hp as [Hp|Hp].
    + left. by apply N.eqb_eq in Hp.
    + right. by apply bool_decide_eq_true in Hp.
  - intros p Hp. apply list_elem_of_In, Hconst in Hp. simpl in Hp.
    apply orb_true_iff in Hp as [Hp|Hp].
    + left. by apply N.eqb_eq in Hp.
    + right. apply andb_true_iff in Hp as [H1 H2].
      by apply bool_decide_eq_true in H1, H2.
Qed.

Lemma guard_of_inv c vm :
  run_inv c vm → running vm = true → ip vm < Z.of_nat (length (code c)) →
  loop_guard vm = true.
Proof. intros (Hch & _) Hr Hi. by apply (loop_guard_true vm c). Qed.

End Checker.

(** * Operand-stack instructions *)

Ltac seq_head Hf Hc Hlt := apply fetches_head in Hf as (Hc & Hlt & Hf).

Ltac seq_step c Hinv Hc g h Hstep Hinv' Hkeep Hq :=
  cbn [steps];
  rewrite (guard_of_inv c _ Hinv) by (simpl; first [done | lia]);
  destruct (step_spec c _ _ Hinv Hc) as (g & h & Hstep & Hinv' & Hkeep & Hq);
  rewrite Hstep.

Ltac seq_step_quiet c Hinv Hc g h Hstep Hinv' Hkeep Hsame Hquiet :=
  cbn [steps];
  rewrite (guard_of_inv c _ Hinv) by (simpl; first [done | lia]);
  destruct (step_spec c _ _ Hinv Hc)
    as (g & h & Hstep & Hinv' & Hkeep & Hsame & Hquiet);
  rewrite Hstep.

(** X1. An opcode that pops, met with an empty operand stack, never crashes the
    machine: the loop iteration completes, the first lines it writes to the
    error stream are the stack-underflow report with the advanced instruction
    pointer, and [running] is cleared, so the loop stops. *)
Theorem empty_stack_pop_reports_underflow c vm instr :
  run_inv c vm → running vm = true →
  fetches c (ip vm) [instr] →
  pops (opcode instr) = true →
  stack vm = [] →
  ∃ vm' rest,
    steps 1 vm = Some vm' ∧
    running vm' = false ∧
    loop_guard vm' = false ∧
    cerr vm' = cerr vm ++ ["Runtime Error: Stack underflow";
                           "  at instruction " +:+ pretty (ip vm + 1)] ++ rest ∧
    ip vm' = ip vm + 1 ∧
    globals vm' = globals vm.
Proof.
  intros Hinv Hrun Hf Hpop Hs.
  seq_head Hf Hc Hlt.
  seq_step c Hinv Hc g h Hstep Hinv1 Hkeep Hq.
  assert (Hch : chunk vm = Some c) by (by destruct Hinv).
  destruct vm as [ch pc st gl cs g0 r h0 out err]. simpl in *. subst st ch r.
  destruct instr as [op n]. simpl in Hpop.
  assert (Hguard : ∀ vm', chunk vm' = Some c → running vm' = false →
                          loop_guard vm' = false).
  { intros vm' Hc' Hr'. unfold loop_guard. by rewrite Hc', Hr'. }
  destruct op; try discriminate Hpop;
    (eexists _, _; split; [reflexivity|]; simpl;
     split; [reflexivity|]; split; [by apply Hguard|];
     split; [rewrite <- ?app_assoc; simpl; reflexivity|]; done).
Qed.

Lemma empty_stack_pop_reports_underflow_witness :
  ∃ vm',
    steps 1 (vm_at (chunk_of [mkInstruction ADD 0] []) 0 []) = Some vm' ∧
    running vm' = false ∧
    cerr vm' = ["Runtime Error: Stack underflow"; "  at instruction 1";
                "Runtime Error: Stack underflow"; "  at instruction 1";
                "Runtime Error: Operands must be integers";
                "  at instruction 1"].
Proof.
  destruct (empty_stack_pop_reports_underflow
              (chunk_of [mkInstruction ADD 0] [])
              (vm_at (chunk_of [mkInstruction ADD 0] []) 0 [])
              (mkInstruction ADD 0))
    as (vm' & rest & Hsteps & Hrun & _ & Herr & _).
  - apply run_inv_b_sound. vm_compute. reflexivity.
  - reflexivity.
  - split; [simpl; lia | reflexivity].
  - reflexivity.
  - reflexivity.
  - exists vm'. split_and!; [done | done |].
    revert Hsteps. vm_compute. by intros [= <-].
Defined.

(** X2. DUP followed by POP leaves the operand stack exactly as it was, whatever
    it holds (on an empty stack DUP pushes [Nil] and POP removes it); nothing
    is written and the machine keeps running. *)
Theorem DUP_POP_restores c vm a b :
  run_inv c vm → running vm = true →
  fetches c (ip vm) [mkInstruction DUP a; mkInstruction POP b] →
  ∃ vm',
    steps 2 vm = Some vm' ∧
    stack vm' = stack vm ∧ ip vm' = ip vm + 2 ∧
    running vm' = true ∧ globals vm' = globals vm ∧
    callStack vm' = callStack vm ∧ cout vm' = cout vm ∧ cerr vm' = cerr vm.
Proof.
  intros Hinv Hrun Hf.
  seq_head Hf Hc1 Hlt1. seq_head Hf Hc2 Hlt2.
  seq_step c Hinv Hc1 g h Hstep Hinv1 Hkeep Hq.
  set (vm0 := set_ip _ _) in *.
  assert (Hd : dispatch c (mkInstruction DUP a) vm0
               = Some (tt, set_stack (stack vm ++ [peek 0 vm]) vm0)) by reflexivity.
  rewrite Hd. pose proof (dispatch_inv c _ _ _ _ Hinv1 Hd) as Hinv2.
  seq_step c Hinv2 Hc2 g2 h2 Hstep2 Hinv3 Hkeep2 Hq2.
  unfold dispatch, bind. simpl. erewrite pop_snoc by reflexivity.
  eexists. split; [reflexivity|]. simpl. split_and!; try done. lia.
Qed.

Lemma DUP_POP_restores_witness :
  ∃ vm',
    steps 2 (vm_at (chunk_of [mkInstruction DUP 0; mkInstruction POP 0] []) 0
                   [Int 4]) = Some vm' ∧
    stack vm' = [Int 4].
Proof.
  destruct (DUP_POP_restores
              (chunk_of [mkInstruction DUP 0; mkInstruction POP 0] [])
              (vm_at (chunk_of [mkInstruction DUP 0; mkInstruction POP 0] []) 0
                     [Int 4]) 0 0)
    as (vm' & Hsteps & Hs & _).
  - apply run_inv_b_sound. vm_compute. reflexivity.
  - reflexivity.
  - split; [simpl; lia | reflexivity].
  - by exists vm'.
Defined.

(** X3. SWAP exchanges the two topmost values and a second SWAP puts them back:
    two SWAPs in a row leave a stack of depth two or more as it was. *)
Theorem SWAP_SWAP_restores c vm l x y a b :
  run_inv c vm → running vm = true →
  fetches c (ip vm) [mkInstruction SWAP a; mkInstruction SWAP b] →
  stack vm = l ++ [x; y] →
  ∃ vm1 vm2,
    steps 1 vm = Some vm1 ∧ stack vm1 = l ++ [y; x] ∧
    steps 2 vm = Some vm2 ∧ stack vm2 = l ++ [x; y] ∧
    ip vm2 = ip vm + 2 ∧ running vm2 = true ∧
    globals vm2 = globals vm ∧ cout vm2 = cout vm ∧ cerr vm2 = cerr vm.
Proof.
  intros Hinv Hrun Hf Hs.
  seq_head Hf Hc1 Hlt1. seq_head Hf Hc2 Hlt2.
  assert (Hswap : ∀ vm0 n u v, stack vm0 = l ++ [u; v] →
            dispatch c (mkInstruction SWAP n) vm0
            = Some (tt, set_stack (l ++ [v; u]) vm0)).
  { intros vm0 n u v Hs0. unfold dispatch, bind. simpl.
    rewrite (pop_snoc vm0 (l ++ [u]) v) by (by rewrite <- app_assoc).
    rewrite (pop_snoc _ l u) by done.
    unfold push, modify. simpl. by rewrite <- app_assoc. }
  pose proof (step_spec c vm _ Hinv Hc1) as (g & h & Hstep & Hinv1 & _).
  pose proof (Hswap (set_ip (ip vm + 1) (set_gc_heap g h vm)) a x y Hs) as Hd.
  pose proof (dispatch_inv c _ _ _ _ Hinv1 Hd) as Hinv2.
  assert (H1 : steps 1 vm = Some (set_stack (l ++ [y; x])
                 (set_ip (ip vm + 1) (set_gc_heap g h vm)))).
  { cbn [steps]. rewrite (guard_of_inv c _ Hinv) by done. by rewrite Hstep, Hd. }
  change 2%nat with (1 + 1)%nat. rewrite (steps_app 1 1 _ _ H1), H1.
  seq_step c Hinv2 Hc2 g2 h2 Hstep2 Hinv3 Hkeep2 Hq2.
  erewrite (Hswap _ b y x) by reflexivity.
  eexists _, _. split; [reflexivity|]. split; [done|].
  split; [reflexivity|]. simpl. split_and!; try done. lia.
Qed.

Lemma SWAP_SWAP_restores_witness :
  ∃ vm1 vm2,
    steps 1 (vm_at (chunk_of [mkInstruction SWAP 0; mkInstruction SWAP 0] []) 0
                   [Int 1; Int 2; Int 3]) = Some vm1 ∧
    stack vm1 = [Int 1; Int 3; Int 2] ∧
    steps 2 (vm_at (chunk_of [mkInstruction SWAP 0; mkInstruction SWAP 0] []) 0
                   [Int 1; Int 2; Int 3]) = Some vm2 ∧
    stack vm2 = [Int 1; Int 2; Int 3].
Proof.
  destruct (SWAP_SWAP_restores
              (chunk_of [mkInstruction SWAP 0; mkInstruction SWAP 0] [])
              (vm_at (chunk_of [mkInstruction SWAP 0; mkInstruction SWAP 0] []) 0
                     [Int 1; Int 2; Int 3]) [Int 1] (Int 2) (Int 3) 0 0)
    as (vm1 & vm2 & H1 & Hs1 & H2 & Hs2 & _).
  - apply run_inv_b_sound. vm_compute. reflexivity.
  - reflexivity.
  - split; [simpl; lia | reflexivity].
  - reflexivity.
  - by exists vm1, vm2.
Defined.

Lemma in_bounds_wrap32_false k n :
  ¬ (0 <= k < Z.of_nat n) → in_bounds k (wrap32 (Z.of_nat n)) = false.
Proof.
  intros Hk. unfold in_bounds. apply andb_false_iff.
  pose proof (wrap32_le (Z.of_nat n) ltac:(lia)).
  destruct (Z.leb_spec 0 k); [right; apply Z.ltb_ge; lia | by left].
Qed.

(** X4. PUSH with a constant index outside the pool, and LOAD_GLOBAL or
    STORE_GLOBAL with a slot outside the global table, are skipped: the
    instruction pointer advances and nothing else changes, no error is
    raised. *)
Theorem out_of_range_operand_is_ignored c vm instr :
  run_inv c vm → running vm = true →
  fetches c (ip vm) [instr] →
  (opcode instr = PUSH ∧
     ¬ (0 <= operand instr < Z.of_nat (length (constants c)))) ∨
  ((opcode instr = LOAD_GLOBAL ∨ opcode instr = STORE_GLOBAL) ∧
     ¬ (0 <= operand instr < Z.of_nat (length (globals vm)))) →
  ∃ vm',
    steps 1 vm = Some vm' ∧
    stack vm' = stack vm ∧ globals vm' = globals vm ∧
    ip vm' = ip vm + 1 ∧ running vm' = true ∧
    callStack vm' = callStack vm ∧ cout vm' = cout vm ∧ cerr vm' = cerr vm.
Proof.
  intros Hinv Hrun Hf Hcase.
  seq_head Hf Hc Hlt.
  seq_step c Hinv Hc g h Hstep Hinv1 Hkeep Hq.
  destruct instr as [op n]. simpl in Hcase.
  unfold dispatch, bind, get. simpl.
  destruct Hcase as [[-> Hn] | [[-> | ->] Hn]];
    rewrite in_bounds_wrap32_false by done;
    (eexists; split; [reflexivity|]; simpl; by split_and!).
Qed.

Lemma out_of_range_operand_is_ignored_witness :
  ∃ vm',
    steps 1 (vm_at (chunk_of [mkInstruction PUSH 1] [Int 5]) 0 []) = Some vm' ∧
    stack vm' = [] ∧ cerr vm' = [].
Proof.
  destruct (out_of_range_operand_is_ignored
              (chunk_of [mkInstruction PUSH 1] [Int 5])
              (vm_at (chunk_of [mkInstruction PUSH 1] [Int 5]) 0 [])
              (mkInstruction PUSH 1))
    as (vm' & Hsteps & Hs & _ & _ & _ & _ & _ & Herr).
  - apply run_inv_b_sound. vm_compute. reflexivity.
  - reflexivity.
  - split; [simpl; lia | reflexivity].
  - left. split; [reflexivity|]. simpl. lia.
  - by exists vm'.
Defined.

Lemma wrap64_neg_neg x : in_int64 x → wrap64 (- wrap64 (- x)) = x.
Proof.
  unfold in_int64. intros Hx.
  destruct (decide (x = - 2 ^ 63)) as [->|Hne]; [reflexivity|].
  rewrite (wrap64_small (- x)) by (unfold in_int64; lia).
  rewrite Z.opp_involutive. apply wrap64_small. unfold in_int64. lia.
Qed.

(** X5. Negating twice gives the integer back, for every 64-bit integer whose
    negation is a 64-bit integer (every one but the smallest). *)
Theorem NEG_NEG_restores c vm l x a b :
  run_inv c vm → running vm = true →
  fetches c (ip vm) [mkInstruction NEG a; mkInstruction NEG b] →
  stack vm = l ++ [Int x] → - 2 ^ 63 < x < 2 ^ 63 →
  ∃ vm',
    steps 2 vm = Some vm' ∧
    stack vm' = l ++ [Int x] ∧ ip vm' = ip vm + 2 ∧ running vm' = true ∧
    cout vm' = cout vm ∧ cerr vm' = cerr vm.
Proof.
  intros Hinv Hrun Hf Hs Hx.
  seq_head Hf Hc1 Hlt1. seq_head Hf Hc2 Hlt2.
  assert (Hneg : ∀ vm0 n z, stack vm0 = l ++ [Int z] →
            dispatch c (mkInstruction NEG n) vm0
            = Some (tt, set_stack (l ++ [Int (wrap64 (- z))]) vm0)).
  { intros vm0 n z Hs0. unfold dispatch, bind. simpl.
    by rewrite (pop_snoc vm0 l (Int z)). }
  seq_step c Hinv Hc1 g h Hstep Hinv1 Hkeep Hq.
  pose proof (Hneg (set_ip (ip vm + 1) (set_gc_heap g h vm)) a x Hs) as Hd.
  rewrite Hd. pose proof (dispatch_inv c _ _ _ _ Hinv1 Hd) as Hinv2.
  seq_step c Hinv2 Hc2 g2 h2 Hstep2 Hinv3 Hkeep2 Hq2.
  erewrite (Hneg _ b) by reflexivity.
  eexists. split; [reflexivity|]. simpl.
  rewrite wrap64_neg_neg by (unfold in_int64; lia).
  split_and!; try done. lia.
Qed.

Lemma NEG_NEG_restores_witness :
  ∃ vm',
    steps 2 (vm_at (chunk_of [mkInstruction NEG 0; mkInstruction NEG 0] []) 0
                   [Int (2 ^ 63 - 1)]) = Some vm' ∧
    stack vm' = [Int (2 ^ 63 - 1)].
Proof.
  destruct (NEG_NEG_restores
              (chunk_of [mkInstruction NEG 0; mkInstruction NEG 0] [])
              (vm_at (chunk_of [mkInstruction NEG 0; mkInstruction NEG 0] []) 0
                     [Int (2 ^ 63 - 1)]) [] (2 ^ 63 - 1) 0 0)
    as (vm' & Hsteps & Hs & _).
  - apply run_inv_b_sound. vm_compute. reflexivity.
  - reflexivity.
  - split; [simpl; lia | reflexivity].
  - reflexivity.
  - unfold in_int64. lia.
  - by exists vm'.
Defined.

(** X6. An arithmetic or comparison opcode whose two operands are not both
    integers does not crash: both operands are popped, the error
    "Operands must be integers" is reported, [Nil] is pushed in place of a
    result and the loop stops. *)
Theorem non_integer_operands_are_rejected c vm instr l u v :
  run_inv c vm → running vm = true →
  fetches c (ip vm) [instr] →
  is_binary (opcode instr) = true →
  stack vm = l ++ [u; v] →
  is_Int u && is_Int v = false →
  ∃ vm',
    steps 1 vm = Some vm' ∧
    stack vm' = l ++ [Nil] ∧
    running vm' = false ∧ loop_guard vm' = false ∧
    cerr vm' = cerr vm ++ ["Runtime Error: Operands must be integers";
                           "  at instruction " +:+ pretty (ip vm + 1)] ∧
    cout vm' = cout vm.
Proof.
  intros Hinv Hrun Hf Hop Hs Hty.
  seq_head Hf Hc Hlt.
  seq_step c Hinv Hc g h Hstep Hinv1 Hkeep Hq.
  assert (Hch : chunk vm = Some c) by (by destruct Hinv).
  destruct instr as [op n]. simpl in Hop.
  assert (Hbin : binaryOp op (set_ip (ip vm + 1) (set_gc_heap g h vm)) =
            (let* _ := runtimeError "Operands must be integers" in ret Nil)
              (set_stack l (set_ip (ip vm + 1) (set_gc_heap g h vm)))).
  { unfold binaryOp. unfold bind at 1.
    rewrite (pop_snoc _ (l ++ [u]) v) by (simpl; by rewrite Hs, <- app_assoc).
    unfold bind at 1. rewrite (pop_snoc _ l u) by done.
    destruct u, v; try done. }
  assert (Hd : dispatch c (mkInstruction op n)
                 (set_ip (ip vm + 1) (set_gc_heap g h vm)) =
               (let* v := binaryOp op in push v)
                 (set_ip (ip vm + 1) (set_gc_heap g h vm))).
  { destruct op; try discriminate Hop; reflexivity. }
  rewrite Hd. unfold bind at 1. rewrite Hbin.
  eexists. split; [reflexivity|]. simpl. split_and!; try done.
  unfold loop_guard. simpl. by rewrite Hch.
Qed.

Lemma non_integer_operands_are_rejected_witness :
  ∃ vm',
    steps 1 (vm_at (chunk_of [mkInstruction ADD 0] []) 0 [Int 1; Bool true])
      = Some vm' ∧
    stack vm' = [Nil] ∧
    cerr vm' = ["Runtime Error: Operands must be integers";
                "  at instruction 1"].
Proof.
  destruct (non_integer_operands_are_rejected
              (chunk_of [mkInstruction ADD 0] [])
              (vm_at (chunk_of [mkInstruction ADD 0] []) 0 [Int 1; Bool true])
              (mkInstruction ADD 0) [] (Int 1) (Bool true))
    as (vm' & Hsteps & Hs & _ & _ & Herr & _).
  - apply run_inv_b_sound. vm_compute. reflexivity.
  - reflexivity.
  - split; [simpl; lia | reflexivity].
  - reflexivity.
  - reflexivity.
  - reflexivity.
  - exists vm'. split_and!; [done | done |]. rewrite Herr. reflexivity.
Defined.

(** X7. NOT twice turns any value into the boolean of its truthiness: [Nil],
    [false], integer zero, the two floating-point zeros and the null
    reference become [false], everything else [true]. No type is rejected. *)
Theorem NOT_NOT_is_truthiness c vm l v a b :
  run_inv c vm → running vm = true →
  fetches c (ip vm) [mkInstruction NOT a; mkInstruction NOT b] →
  stack vm = l ++ [v] →
  ∃ vm',
    steps 2 vm = Some vm' ∧
    stack vm' = l ++ [Bool (isTruthy v)] ∧
    ip vm' = ip vm + 2 ∧ running vm' = true ∧
    cout vm' = cout vm ∧ cerr vm' = cerr vm.
Proof.
  intros Hinv Hrun Hf Hs.
  seq_head Hf Hc1 Hlt1. seq_head Hf Hc2 Hlt2.
  assert (Hnot : ∀ vm0 n w, stack vm0 = l ++ [w] →
            dispatch c (mkInstruction NOT n) vm0
            = Some (tt, set_stack (l ++ [Bool (negb (isTruthy w))]) vm0)).
  { intros vm0 n w Hs0. unfold dispatch, bind. simpl.
    by rewrite (pop_snoc vm0 l w). }
  seq_step c Hinv Hc1 g h Hstep Hinv1 Hkeep Hq.
  pose proof (Hnot (set_ip (ip vm + 1) (set_gc_heap g h vm)) a v Hs) as Hd.
  rewrite Hd. pose proof (dispatch_inv c _ _ _ _ Hinv1 Hd) as Hinv2.
  seq_step c Hinv2 Hc2 g2 h2 Hstep2 Hinv3 Hkeep2 Hq2.
  erewrite (Hnot _ b) by reflexivity.
  eexists. split; [reflexivity|]. simpl. rewrite negb_involutive.
  split_and!; try done. lia.
Qed.

Lemma NOT_NOT_is_truthiness_witness :
  ∃ vm',
    steps 2 (vm_at (chunk_of [mkInstruction NOT 0; mkInstruction NOT 0] []) 0
                   [Int 7]) = Some vm' ∧
    stack vm' = [Bool true].
Proof.
  destruct (NOT_NOT_is_truthiness
              (chunk_of [mkInstruction NOT 0; mkInstruction NOT 0] [])
              (vm_at (chunk_of [mkInstruction NOT 0; mkInstruction NOT 0] []) 0
                     [Int 7]) [] (Int 7) 0 0)
    as (vm' & Hsteps & Hs & _).
  - apply run_inv_b_sound. vm_compute. reflexivity.
  - reflexivity.
  - split; [simpl; lia | reflexivity].
  - reflexivity.
  - by exists vm'.
Defined.

(** * Globals *)

Lemma in_bounds_globals vm c i :
  run_inv c vm → 0 <= i < 256 →
  in_bounds i (wrap32 (Z.of_nat (length (globals vm)))) = true ∧
  (Z.to_nat i <? length (globals vm))%nat = true.
Proof.
  intros (_ & (Hlen & _) & _) Hi. rewrite Hlen. split.
  - unfold in_bounds. apply andb_true_iff.
    split; [apply Z.leb_le | apply Z.ltb_lt; change (wrap32 _) with 256]; lia.
  - apply Nat.ltb_lt. lia.
Qed.

(** X8. A value stored with STORE_GLOBAL is what LOAD_GLOBAL of the same slot
    pushes; LOAD_GLOBAL of another slot pushes what that slot held before.
    The stored value stays on the stack underneath. *)
Theorem STORE_then_LOAD_GLOBAL c vm l v i j :
  run_inv c vm → running vm = true →
  fetches c (ip vm) [mkInstruction STORE_GLOBAL i; mkInstruction LOAD_GLOBAL j] →
  stack vm = l ++ [v] →
  0 <= i < 256 → 0 <= j < 256 →
  ∃ vm' w,
    steps 2 vm = Some vm' ∧
    stack vm' = l ++ [v; w] ∧
    (i = j → w = v) ∧
    (i ≠ j → globals vm !! Z.to_nat j = Some w) ∧
    globals vm' = <[Z.to_nat i := v]> (globals vm) ∧
    ip vm' = ip vm + 2 ∧ running vm' = true ∧
    cout vm' = cout vm ∧ cerr vm' = cerr vm.
Proof.
  intros Hinv Hrun Hf Hs Hi Hj.
  seq_head Hf Hc1 Hlt1. seq_head Hf Hc2 Hlt2.
  seq_step c Hinv Hc1 g h Hstep Hinv1 Hkeep Hq.
  set (vm0 := set_ip _ _) in *.
  assert (Hd : dispatch c (mkInstruction STORE_GLOBAL i) vm0
               = Some (tt, set_globals (<[Z.to_nat i := v]> (globals vm)) vm0)).
  { unfold dispatch, bind, get. simpl.
    destruct (in_bounds_globals vm c i Hinv Hi) as [-> ->].
    by rewrite (peek_snoc vm0 l v). }
  rewrite Hd. pose proof (dispatch_inv c _ _ _ _ Hinv1 Hd) as Hinv2.
  seq_step c Hinv2 Hc2 g2 h2 Hstep2 Hinv3 Hkeep2 Hq2.
  unfold dispatch, bind, get. simpl.
  destruct (in_bounds_globals _ c j Hinv2 Hj) as [Hb _]. simpl in Hb. rewrite Hb.
  assert (Hlen : length (globals vm) = 256%nat) by (by destruct Hinv as (_ & (? & _) & _)).
  destruct (<[Z.to_nat i := v]> (globals vm) !! Z.to_nat j) as [w|] eqn:Hw.
  2: { apply lookup_ge_None in Hw. rewrite length_insert in Hw. lia. }
  eexists _, w. split; [reflexivity|]. simpl. rewrite Hs, <- app_assoc. simpl.
  split_and!; try done.
  - intros <-. rewrite list_lookup_insert_eq in Hw by lia. by injection Hw.
  - intros Hij. rewrite list_lookup_insert_ne in Hw by lia. done.
  - lia.
Qed.

Lemma STORE_then_LOAD_GLOBAL_witness :
  ∃ vm',
    steps 2 (vm_at (chunk_of [mkInstruction STORE_GLOBAL 3;
                              mkInstruction LOAD_GLOBAL 3] []) 0 [Int 9])
      = Some vm' ∧
    stack vm' = [Int 9; Int 9].
Proof.
  destruct (STORE_then_LOAD_GLOBAL
              (chunk_of [mkInstruction STORE_GLOBAL 3;
                         mkInstruction LOAD_GLOBAL 3] [])
              (vm_at (chunk_of [mkInstruction STORE_GLOBAL 3;
                                mkInstruction LOAD_GLOBAL 3] []) 0 [Int 9])
              [] (Int 9) 3 3)
    as (vm' & w & Hsteps & Hs & Hsame & _).
  - apply run_inv_b_sound. vm_compute. reflexivity.
  - reflexivity.
  - split; [simpl; lia | reflexivity].
  - reflexivity.
  - lia.
  - lia.
  - exists vm'. split; [done|]. by rewrite Hs, (Hsame eq_refl).
Defined.

(** * Control flow *)

(** X9. CALL saves the address of the next instruction and jumps; a RET at the
    target comes back to that address and drops the saved entry, leaving
    the return-address stack and the operand stack as before the call. *)
Theorem CALL_then_RET_returns c vm t r :
  run_inv c vm → running vm = true →
  fetches c (ip vm) [mkInstruction CALL t] →
  fetches c t [mkInstruction RET r] →
  t < 2 ^ 31 →
  ∃ vm',
    steps 2 vm = Some vm' ∧
    ip vm' = ip vm + 1 ∧
    callStack vm' = callStack vm ∧ stack vm' = stack vm ∧
    globals vm' = globals vm ∧ running vm' = true ∧
    cout vm' = cout vm ∧ cerr vm' = cerr vm.
Proof.
  intros Hinv Hrun Hf Hft Hint.
  assert (Ht : to_size_t t = t).
  { destruct Hft as [Hft _]. unfold to_size_t. apply Z.mod_small. lia. }
  seq_head Hf Hc1 Hlt1. seq_head Hft Hc2 Hlt2.
  seq_step c Hinv Hc1 g h Hstep Hinv1 Hkeep Hq.
  set (vm0 := set_ip _ _) in *.
  assert (Hd : dispatch c (mkInstruction CALL t) vm0
               = Some (tt, set_ip t (set_callStack (callStack vm ++ [ip vm + 1]) vm0))).
  { unfold dispatch, bind, modify. simpl. by rewrite Ht. }
  rewrite Hd. pose proof (dispatch_inv c _ _ _ _ Hinv1 Hd) as Hinv2.
  seq_step c Hinv2 Hc2 g2 h2 Hstep2 Hinv3 Hkeep2 Hq2.
  unfold dispatch, bind, get, modify. simpl. rewrite pop_back_snoc. simpl.
  eexists. split; [reflexivity|]. simpl. by split_and!.
Qed.

Lemma CALL_then_RET_returns_witness :
  ∃ vm',
    steps 2 (vm_at (chunk_of [mkInstruction CALL 2; mkInstruction HALT 0;
                              mkInstruction RET 0] []) 0 [Int 1]) = Some vm' ∧
    ip vm' = 1 ∧ callStack vm' = [].
Proof.
  destruct (CALL_then_RET_returns
              (chunk_of [mkInstruction CALL 2; mkInstruction HALT 0;
                         mkInstruction RET 0] [])
              (vm_at (chunk_of [mkInstruction CALL 2; mkInstruction HALT 0;
                                mkInstruction RET 0] []) 0 [Int 1]) 2 0)
    as (vm' & Hsteps & Hip & Hcs & _).
  - apply run_inv_b_sound. vm_compute. reflexivity.
  - reflexivity.
  - split; [simpl; lia | reflexivity].
  - split; [lia | reflexivity].
  - lia.
  - by exists vm'.
Defined.


(** * Arrays *)

Lemma in_bounds_true i n : 0 <= i < n → in_bounds i n = true.
Proof.
  intros Hi. unfold in_bounds. apply andb_true_iff.
  split; [apply Z.leb_le | apply Z.ltb_lt]; lia.
Qed.

Lemma in_bounds_false i n : ¬ (0 <= i < n) → in_bounds i n = false.
Proof.
  intros Hi. unfold in_bounds. apply andb_false_iff.
  destruct (Z.leb_spec 0 i); [right; apply Z.ltb_ge; lia | by left].
Qed.

Lemma deref_live vm p o :
  p ≠ nullptr → heap vm !! p = Some o → deref p vm = Some (o, vm).
Proof.
  intros Hp Ho. unfold deref. apply N.eqb_neq in Hp. by rewrite Hp, Ho.
Qed.

Lemma referenced_on_stack l r (gl : list Value) p :
  p ≠ nullptr → Obj p ∈ r → referenced ((l ++ r) ++ gl) p.
Proof.
  intros Hp Hin. split; [done|].
  apply elem_of_app. left. apply elem_of_app. by right.
Qed.

(** X10. An element written with ARRAY_SET is what ARRAY_GET reads back at the
    same index, and ARRAY_GET at another index reads what was there before;
    a collection running in between does not disturb the array. *)
Theorem ARRAY_SET_then_GET c vm l p els i x j a b :
  run_inv c vm → running vm = true →
  fetches c (ip vm) [mkInstruction ARRAY_SET a; mkInstruction ARRAY_GET b] →
  stack vm = l ++ [Obj p; Int j; Obj p; Int i; Int x] →
  p ≠ nullptr →
  payload <$> heap vm !! p = Some (ArrayObject els) →
  0 <= i < Z.of_nat (length els) → 0 <= j < Z.of_nat (length els) →
  ∃ vm' w,
    steps 2 vm = Some vm' ∧
    stack vm' = l ++ [Int w] ∧
    (i = j → w = x) ∧
    (i ≠ j → els !! Z.to_nat j = Some w) ∧
    payload <$> heap vm' !! p = Some (ArrayObject (<[Z.to_nat i := x]> els)) ∧
    ip vm' = ip vm + 2 ∧ running vm' = true ∧
    cout vm' = cout vm ∧ cerr vm' = cerr vm.
Proof.
  intros Hinv Hrun Hf Hs Hp Hpay Hi Hj.
  seq_head Hf Hc1 Hlt1. seq_head Hf Hc2 Hlt2.
  destruct (heap vm !! p) as [o|] eqn:Ho; [|done].
  simpl in Hpay. injection Hpay as Hpay.
  seq_step_quiet c Hinv Hc1 g h Hstep Hinv1 Hkeep Hsame Hquiet.
  destruct (Hkeep p o) as (o1 & Ho1 & Hpay1); [|done|].
  { rewrite Hs. apply (referenced_on_stack l); [done|]. by left. }
  rewrite Hpay in Hpay1.
  set (vm0 := set_ip _ _) in *.
  set (h1 := <[p := mkObject (ArrayObject (<[Z.to_nat i := x]> els)) (marked o1)]> h).
  assert (Hd : dispatch c (mkInstruction ARRAY_SET a) vm0
               = Some (tt, set_heap h1 (set_stack (l ++ [Obj p; Int j]) vm0))).
  { unfold dispatch, bind. simpl.
    rewrite (pop_snoc vm0 (l ++ [Obj p; Int j; Obj p; Int i]) (Int x))
      by (simpl; by rewrite Hs, <- app_assoc).
    rewrite (pop_snoc _ (l ++ [Obj p; Int j; Obj p]) (Int i))
      by (simpl; by rewrite <- app_assoc).
    rewrite (pop_snoc _ (l ++ [Obj p; Int j]) (Obj p))
      by (simpl; by rewrite <- app_assoc).
    rewrite (deref_live _ p o1) by done.
    rewrite Hpay1, in_bounds_true by done. reflexivity. }
  rewrite Hd. pose proof (dispatch_inv c _ _ _ _ Hinv1 Hd) as Hinv2.
  seq_step_quiet c Hinv2 Hc2 g2 h2 Hstep2 Hinv3 Hkeep2 Hsame2 Hquiet2.
  destruct (Hsame2 Hquiet) as [-> ->].
  unfold dispatch, bind. simpl.
  erewrite (pop_snoc _ (l ++ [Obj p]) (Int j))
    by (simpl; by rewrite <- app_assoc).
  erewrite (pop_snoc _ l (Obj p)) by reflexivity.
  erewrite (deref_live _ p) by (first [done | apply lookup_insert_eq]).
  simpl. rewrite length_insert, in_bounds_true by done.
  destruct (<[Z.to_nat i := x]> els !! Z.to_nat j) as [w|] eqn:Hw.
  2: { apply lookup_ge_None in Hw. rewrite length_insert in Hw. lia. }
  eexists _, w. split; [reflexivity|]. simpl. split_and!; try done.
  - intros <-. rewrite list_lookup_insert_eq in Hw by lia. by injection Hw.
  - intros Hij. rewrite list_lookup_insert_ne in Hw by lia. done.
  - unfold h1. by rewrite lookup_insert_eq.
  - lia.
Qed.

Lemma ARRAY_SET_then_GET_witness :
  ∃ vm',
    steps 2 (vm_with_array
               (chunk_of [mkInstruction ARRAY_SET 0; mkInstruction ARRAY_GET 0] [])
               0 [0; 0; 0]
               [Obj 1%N; Int 2; Obj 1%N; Int 2; Int 42]) = Some vm' ∧
    stack vm' = [Int 42].
Proof.
  destruct (ARRAY_SET_then_GET
              (chunk_of [mkInstruction ARRAY_SET 0; mkInstruction ARRAY_GET 0] [])
              (vm_with_array
                 (chunk_of [mkInstruction ARRAY_SET 0; mkInstruction ARRAY_GET 0] [])
                 0 [0; 0; 0] [Obj 1%N; Int 2; Obj 1%N; Int 2; Int 42])
              [] 1%N [0; 0; 0] 2 42 2 0 0)
    as (vm' & w & Hsteps & Hs & Hsame & _).
  - apply run_inv_b_sound. vm_compute. reflexivity.
  - reflexivity.
  - split; [simpl; lia | reflexivity].
  - reflexivity.
  - done.
  - reflexivity.
  - simpl. lia.
  - simpl. lia.
  - exists vm'. split; [done|]. by rewrite Hs, (Hsame eq_refl).
Defined.

(** X11. NEW_ARRAY with a size [n >= 0] allocates a zero-filled array of [n]
    elements at a non-null address that no root referred to, registers it
    with the collector and pushes its reference; ARRAY_LEN right after it
    replaces the reference by [n], even if a collection runs in between. *)
Theorem NEW_ARRAY_then_ARRAY_LEN c vm n b :
  run_inv c vm → running vm = true →
  fetches c (ip vm) [mkInstruction NEW_ARRAY n; mkInstruction ARRAY_LEN b] →
  0 <= n →
  ∃ vm1 vm2 p,
    steps 1 vm = Some vm1 ∧
    stack vm1 = stack vm ++ [Obj p] ∧
    p ≠ nullptr ∧ ¬ referenced (stack vm ++ globals vm) p ∧
    heap vm1 !! p = Some (mkObject (ArrayObject (replicate (Z.to_nat n) 0)) false) ∧
    p ∈ objects (gc vm1) ∧
    steps 2 vm = Some vm2 ∧
    stack vm2 = stack vm ++ [Int n] ∧
    ip vm2 = ip vm + 2 ∧ running vm2 = true ∧
    globals vm2 = globals vm ∧ cout vm2 = cout vm ∧ cerr vm2 = cerr vm.
Proof.
  intros Hinv Hrun Hf Hn.
  seq_head Hf Hc1 Hlt1. seq_head Hf Hc2 Hlt2.
  pose proof (step_spec c vm _ Hinv Hc1) as (g & h & Hstep & Hinv1 & Hkeep & _).
  set (vm0 := set_ip _ _) in *.
  set (p := fresh_ptr h).
  destruct (fresh_ptr_fresh h) as [Hp Hfresh]. fold p in Hp, Hfresh.
  set (vm1 := set_stack (stack vm ++ [Obj p])
                (set_gc_heap (mkGC (objects g ++ [p]) (nextGC g) (threshold g))
                             (<[p := new_ArrayObject (Z.to_nat n)]> h) vm0)).
  assert (Hd : dispatch c (mkInstruction NEW_ARRAY n) vm0 = Some (tt, vm1)).
  { unfold dispatch. simpl.
    destruct (Z.ltb_spec n 0) as [|_]; [lia|]. reflexivity. }
  pose proof (dispatch_inv c _ _ _ _ Hinv1 Hd) as Hinv2.
  assert (H1 : steps 1 vm = Some vm1).
  { cbn [steps]. rewrite (guard_of_inv c _ Hinv) by done. by rewrite Hstep, Hd. }
  change 2%nat with (1 + 1)%nat. rewrite (steps_app 1 1 _ _ H1), H1.
  seq_step c Hinv2 Hc2 g2 h2 Hstep2 Hinv3 Hkeep2 Hq2.
  destruct (Hkeep2 p (new_ArrayObject (Z.to_nat n))) as (o2 & Ho2 & Hpay2).
  { apply (referenced_on_stack (stack vm)); [done | by left]. }
  { apply lookup_insert_eq. }
  unfold dispatch, bind. simpl.
  erewrite (pop_snoc _ (stack vm) (Obj p)) by reflexivity.
  erewrite (deref_live _ p o2) by done.
  rewrite Hpay2. simpl.
  eexists vm1, _, p. split; [reflexivity|]. simpl. split_and!; try done.
  - intros Hr. destruct Hinv as (_ & (_ & _ & _ & Hroots) & _).
    destruct (Hroots p (proj2 Hr)) as [?|[o Ho]]; [done|].
    destruct (Hkeep p o Hr Ho) as (o' & Ho' & _). by rewrite Hfresh in Ho'.
  - apply lookup_insert_eq.
  - apply elem_of_app. right. by left.
  - rewrite length_replicate. by rewrite Z2Nat.id.
  - simpl. lia.
Qed.

Lemma NEW_ARRAY_then_ARRAY_LEN_witness :
  ∃ vm2,
    steps 2 (vm_at (chunk_of [mkInstruction NEW_ARRAY 5;
                              mkInstruction ARRAY_LEN 0] []) 0 []) = Some vm2 ∧
    stack vm2 = [Int 5].
Proof.
  destruct (NEW_ARRAY_then_ARRAY_LEN
              (chunk_of [mkInstruction NEW_ARRAY 5; mkInstruction ARRAY_LEN 0] [])
              (vm_at (chunk_of [mkInstruction NEW_ARRAY 5;
                                mkInstruction ARRAY_LEN 0] []) 0 []) 5 0)
    as (vm1 & vm2 & p & _ & _ & _ & _ & _ & _ & Hsteps & Hs & _).
  - apply run_inv_b_sound. vm_compute. reflexivity.
  - reflexivity.
  - split; [simpl; lia | reflexivity].
  - lia.
  - by exists vm2.
Defined.

(** X12. An array access outside [0, length) never touches the store: ARRAY_GET
    and ARRAY_SET pop their operands, report "Array index out of bounds",
    push nothing, leave the array as it was and stop the loop. *)
Theorem array_index_out_of_bounds c vm instr l p els j x :
  run_inv c vm → running vm = true →
  fetches c (ip vm) [instr] →
  (opcode instr = ARRAY_GET ∧ stack vm = l ++ [Obj p; Int j]) ∨
  (opcode instr = ARRAY_SET ∧ stack vm = l ++ [Obj p; Int j; Int x]) →
  p ≠ nullptr →
  payload <$> heap vm !! p = Some (ArrayObject els) →
  ¬ (0 <= j < Z.of_nat (length els)) →
  ∃ vm',
    steps 1 vm = Some vm' ∧
    stack vm' = l ∧
    payload <$> heap vm' !! p = Some (ArrayObject els) ∧
    running vm' = false ∧ loop_guard vm' = false ∧
    cerr vm' = cerr vm ++ ["Runtime Error: Array index out of bounds";
                           "  at instruction " +:+ pretty (ip vm + 1)] ∧
    cout vm' = cout vm.
Proof.
  intros Hinv Hrun Hf Hcase Hp Hpay Hj.
  seq_head Hf Hc Hlt.
  destruct (heap vm !! p) as [o|] eqn:Ho; [|done].
  simpl in Hpay. injection Hpay as Hpay.
  assert (Hch : chunk vm = Some c) by (by destruct Hinv).
  seq_step c Hinv Hc g h Hstep Hinv1 Hkeep Hq.
  destruct (Hkeep p o) as (o1 & Ho1 & Hpay1); [|done|].
  { destruct Hcase as [[_ Hs]|[_ Hs]]; rewrite Hs;
      (apply (referenced_on_stack l); [done | by left]). }
  rewrite Hpay in Hpay1.
  destruct instr as [op n]. simpl in Hcase.
  destruct Hcase as [[-> Hs]|[-> Hs]]; unfold dispatch, bind; simpl.
  - rewrite (pop_snoc _ (l ++ [Obj p]) (Int j))
      by (simpl; by rewrite Hs, <- app_assoc).
    rewrite (pop_snoc _ l (Obj p)) by done.
    rewrite (deref_live _ p o1) by done.
    rewrite Hpay1, in_bounds_false by done.
    eexists. split; [reflexivity|]. simpl. rewrite Ho1. simpl. rewrite Hpay1.
    split_and!; try done. unfold loop_guard. simpl. by rewrite Hch.
  - rewrite (pop_snoc _ (l ++ [Obj p; Int j]) (Int x))
      by (simpl; by rewrite Hs, <- app_assoc).
    rewrite (pop_snoc _ (l ++ [Obj p]) (Int j))
      by (simpl; by rewrite <- app_assoc).
    rewrite (pop_snoc _ l (Obj p)) by done.
    rewrite (deref_live _ p o1) by done.
    rewrite Hpay1, in_bounds_false by done.
    eexists. split; [reflexivity|]. simpl. rewrite Ho1. simpl. rewrite Hpay1.
    split_and!; try done. unfold loop_guard. simpl. by rewrite Hch.
Qed.

Lemma array_index_out_of_bounds_witness :
  ∃ vm',
    steps 1 (vm_with_array (chunk_of [mkInstruction ARRAY_SET 0] []) 0 [0; 0; 0]
                           [Obj 1%N; Int 3; Int 42]) = Some vm' ∧
    stack vm' = [] ∧
    cerr vm' = ["Runtime Error: Array index out of bounds";
                "  at instruction 1"].
Proof.
  destruct (array_index_out_of_bounds
              (chunk_of [mkInstruction ARRAY_SET 0] [])
              (vm_with_array (chunk_of [mkInstruction ARRAY_SET 0] []) 0 [0; 0; 0]
                             [Obj 1%N; Int 3; Int 42])
              (mkInstruction ARRAY_SET 0) [] 1%N [0; 0; 0] 3 42)
    as (vm' & Hsteps & Hs & _ & _ & _ & Herr & _).
  - apply run_inv_b_sound. vm_compute. reflexivity.
  - reflexivity.
  - split; [simpl; lia | reflexivity].
  - right. by split.
  - done.
  - reflexivity.
  - simpl. lia.
  - exists vm'. split_and!; [done | done |]. rewrite Herr. reflexivity.
Defined.

(** X13. NEW_ARRAY with a negative size has no successor: the conversion to an
    unsigned size makes the vector constructor throw, nothing in [execute]
    catches it, and the run is aborted. *)
Theorem NEW_ARRAY_negative_aborts c vm n fuel :
  run_inv c vm → running vm = true →
  fetches c (ip vm) [mkInstruction NEW_ARRAY n] →
  n < 0 →
  steps 1 vm = None ∧ run (S fuel) vm = Crashed.
Proof.
  intros Hinv Hrun Hf Hn.
  seq_head Hf Hc Hlt.
  destruct (step_spec c _ _ Hinv Hc) as (g & h & Hstep & _).
  assert (Hd : step vm = None).
  { rewrite Hstep. unfold dispatch. simpl.
    by destruct (Z.ltb_spec n 0) as [_|]; [|lia]. }
  cbn [steps run]. rewrite (guard_of_inv c _ Hinv) by done. by rewrite Hd.
Qed.

Lemma NEW_ARRAY_negative_aborts_witness :
  execute 5 (chunk_of [mkInstruction NEW_ARRAY (-1)] []) fresh_VM = Crashed.
Proof.
  destruct (NEW_ARRAY_negative_aborts
              (chunk_of [mkInstruction NEW_ARRAY (-1)] [])
              (execute_begin (chunk_of [mkInstruction NEW_ARRAY (-1)] []) fresh_VM)
              (-1) 4) as [_ Hrun].
  - apply run_inv_b_sound. vm_compute. reflexivity.
  - reflexivity.
  - split; [simpl; lia | reflexivity].
  - lia.
  - unfold execute. by rewrite Hrun.
Defined.

(** * What an instruction leaves alone *)

Section Frame.

(** [K] is a property of the chunk pointer and, unless [ip_free] holds, of
    the instruction pointer. *)
Variable K : VM → Prop.
Variable ip_free : Prop.
Hypothesis HK :
  ∀ vm vm', chunk vm' = chunk vm → ip vm' = ip vm ∨ ip_free → K vm → K vm'.

Definition keeps {A} (m : M A) : Prop := triple K m (fun _ => K).

Lemma keeps_ret {A} (a : A) : keeps (ret a).
Proof. by apply triple_ret. Qed.

Lemma keeps_undefined {A} : keeps (@undefined A).
Proof. apply triple_undefined. Qed.

Lemma keeps_bind {A B} (m : M A) (k : A → M B) :
  keeps m → (∀ a, keeps (k a)) → keeps (bind m k).
Proof. intros Hm Hk. eapply triple_bind; [exact Hm | exact Hk]. Qed.

Lemma keeps_get {A} (f : VM → A) : keeps (get f).
Proof. by apply triple_get. Qed.

Lemma keeps_modify (f : VM → VM) :
  (∀ vm, chunk (f vm) = chunk vm ∧ ip (f vm) = ip vm) → keeps (modify f).
Proof.
  intros Hf. apply triple_modify. intros vm HKvm.
  destruct (Hf vm) as [Hc Hi]. apply (HK vm); [done | by left | done].
Qed.

Lemma keeps_jump (f : VM → VM) :
  ip_free → (∀ vm, chunk (f vm) = chunk vm) → keeps (modify f).
Proof.
  intros Hfree Hf. apply triple_modify. intros vm HKvm.
  apply (HK vm); [apply Hf | by right | done].
Qed.

Lemma keeps_push v : keeps (push v).
Proof. apply keeps_modify. by intros []. Qed.

Lemma keeps_runtimeError msg : keeps (runtimeError msg).
Proof. apply keeps_modify. by intros []. Qed.

Lemma keeps_pop : keeps pop.
Proof.
  unfold pop. apply keeps_bind; [apply keeps_get|]. intros s.
  destruct (pop_back s) as [[s' v]|].
  - apply keeps_bind; [apply keeps_modify; by intros [] | intros; apply keeps_ret].
  - apply keeps_bind; [apply keeps_runtimeError | intros; apply keeps_ret].
Qed.

Lemma keeps_deref p : keeps (deref p).
Proof.
  intros vm o vm' HKvm. unfold deref.
  destruct (p =? nullptr)%N; [done|].
  destruct (heap vm !! p); [by intros [= <- <-] | done].
Qed.

Lemma keeps_allocate o :
  keeps (fun vm => let '(p, g, h) := allocate o (gc vm) (heap vm) in
                   Some (p, set_gc_heap g h vm)).
Proof.
  intros vm p vm' HKvm.
  destruct (allocate o (gc vm) (heap vm)) as [[p' g] h]. intros [= <- <-].
  apply (HK vm); [done | by left | done].
Qed.

Ltac keeps_tac :=
  repeat first
    [ apply keeps_ret | apply keeps_undefined | apply keeps_pop
    | apply keeps_push | apply keeps_runtimeError | apply keeps_deref
    | apply keeps_get | apply keeps_allocate
    | (apply keeps_modify; by intros [])
    | (apply keeps_bind; [|intros ?])
    | match goal with
      | |- keeps (match ?x with _ => _ end) => destruct x
      end ].

Lemma keeps_binaryOp op : keeps (binaryOp op).
Proof. unfold binaryOp. keeps_tac. Qed.

(** The switch keeps [K], for every opcode if [K] ignores the instruction
    pointer and for the opcodes that do not assign it otherwise. *)
Lemma keeps_dispatch c instr :
  is_control (opcode instr) = false ∨ ip_free → keeps (dispatch c instr).
Proof.
  intros Hctl. unfold dispatch.
  destruct (opcode instr) eqn:Hop;
    try (apply keeps_bind; [apply keeps_binaryOp | intros ?; apply keeps_push]);
    try (destruct Hctl as [Hctl|Hfree]; [discriminate Hctl|]);
    try (by keeps_tac).
  - (* JMP *) by apply keeps_jump.
  - (* JMP_IF_FALSE *)
    apply keeps_bind; [apply keeps_get|]. intros v.
    destruct (negb _); [by apply keeps_jump | apply keeps_ret].
  - (* JMP_IF_TRUE *)
    apply keeps_bind; [apply keeps_get|]. intros v.
    destruct (isTruthy _); [by apply keeps_jump | apply keeps_ret].
  - (* CALL *)
    apply keeps_bind; [apply keeps_modify; by intros [] | intros ?].
    by apply keeps_jump.
  - (* RET *)
    apply keeps_bind; [apply keeps_get|]. intros cs.
    destruct (pop_back cs) as [[cs' addr]|]; [|apply keeps_modify; by intros []].
    apply keeps_bind; [by apply keeps_jump | intros ?].
    apply keeps_modify; by intros [].
Qed.

Lemma keeps_maybe_collect : keeps maybe_collect.
Proof.
  intros vm [] vm' HKvm. unfold maybe_collect.
  destruct (shouldCollect (gc vm)); [|by intros [= <-]].
  destruct (collect _ _ _ _) as [[g h]|]; [|done]. intros [= <-].
  apply (HK vm); [done | by left | done].
Qed.

End Frame.

Section StepFrame.

(** No loop iteration changes which chunk the machine runs. *)
Lemma step_chunk vm vm' : step vm = Some (tt, vm') → chunk vm' = chunk vm.
Proof.
  unfold step. destruct (chunk vm) as [c|] eqn:Hc; [|done].
  set (K := fun v : VM => chunk v = Some c).
  assert (HK : ∀ v v', chunk v' = chunk v → ip v' = ip v ∨ True → K v → K v').
  { unfold K. intros v v' -> _. done. }
  assert (Hbody : keeps K
            (let* _ := maybe_collect in
             let* i := get ip in
             match code c !! Z.to_nat i with
             | Some instr => let* _ := modify (set_ip (i + 1)) in dispatch c instr
             | None => undefined
             end)).
  { apply keeps_bind; [by eapply keeps_maybe_collect | intros _].
    apply keeps_bind; [by eapply keeps_get | intros i].
    destruct (code c !! Z.to_nat i); [|apply keeps_undefined].
    apply keeps_bind; [by eapply keeps_jump | intros _].
    eapply keeps_dispatch; [exact HK | by right]. }
  intros Hs. by apply (Hbody vm tt vm').
Qed.

(** An iteration whose opcode is not a jump, call or return moves the
    instruction pointer to the next instruction. *)
Lemma step_ip_next c vm vm' instr :
  chunk vm = Some c → code c !! Z.to_nat (ip vm) = Some instr →
  is_control (opcode instr) = false →
  step vm = Some (tt, vm') → ip vm' = ip vm + 1.
Proof.
  intros Hc Hi Hctl. unfold step. rewrite Hc. unfold bind at 1.
  destruct (maybe_collect vm) as [[[] vm1]|] eqn:Hmc; [|done].
  assert (Hip1 : ip vm1 = ip vm).
  { apply (keeps_maybe_collect (fun v => ip v = ip vm) False) with vm tt;
      [|done..].
    intros v v' _ [->|[]]. done. }
  unfold bind at 1, get. rewrite Hip1, Hi. unfold bind at 1, modify.
  apply (keeps_dispatch (fun v => ip v = ip vm + 1) False).
  - intros v v' _ [->|[]]. done.
  - by left.
  - done.
Qed.

Lemma run_chunk fuel vm vm' : run fuel vm = Done vm' → chunk vm' = chunk vm.
Proof.
  revert vm. induction fuel as [|fuel IH]; intros vm; simpl.
  - destruct (loop_guard vm); [done | by intros [= <-]].
  - destruct (loop_guard vm); [|by intros [= <-]].
    destruct (step vm) as [[[] vm1]|] eqn:Hs; [|done].
    intros Hr. rewrite (IH _ Hr). by apply step_chunk.
Qed.

Lemma run_done_guard fuel vm vm' : run fuel vm = Done vm' → loop_guard vm' = false.
Proof.
  revert vm. induction fuel as [|fuel IH]; intros vm; simpl.
  - destruct (loop_guard vm) eqn:Hg; [done | by intros [= <-]].
  - destruct (loop_guard vm) eqn:Hg; [|by intros [= <-]].
    destruct (step vm) as [[[] vm1]|]; [apply IH | done].
Qed.

End StepFrame.

(** * Whole runs *)

(** X14. [execute] hands back the chunk it was given, and its answer is [true]
    exactly when the loop stopped with the instruction pointer at or past the
    end of the code: whether the loop stopped on an error plays no part. In
    particular a run that is still [running] at the end answers [true]. *)
Theorem execute_answers_by_final_ip fuel c vm b vm' :
  execute fuel c vm = Done (b, vm') →
  chunk vm' = Some c ∧
  (b = true ↔ Z.of_nat (length (code c)) <= ip vm') ∧
  (running vm' = true → b = true).
Proof.
  unfold execute.
  destruct (run fuel (execute_begin c vm)) as [vm1| |] eqn:Hr; [|done..].
  intros [= <- <-].
  pose proof (run_chunk _ _ _ Hr) as Hc. simpl in Hc.
  pose proof (run_done_guard _ _ _ Hr) as Hg.
  unfold loop_guard in Hg. rewrite Hc in Hg. unfold execute_result.
  split; [done|].
  destruct (running vm1); simpl in *.
  - apply Z.ltb_ge in Hg. split; [|done].
    split; [done|]. intros _. done.
  - split; [|done]. by rewrite Z.leb_le.
Qed.

Lemma execute_answers_by_final_ip_witness :
  ∃ b vm', execute 5 pop_on_empty fresh_VM = Done (b, vm') ∧
           chunk vm' = Some pop_on_empty ∧
           (b = true ↔ Z.of_nat (length (code pop_on_empty)) <= ip vm').
Proof.
  destruct (execute 5 pop_on_empty fresh_VM) as [[b vm']| |] eqn:He;
    [|by vm_compute in He..].
  destruct (execute_answers_by_final_ip 5 pop_on_empty fresh_VM b vm' He)
    as (Hc & Hb & _).
  by exists b, vm'.
Defined.

Section StraightLine.

Lemma run_straight_line c fuel vm :
  straight_line c → chunk vm = Some c →
  0 <= ip vm <= Z.of_nat (length (code c)) →
  Z.of_nat (length (code c)) - ip vm <= Z.of_nat fuel →
  run fuel vm = Crashed ∨
  ∃ vm', run fuel vm = Done vm' ∧
         ip vm <= ip vm' <= Z.of_nat (length (code c)).
Proof.
  intros Hsl. revert vm.
  induction fuel as [|fuel IH]; intros vm Hc Hip Hfuel; simpl;
    destruct (loop_guard vm) eqn:Hg; try (right; exists vm; split; [done|lia]).
  - unfold loop_guard in Hg. rewrite Hc in Hg.
    apply andb_true_iff in Hg as [_ Hlt%Z.ltb_lt]. lia.
  - unfold loop_guard in Hg. rewrite Hc in Hg.
    apply andb_true_iff in Hg as [_ Hlt%Z.ltb_lt].
    destruct (step vm) as [[[] vm1]|] eqn:Hs; [|by left].
    destruct (lookup_lt_is_Some_2 (code c) (Z.to_nat (ip vm))) as [instr Hi];
      [lia|].
    assert (Hctl : is_control (opcode instr) = false).
    { by apply (proj1 (Forall_lookup _ _) Hsl (Z.to_nat (ip vm))). }
    pose proof (step_ip_next c vm vm1 instr Hc Hi Hctl Hs) as Hnext.
    pose proof (step_chunk vm vm1 Hs) as Hc1. rewrite Hc in Hc1.
    destruct (IH vm1 Hc1) as [Hcr|(vm' & Hr & Hb)]; [lia | lia | by left |].
    right. exists vm'. split; [done | lia].
Qed.

End StraightLine.

(** X15. A program without JMP, JMP_IF_FALSE, JMP_IF_TRUE, CALL and RET cannot
    loop: given at least as many iterations as it has instructions, [execute]
    comes to an end, and when it returns the instruction pointer is within
    the code or just past its end, never beyond. *)
Theorem straight_line_terminates c vm fuel :
  straight_line c → (length (code c) <= fuel)%nat →
  execute fuel c vm = Crashed ∨
  ∃ b vm', execute fuel c vm = Done (b, vm') ∧
           0 <= ip vm' <= Z.of_nat (length (code c)) ∧
           (b = true ↔ ip vm' = Z.of_nat (length (code c))).
Proof.
  intros Hsl Hfuel.
  destruct (run_straight_line c fuel (execute_begin c vm) Hsl eq_refl)
    as [Hcr|(vm' & Hr & Hb)]; simpl; [lia | lia | |].
  - left. unfold execute. by rewrite Hcr.
  - right. simpl in Hb.
    assert (He : execute fuel c vm = Done (execute_result c vm', vm')).
    { unfold execute. by rewrite Hr. }
    exists (execute_result c vm'), vm'. split; [done|]. split; [done|].
    assert (Hc : chunk vm' = Some c) by (by rewrite (run_chunk _ _ _ Hr)).
    rewrite (execute_true_iff fuel c vm vm' _ He Hc). lia.
Qed.

Lemma straight_line_terminates_witness :
  ∃ b vm', execute 4 (print_program ADD 2 3) fresh_VM = Done (b, vm') ∧
           (b = true ↔ ip vm' = Z.of_nat (length (code (print_program ADD 2 3)))).
Proof.
  destruct (straight_line_terminates (print_program ADD 2 3) fresh_VM 4)
    as [Hcr|(b & vm' & He & _ & Hb)].
  - unfold straight_line. simpl. repeat constructor.
  - simpl. lia.
  - by vm_compute in Hcr.
  - by exists b, vm'.
Defined.

(** * Jumps *)

(** X16. A JMP whose target, read as the unsigned 64-bit number the instruction
    pointer holds, lies at or past the end of the code is not an error: the
    iteration completes without a diagnostic, the machine is still
    [running], the loop ends there, and [execute] would answer [true]. *)
Theorem jump_past_the_end_ends_the_run c vm t :
  run_inv c vm → running vm = true →
  fetches c (ip vm) [mkInstruction JMP t] →
  Z.of_nat (length (code c)) <= to_size_t t →
  ∃ vm',
    steps 1 vm = Some vm' ∧
    (∀ fuel, run (S fuel) vm = Done vm') ∧
    ip vm' = to_size_t t ∧
    running vm' = true ∧
    execute_result c vm' = true ∧
    stack vm' = stack vm ∧ globals vm' = globals vm ∧
    cerr vm' = cerr vm ∧ cout vm' = cout vm.
Proof.
  intros Hinv Hrun Hf Ht.
  seq_head Hf Hc Hlt.
  assert (Hch : chunk vm = Some c) by (by destruct Hinv).
  assert (Hone : ∃ vm', steps 1 vm = Some vm' ∧ chunk vm' = Some c ∧
            ip vm' = to_size_t t ∧ running vm' = true ∧
            stack vm' = stack vm ∧ globals vm' = globals vm ∧
            cerr vm' = cerr vm ∧ cout vm' = cout vm).
  { seq_step c Hinv Hc g h Hstep Hinv1 Hkeep Hq.
    eexists. split; [reflexivity|]. simpl. by rewrite Hch, Hrun. }
  destruct Hone as (vm' & Hsteps & Hch' & Hip & Hrun' & Hrest).
  assert (Hg : loop_guard vm' = false).
  { unfold loop_guard. rewrite Hch', Hrun', Hip. simpl. apply Z.ltb_ge. lia. }
  exists vm'. split_and!; try tauto.
  - intros fuel. change (S fuel) with (1 + fuel)%nat.
    rewrite (steps_run 1 fuel vm vm' Hsteps). by apply run_done.
  - unfold execute_result. rewrite Hrun'. done.
Qed.

Lemma jump_past_the_end_ends_the_run_witness :
  ∃ vm',
    run 3 (vm_at (chunk_of [mkInstruction JMP (-1); mkInstruction PRINT 0] [])
                 0 [Int 1]) = Done vm' ∧
    ip vm' = 2 ^ 64 - 1 ∧ cout vm' = [] ∧ cerr vm' = [].
Proof.
  destruct (jump_past_the_end_ends_the_run
              (chunk_of [mkInstruction JMP (-1); mkInstruction PRINT 0] [])
              (vm_at (chunk_of [mkInstruction JMP (-1); mkInstruction PRINT 0] [])
                     0 [Int 1]) (-1))
    as (vm' & _ & Hr & Hip & _ & _ & _ & _ & Herr & Hout).
  - apply run_inv_b_sound. vm_compute. reflexivity.
  - reflexivity.
  - split; [simpl; lia | reflexivity].
  - vm_compute. discriminate.
  - exists vm'. split_and!; [apply Hr | done | done | done].
Defined.

(** X17. JMP_IF_FALSE and JMP_IF_TRUE read the condition without popping it: the
    operand stack is the same after the instruction, whichever way it goes.
    JMP_IF_TRUE jumps exactly when the top value is truthy, JMP_IF_FALSE
    exactly when it is not; otherwise control falls through to the next
    instruction. *)
Theorem conditional_jumps_keep_the_condition c vm op t l v :
  run_inv c vm → running vm = true →
  fetches c (ip vm) [mkInstruction op t] →
  op = JMP_IF_FALSE ∨ op = JMP_IF_TRUE →
  stack vm = l ++ [v] →
  ∃ vm',
    steps 1 vm = Some vm' ∧
    stack vm' = l ++ [v] ∧
    ip vm' = (if bool_decide (isTruthy v = bool_decide (op = JMP_IF_TRUE))
              then to_size_t t else ip vm + 1) ∧
    running vm' = true ∧
    globals vm' = globals vm ∧ callStack vm' = callStack vm ∧
    cerr vm' = cerr vm ∧ cout vm' = cout vm.
Proof.
  intros Hinv Hrun Hf Hop Hs.
  seq_head Hf Hc Hlt.
  seq_step c Hinv Hc g h Hstep Hinv1 Hkeep Hq.
  assert (Hpeek : peek 0 (set_ip (ip vm + 1) (set_gc_heap g h vm)) = v).
  { unfold peek. simpl. rewrite Hs, length_app. simpl.
    destruct (Z.leb_spec (Z.of_nat (length l + 1)) 0) as [?|_]; [lia|].
    replace (Z.to_nat (Z.of_nat (length l + 1) - 1 - 0)) with (length l) by lia.
    by rewrite lookup_app_r, Nat.sub_diag by lia. }
  destruct Hop as [-> | ->].
  - change (dispatch c (mkInstruction JMP_IF_FALSE t))
      with (let* v0 := get (peek 0) in
            if negb (isTruthy v0) then modify (set_ip (to_size_t t))
            else ret tt).
    unfold bind, get. rewrite Hpeek.
    destruct (isTruthy v); simpl;
      (eexists; split; [reflexivity|]; simpl; by rewrite Hs, Hrun).
  - change (dispatch c (mkInstruction JMP_IF_TRUE t))
      with (let* v0 := get (peek 0) in
            if isTruthy v0 then modify (set_ip (to_size_t t)) else ret tt).
    unfold bind, get. rewrite Hpeek.
    destruct (isTruthy v); simpl;
      (eexists; split; [reflexivity|]; simpl; by rewrite Hs, Hrun).
Qed.

Lemma conditional_jumps_keep_the_condition_witness :
  ∃ vm',
    steps 1 (vm_at (chunk_of [mkInstruction JMP_IF_FALSE 7] []) 0 [Int 0])
      = Some vm' ∧
    stack vm' = [Int 0] ∧ ip vm' = 7.
Proof.
  destruct (conditional_jumps_keep_the_condition
              (chunk_of [mkInstruction JMP_IF_FALSE 7] [])
              (vm_at (chunk_of [mkInstruction JMP_IF_FALSE 7] []) 0 [Int 0])
              JMP_IF_FALSE 7 [] (Int 0))
    as (vm' & Hsteps & Hs & Hip & _).
  - apply run_inv_b_sound. vm_compute. reflexivity.
  - reflexivity.
  - split; [simpl; lia | reflexivity].
  - by left.
  - reflexivity.
  - exists vm'. split_and!; [done | done | exact Hip].
Defined.

(** * Absence of undefined behaviour *)

Section Safety.

Variable c : Chunk.




































End Safety.





(** * More on the collector *)

Section CollectorAgain.

Lemma set_marked_true_twice o :
  set_marked true (set_marked true o) = set_marked true o.
Proof. by destruct o. Qed.

End CollectorAgain.

(** X20. Collecting twice in a row with the same roots is the same as collecting
    once: the second collection finds the registry, the thresholds and every
    object of the store exactly as the first one left them. *)
Theorem collect_twice_changes_nothing
    (stack globals : list Value) (g g' : GarbageCollector)
    (h h' : gmap N Object) :
  registry_ok g h → all_unmarked g h → roots_ok (stack ++ globals) h →
  collect stack globals g h = Some (g', h') →
  collect stack globals g' h' = Some (g', h').
Proof.
  intros Hreg Hun Hroots Hc.
  destruct (collect_invariant _ _ _ _ _ _ Hreg Hun Hroots Hc)
    as (Hreg' & Hun' & Hroots' & _).
  destruct (collect_spec stack globals g h Hreg Hun Hroots) as (h1 & Hc1 & Hh1).
  rewrite Hc in Hc1. injection Hc1 as Hg' <-.
  destruct (collect_spec stack globals g' h' Hreg' Hun' Hroots')
    as (h2 & Hc2 & Hh2).
  rewrite Hc2. set (roots := stack ++ globals) in *.
  assert (Hobjs : objects g' = filter (referenced roots) (objects g))
    by (by rewrite Hg').
  assert (Hthr : threshold g' = threshold g) by (by rewrite Hg').
  assert (Hfix : filter (referenced roots) (objects g') = objects g').
  { rewrite Hobjs. rewrite list_filter_filter.
    apply list_filter_iff. intros p. tauto. }
  f_equal. f_equal.
  - rewrite Hfix, Hthr. rewrite Hg' at 3. by rewrite <- Hobjs.
  - apply map_eq. intros q. rewrite Hh2.
    destruct (decide (q ∈ objects g')) as [Hq|Hq].
    + rewrite decide_True; [done|].
      rewrite Hobjs in Hq. by apply list_elem_of_filter in Hq as [? _].
    + destruct (decide (referenced roots q)) as [Hr|Hr]; [|done].
      rewrite Hh1.
      assert (Hq' : q ∉ objects g).
      { intros Hin. apply Hq. rewrite Hobjs. by apply list_elem_of_filter. }
      rewrite decide_False, decide_True by done.
      destruct (h !! q) as [o|]; simpl; [|done].
      by rewrite set_marked_true_twice.
Qed.

Lemma collect_twice_changes_nothing_witness :
  ∃ g' h',
    collect [Obj 2%N] [Obj 3%N; Nil] sample_gc sample_heap = Some (g', h') ∧
    collect [Obj 2%N] [Obj 3%N; Nil] g' h' = Some (g', h').
Proof.
  destruct (collect [Obj 2%N] [Obj 3%N; Nil] sample_gc sample_heap)
    as [[g' h']|] eqn:Hc; [|by vm_compute in Hc].
  exists g', h'. split; [done|].
  apply (collect_twice_changes_nothing _ _ sample_gc g' sample_heap h');
    [| | |exact Hc].
  - split_and!; [unfold sample_gc; simpl; compute_done | | by vm_compute].
    intros p Hp. unfold sample_gc in Hp. simpl in Hp.
    repeat (apply elem_of_cons in Hp as [->|Hp]);
      [by split; [|eexists] .. | by apply elem_of_nil in Hp].
  - intros p o Hp. unfold sample_gc in Hp. simpl in Hp.
    repeat (apply elem_of_cons in Hp as [->|Hp]);
      [by intros [= <-] .. | by apply elem_of_nil in Hp].
  - intros p Hp. simpl in Hp. right.
    repeat (apply elem_of_cons in Hp as [Hp|Hp]);
      [by injection Hp as ->; eexists .. | done | by apply elem_of_nil in Hp].
Defined.

(** X21. [allocate] registers exactly one new object and frees none: the address
    it returns is not null and was not in use, the new object is stored
    there, every other address holds what it held, the registry grows by
    that one address at its end, the count goes up by one, and the
    thresholds are not touched (allocation itself never collects). *)
Theorem allocate_registers_a_fresh_object
    (o : Object) (g g' : GarbageCollector) (h h' : gmap N Object) (p : N) :
  registry_ok g h → all_unmarked g h → marked o = false →
  allocate o g h = (p, g', h') →
  p ≠ nullptr ∧ h !! p = None ∧ (p ∉ objects g) ∧
  h' !! p = Some o ∧
  (∀ q, q ≠ p → h' !! q = h !! q) ∧
  objects g' = objects g ++ [p] ∧
  objectCount g' = objectCount g + 1 ∧
  nextGC g' = nextGC g ∧ threshold g' = threshold g ∧
  registry_ok g' h' ∧ all_unmarked g' h'.
Proof.
  intros Hreg Hun Hm Ha.
  destruct (allocate_preserves _ _ _ _ _ _ Ha Hm Hreg Hun)
    as (Hreg' & Hun' & Hp & Hfresh & Hnew & Hobjs & Hold).
  split_and!; try done.
  - intros Hin. destruct Hreg as (_ & Hlive & _).
    destruct (Hlive p Hin) as [_ [x Hx]]. congruence.
  - unfold objectCount. rewrite Hobjs, length_app. simpl. lia.
  - unfold allocate in Ha. by injection Ha as <- <- <-.
  - unfold allocate in Ha. by injection Ha as <- <- <-.
Qed.

Lemma allocate_registers_a_fresh_object_witness :
  ∃ p g' h',
    allocate (new_ArrayObject 3) sample_gc sample_heap = (p, g', h') ∧
    p ≠ nullptr ∧ sample_heap !! p = None ∧ objectCount g' = 4.
Proof.
  destruct (allocate (new_ArrayObject 3) sample_gc sample_heap)
    as [[p g'] h'] eqn:Ha.
  destruct (allocate_registers_a_fresh_object
              (new_ArrayObject 3) sample_gc g' sample_heap h' p)
    as (Hp & Hfresh & _ & _ & _ & _ & Hcount & _); [| |reflexivity|exact Ha|].
  - split_and!; [unfold sample_gc; simpl; compute_done | | by vm_compute].
    intros q Hq. unfold sample_gc in Hq. simpl in Hq.
    repeat (apply elem_of_cons in Hq as [->|Hq]);
      [by split; [|eexists] .. | by apply elem_of_nil in Hq].
  - intros q x Hq. unfold sample_gc in Hq. simpl in Hq.
    repeat (apply elem_of_cons in Hq as [->|Hq]);
      [by intros [= <-] .. | by apply elem_of_nil in Hq].
  - exists p, g', h'. split_and!; [done..|]. rewrite Hcount. reflexivity.
Defined.

(** * Stopping *)

(** X22. HALT, and RET when no call is pending, stop the run without a
    diagnostic: the loop ends after that iteration with [running] cleared
    and everything else as it was. The answer of [execute] then only depends
    on where the instruction stood: it is [true] exactly when the
    instruction was the last one of the chunk. *)
Theorem HALT_and_outermost_RET_stop_the_run c vm op n :
  run_inv c vm → running vm = true →
  fetches c (ip vm) [mkInstruction op n] →
  op = HALT ∨ (op = RET ∧ callStack vm = []) →
  ∃ vm',
    steps 1 vm = Some vm' ∧
    (∀ fuel, run (S fuel) vm = Done vm') ∧
    running vm' = false ∧
    ip vm' = ip vm + 1 ∧
    stack vm' = stack vm ∧ globals vm' = globals vm ∧
    callStack vm' = callStack vm ∧
    cerr vm' = cerr vm ∧ cout vm' = cout vm ∧
    (execute_result c vm' = true ↔ ip vm + 1 = Z.of_nat (length (code c))).
Proof.
  intros Hinv Hrun Hf Hop.
  seq_head Hf Hc Hlt.
  assert (Hch : chunk vm = Some c) by (by destruct Hinv).
  assert (Hone : ∃ vm', steps 1 vm = Some vm' ∧ chunk vm' = Some c ∧
            running vm' = false ∧ ip vm' = ip vm + 1 ∧
            stack vm' = stack vm ∧ globals vm' = globals vm ∧
            callStack vm' = callStack vm ∧
            cerr vm' = cerr vm ∧ cout vm' = cout vm).
  { seq_step c Hinv Hc g h Hstep Hinv1 Hkeep Hq.
    destruct Hop as [-> | [-> Hcs]].
    - eexists. split; [reflexivity|]. simpl. by rewrite Hch.
    - unfold dispatch, bind, get. simpl. rewrite Hcs. simpl.
      eexists. split; [reflexivity|]. simpl. by rewrite Hch, Hcs. }
  destruct Hone as (vm' & Hsteps & Hch' & Hrun' & Hip & Hrest).
  assert (Hg : loop_guard vm' = false).
  { unfold loop_guard. by rewrite Hch', Hrun'. }
  exists vm'. split_and!; try tauto.
  - intros fuel. change (S fuel) with (1 + fuel)%nat.
    rewrite (steps_run 1 fuel vm vm' Hsteps). by apply run_done.
  - unfold execute_result. rewrite Hrun', Hip. simpl.
    rewrite Z.leb_le. lia.
Qed.

Lemma HALT_and_outermost_RET_stop_the_run_witness :
  ∃ vm',
    run 5 (vm_at (chunk_of [mkInstruction RET 0; mkInstruction NOP 0] []) 0 [])
      = Done vm' ∧
    ip vm' = 1 ∧
    execute_result (chunk_of [mkInstruction RET 0; mkInstruction NOP 0] []) vm'
      = false.
Proof.
  destruct (HALT_and_outermost_RET_stop_the_run
              (chunk_of [mkInstruction RET 0; mkInstruction NOP 0] [])
              (vm_at (chunk_of [mkInstruction RET 0; mkInstruction NOP 0] [])
                     0 []) RET 0)
    as (vm' & _ & Hr & _ & Hip & _ & _ & _ & _ & _ & Hres).
  - apply run_inv_b_sound. vm_compute. reflexivity.
  - reflexivity.
  - split; [simpl; lia | reflexivity].
  - right. by split.
  - exists vm'. split_and!; [apply Hr | exact Hip |].
    destruct (execute_result _ vm'); [|done].
    destruct Hres as [Hres _]. specialize (Hres eq_refl). simpl in Hres. lia.
Defined.

(** X23. The opcodes LOAD and STORE are declared but the interpreter has no case
    for them: executing either is a runtime error, "Unknown opcode", that
    stops the run and leaves the operand stack and the globals as they
    were. *)
Theorem LOAD_and_STORE_are_unknown_opcodes c vm op n :
  run_inv c vm → running vm = true →
  fetches c (ip vm) [mkInstruction op n] →
  op = LOAD ∨ op = STORE →
  ∃ vm',
    steps 1 vm = Some vm' ∧
    (∀ fuel, run (S fuel) vm = Done vm') ∧
    running vm' = false ∧
    cerr vm' = cerr vm ++ ["Runtime Error: Unknown opcode";
                           "  at instruction " +:+ pretty (ip vm + 1)] ∧
    stack vm' = stack vm ∧ globals vm' = globals vm ∧ cout vm' = cout vm.
Proof.
  intros Hinv Hrun Hf Hop.
  seq_head Hf Hc Hlt.
  assert (Hch : chunk vm = Some c) by (by destruct Hinv).
  assert (Hone : ∃ vm', steps 1 vm = Some vm' ∧ chunk vm' = Some c ∧
            running vm' = false ∧
            cerr vm' = cerr vm ++ ["Runtime Error: Unknown opcode";
                                   "  at instruction " +:+ pretty (ip vm + 1)] ∧
            stack vm' = stack vm ∧ globals vm' = globals vm ∧
            cout vm' = cout vm).
  { seq_step c Hinv Hc g h Hstep Hinv1 Hkeep Hq.
    destruct Hop as [-> | ->];
      (eexists; split; [reflexivity|]; simpl; by rewrite Hch). }
  destruct Hone as (vm' & Hsteps & Hch' & Hrun' & Hrest).
  assert (Hg : loop_guard vm' = false).
  { unfold loop_guard. by rewrite Hch', Hrun'. }
  exists vm'. split_and!; try tauto.
  intros fuel. change (S fuel) with (1 + fuel)%nat.
  rewrite (steps_run 1 fuel vm vm' Hsteps). by apply run_done.
Qed.

Lemma LOAD_and_STORE_are_unknown_opcodes_witness :
  ∃ vm',
    steps 1 (vm_at (chunk_of [mkInstruction LOAD 0] []) 0 [Int 5]) = Some vm' ∧
    cerr vm' = ["Runtime Error: Unknown opcode"; "  at instruction 1"] ∧
    stack vm' = [Int 5].
Proof.
  destruct (LOAD_and_STORE_are_unknown_opcodes
              (chunk_of [mkInstruction LOAD 0] [])
              (vm_at (chunk_of [mkInstruction LOAD 0] []) 0 [Int 5]) LOAD 0)
    as (vm' & Hsteps & _ & _ & Herr & Hs & _).
  - apply run_inv_b_sound. vm_compute. reflexivity.
  - reflexivity.
  - split; [simpl; lia | reflexivity].
  - by left.
  - exists vm'. split_and!; [done | exact Herr | exact Hs].
Defined.

(** * The assembler *)


(** X24. Assembling only ever appends. Whatever calls follow, the instructions,
    constants and line numbers already in the chunk stay where they are, so
    instruction indices bound to labels and constant indices stored in PUSH
    operands remain valid; and the assembler writes one line number with
    each instruction, so a chunk that starts with as many line numbers as
    instructions stays that way. *)
Theorem assembling_only_appends (c : Chunk) (calls more : list Asm.Call) :
  extends (Asm.build c calls) (Asm.build c (calls ++ more)) ∧
  (∀ i instr, code (Asm.chunk (Asm.build c calls)) !! i = Some instr →
              code (Asm.chunk (Asm.build c (calls ++ more))) !! i = Some instr) ∧
  (∀ i v, constants (Asm.chunk (Asm.build c calls)) !! i = Some v →
          constants (Asm.chunk (Asm.build c (calls ++ more))) !! i = Some v) ∧
  (length (lines c) = length (code c) →
   length (lines (Asm.chunk (Asm.build c calls))) =
   length (code (Asm.chunk (Asm.build c calls)))).
Proof.
  assert (Hext : extends (Asm.build c calls) (Asm.build c (calls ++ more))).
  { rewrite build_app. apply calls_extend. }
  split; [exact Hext|].
  destruct Hext as (cd & cs & ls & js & H1 & H2 & H3 & H4 & H5).
  split_and!.
  - intros i instr Hi. rewrite H1. by apply lookup_app_l_Some.
  - intros i v Hi. rewrite H2. by apply lookup_app_l_Some.
  - intros Hlen.
    destruct (calls_extend calls (Asm.new_Assembler c))
      as (cd0 & cs0 & ls0 & js0 & G1 & _ & G3 & G4 & _).
    unfold Asm.build. fold (assembler_from (Asm.new_Assembler c) calls).
    rewrite G1, G3, !length_app. simpl. lia.
Qed.

Lemma assembling_only_appends_witness :
  code (Asm.chunk (Asm.build empty_Chunk (branch_calls 1))) !! 0%nat
    = Some (mkInstruction PUSH 0) ∧
  length (lines (Asm.chunk (Asm.build empty_Chunk [Asm.CPush 1]))) =
  length (code (Asm.chunk (Asm.build empty_Chunk [Asm.CPush 1]))).
Proof.
  destruct (assembling_only_appends empty_Chunk [Asm.CPush 1]
              (tail (branch_calls 1))) as (_ & Hcode & _ & Hlines).
  split.
  - apply (Hcode 0%nat). reflexivity.
  - apply Hlines. reflexivity.
Defined.

(** X25. [resolve] rewrites operands of jump instructions and nothing else: the
    code keeps its length, every instruction keeps its opcode, every
    instruction that is not a JMP, JMP_IF_FALSE or JMP_IF_TRUE is left as it
    was, and the constants, the line numbers, the labels and the list of
    recorded jumps are the same afterwards. *)
Theorem resolve_changes_jump_operands_only
    (c : Chunk) (calls : list Asm.Call) (a' : Asm.Assembler)
    (err0 err : list string) :
  Asm.resolve (Asm.build c calls) err0 = Some (a', err) →
  length (code (Asm.chunk a')) = length (code (Asm.chunk (Asm.build c calls))) ∧
  constants (Asm.chunk a') = constants (Asm.chunk (Asm.build c calls)) ∧
  lines (Asm.chunk a') = lines (Asm.chunk (Asm.build c calls)) ∧
  Asm.labels a' = Asm.labels (Asm.build c calls) ∧
  Asm.unresolvedJumps a' = Asm.unresolvedJumps (Asm.build c calls) ∧
  ∀ i instr,
    code (Asm.chunk (Asm.build c calls)) !! i = Some instr →
    ∃ x, code (Asm.chunk a') !! i = Some (mkInstruction (opcode instr) x) ∧
         (is_jump (opcode instr) = false → x = operand instr).
Proof.
  intros Hres.
  split_and!; [..|intros i instr; by apply (resolve_build_at c calls err0 a' err)].
  all: destruct (resolve_build c calls err0) as (cd' & Hres' & Hlen & _);
    rewrite Hres in Hres'; by injection Hres' as -> _.
Qed.

Lemma resolve_changes_jump_operands_only_witness :
  ∃ a' err,
    Asm.resolve (Asm.build empty_Chunk (branch_calls 1)) [] = Some (a', err) ∧
    code (Asm.chunk a') !! 2%nat = Some (mkInstruction PUSH 1) ∧
    code (Asm.chunk a') !! 1%nat = Some (mkInstruction JMP_IF_FALSE 5).
Proof.
  destruct (Asm.resolve (Asm.build empty_Chunk (branch_calls 1)) [])
    as [[a' err]|] eqn:Hres; [|by vm_compute in Hres].
  exists a', err. split; [done|].
  destruct (resolve_changes_jump_operands_only _ _ _ _ _ Hres)
    as (_ & _ & _ & _ & _ & Hat).
  split.
  - destruct (Hat 2%nat (mkInstruction PUSH 1) eq_refl) as (x & Hx & Hop).
    rewrite Hx. simpl. by rewrite (Hop eq_refl).
  - vm_compute in Hres. by injection Hres as <- _.
Defined.

(** X26. The recorded jumps are not cleared by [resolve]. A second [resolve]
    therefore finds the code as the first one left it and changes nothing,
    and it writes the report of every undefined label once more. *)
Theorem resolve_again_keeps_code_repeats_reports
    (c : Chunk) (calls : list Asm.Call) (a' : Asm.Assembler)
    (err err0 : list string) :
  Asm.resolve (Asm.build c calls) [] = Some (a', err) →
  Asm.resolve a' err0 = Some (a', err0 ++ err).
Proof.
  intros Hres.
  destruct (resolve_build c calls [])
    as (cd' & Hres' & Hlen & Hdef & Hundef & Hframe).
  rewrite Hres in Hres'. injection Hres' as -> ->.
  set (a := Asm.build c calls) in *.
  destruct (build_ok c calls) as (Hnd & Hoff & Hlab). fold a in Hnd, Hoff, Hlab.
  destruct (resolve_jumps_spec (Asm.labels a) (Asm.unresolvedJumps a) cd' err0 Hnd)
    as (cd2 & Hres2 & Hlen2 & Hdef2 & Hundef2 & Hframe2).
  { intros off name Hin. rewrite Hlen. by destruct (Hoff off name Hin). }
  unfold Asm.resolve. simpl. rewrite Hres2.
  assert (Hsame : cd2 = cd').
  { apply list_eq. intros i.
    destruct (decide (Exists (fun j => Z.to_nat j.1 = i) (Asm.unresolvedJumps a)))
      as [Hex|Hnex].
    - apply Exists_exists in Hex as ([off name] & Hin & Hi). simpl in Hi.
      subst i. destruct (Asm.labels a !! name) as [target|] eqn:Hl.
      + rewrite (Hdef2 off name target Hin Hl), (Hdef off name target Hin Hl).
        by destruct (code (Asm.chunk a) !! Z.to_nat off).
      + by rewrite (Hundef2 off name Hin Hl).
    - apply Hframe2. intros off name Hin Hi. apply Hnex, Exists_exists.
      by exists (off, name). }
  by rewrite Hsame.
Qed.

Lemma resolve_again_keeps_code_repeats_reports_witness :
  ∃ a',
    Asm.resolve (Asm.build empty_Chunk undefined_jump_calls) []
      = Some (a', ["Error: Undefined label 'missing'"]) ∧
    Asm.resolve a' ["Error: Undefined label 'missing'"]
      = Some (a', ["Error: Undefined label 'missing'";
                   "Error: Undefined label 'missing'"]).
Proof.
  destruct (Asm.resolve (Asm.build empty_Chunk undefined_jump_calls) [])
    as [[a' err]|] eqn:Hres; [|by vm_compute in Hres].
  assert (Herr : err = ["Error: Undefined label 'missing'"]).
  { vm_compute in Hres. by injection Hres as _ <-. }
  exists a'. split; [by rewrite Herr|].
  rewrite (resolve_again_keeps_code_repeats_reports _ _ _ _
             ["Error: Undefined label 'missing'"] Hres).
  by rewrite Herr.
Defined.

(** * From the assembler to the machine *)

Section AssembledCode.

Import Asm.

(** A [push] followed by any further calls: where the PUSH and its constant
    end up. *)
Lemma push_then_more c calls v more :
  code (chunk (build c (calls ++ CPush v :: more)))
    !! length (code (chunk (build c calls)))
  = Some (mkInstruction PUSH
            (wrap32 (Z.of_nat (length (constants (chunk (build c calls))))))) ∧
  constants (chunk (build c (calls ++ CPush v :: more)))
    !! length (constants (chunk (build c calls)))
  = Some (Int v).
Proof.
  rewrite build_app. simpl. set (a := build c calls).
  destruct (calls_extend more (push v a))
    as (cd & cs & ls & js & H1 & H2 & _).
  fold (assembler_from (push v a) more). rewrite H1, H2.
  unfold push. simpl. split.
  - rewrite <- app_assoc, lookup_app_r, Nat.sub_diag by lia. simpl.
    do 3 f_equal. rewrite length_app. simpl. lia.
  - rewrite <- app_assoc, lookup_app_r, Nat.sub_diag by lia. done.
Qed.

(** A [jump] followed by any further calls: the placeholder and its
    record. *)
Lemma jump_then_more c calls name more :
  code (chunk (build c (calls ++ CJump name :: more)))
    !! length (code (chunk (build c calls)))
  = Some (mkInstruction JMP 0) ∧
  (code_size (build c calls), name)
    ∈ unresolvedJumps (build c (calls ++ CJump name :: more)).
Proof.
  rewrite build_app. simpl. set (a := build c calls).
  destruct (calls_extend more (jump name a))
    as (cd & cs & ls & js & H1 & _ & _ & _ & H5).
  fold (assembler_from (jump name a) more). rewrite H1, H5. simpl. split.
  - by rewrite <- app_assoc, lookup_app_r, Nat.sub_diag by lia.
  - rewrite !elem_of_app. left. right. by left.
Qed.

End AssembledCode.

(** X27. What [push(v)] assembles loads [v]. Take any build that contains a
    [push(v)] call and resolve it; when the machine reaches the instruction
    that call emitted, one iteration puts the integer [v] on top of the
    operand stack and moves on to the next instruction, provided the chunk
    has fewer than 2^31 constants (the index is stored in a 32-bit
    operand). *)
Theorem assembled_push_loads_its_value
    (c0 : Chunk) (calls more : list Asm.Call) (v : Z)
    (a' : Asm.Assembler) (err : list string) (vm : VM) :
  Asm.resolve (Asm.build c0 (calls ++ Asm.CPush v :: more)) [] = Some (a', err) →
  Z.of_nat (length (constants (Asm.chunk a'))) < 2 ^ 31 →
  run_inv (Asm.chunk a') vm → running vm = true →
  ip vm = Asm.code_size (Asm.build c0 calls) →
  ∃ vm',
    steps 1 vm = Some vm' ∧
    stack vm' = stack vm ++ [Int v] ∧
    ip vm' = ip vm + 1 ∧ running vm' = true ∧
    globals vm' = globals vm ∧ cerr vm' = cerr vm ∧ cout vm' = cout vm.
Proof.
  intros Hres Hsmall Hinv Hrun Hip.
  destruct (push_then_more c0 calls v more) as [Hcode Hconst].
  assert (Hcs : constants (Asm.chunk a') =
                constants (Asm.chunk (Asm.build c0 (calls ++ Asm.CPush v :: more)))).
  { destruct (resolve_build c0 (calls ++ Asm.CPush v :: more) [])
      as (cd' & Hres' & _).
    rewrite Hres in Hres'. by injection Hres' as -> _. }
  destruct (resolve_build_at _ _ _ _ _ _ _ Hres Hcode) as (x & Hx & Hop).
  simpl in Hx, Hop.
  rewrite (Hop eq_refl) in Hx. rewrite <- Hcs in Hconst.
  set (c := Asm.chunk a') in *.
  set (n := length (constants (Asm.chunk (Asm.build c0 calls)))) in *.
  assert (Hn : (n < length (constants c))%nat) by (by eapply lookup_lt_Some).
  rewrite (wrap32_small (Z.of_nat n)) in Hx by lia.
  assert (Hc : code c !! Z.to_nat (ip vm) = Some (mkInstruction PUSH (Z.of_nat n))).
  { rewrite Hip. unfold Asm.code_size. by rewrite Nat2Z.id. }
  assert (Hlt : ip vm < Z.of_nat (length (code c))).
  { apply lookup_lt_Some in Hc. rewrite Hip in *. unfold Asm.code_size in *. lia. }
  seq_step c Hinv Hc g h Hstep Hinv1 Hkeep Hq.
  unfold dispatch, bind, get. simpl.
  rewrite (wrap32_small (Z.of_nat (length (constants c)))) by lia.
  rewrite in_bounds_true by lia. rewrite Nat2Z.id, Hconst.
  eexists. split; [reflexivity|]. simpl. by rewrite Hrun.
Qed.

Lemma assembled_push_loads_its_value_witness :
  ∃ a' err vm',
    Asm.resolve
      (Asm.build empty_Chunk [Asm.CPush 1; Asm.CPush 2; Asm.COp ADD]) []
      = Some (a', err) ∧
    steps 1 (vm_at (Asm.chunk a') 1 [Int 1]) = Some vm' ∧
    stack vm' = [Int 1; Int 2].
Proof.
  set (r := Asm.resolve
              (Asm.build empty_Chunk [Asm.CPush 1; Asm.CPush 2; Asm.COp ADD]) []).
  set (a0 := match r with
             | Some (a, _) => a
             | None => Asm.new_Assembler empty_Chunk
             end).
  set (e0 := match r with Some (_, e) => e | None => [] end).
  assert (Hres : r = Some (a0, e0)) by (vm_compute; reflexivity).
  destruct (assembled_push_loads_its_value empty_Chunk [Asm.CPush 1]
              [Asm.COp ADD] 2 a0 e0 (vm_at (Asm.chunk a0) 1 [Int 1]))
    as (vm' & Hsteps & Hs & _).
  - exact Hres.
  - vm_compute. reflexivity.
  - apply run_inv_b_sound. vm_compute. reflexivity.
  - reflexivity.
  - reflexivity.
  - exists a0, e0, vm'. split_and!; [exact Hres | exact Hsteps | exact Hs].
Defined.

(** X28. A jump lands on its label. Take any build that contains a
    [jump(name)] call and resolve it; if [name] is bound to instruction
    index [t] and the code has fewer than 2^31 instructions, then when the
    machine reaches the JMP that call emitted, one iteration moves the
    instruction pointer to [t], which lies within the code or just past its
    end, and changes nothing else. *)
Theorem assembled_jump_lands_on_its_label
    (c0 : Chunk) (calls more : list Asm.Call) (name : string) (t : Z)
    (a' : Asm.Assembler) (err : list string) (vm : VM) :
  Asm.resolve (Asm.build c0 (calls ++ Asm.CJump name :: more)) [] = Some (a', err) →
  Asm.labels a' !! name = Some t →
  Asm.code_size a' < 2 ^ 31 →
  run_inv (Asm.chunk a') vm → running vm = true →
  ip vm = Asm.code_size (Asm.build c0 calls) →
  ∃ vm',
    steps 1 vm = Some vm' ∧
    ip vm' = t ∧ 0 <= t <= Asm.code_size a' ∧
    stack vm' = stack vm ∧ globals vm' = globals vm ∧
    callStack vm' = callStack vm ∧ running vm' = true ∧
    cerr vm' = cerr vm ∧ cout vm' = cout vm.
Proof.
  intros Hres Hl Hsmall Hinv Hrun Hip.
  destruct (jump_then_more c0 calls name more) as [Hcode Hin].
  set (a := Asm.build c0 (calls ++ Asm.CJump name :: more)) in *.
  destruct (resolve_build c0 (calls ++ Asm.CJump name :: more) [])
    as (cd' & Hres' & Hlen & Hdef & _). fold a in Hres', Hlen, Hdef.
  rewrite Hres in Hres'. injection Hres' as Ha' _.
  assert (Hlbl : Asm.labels a !! name = Some t) by (by rewrite Ha' in Hl).
  destruct (build_ok c0 (calls ++ Asm.CJump name :: more)) as (_ & _ & Hlab).
  fold a in Hlab. specialize (Hlab name t Hlbl).
  assert (Hsize : Asm.code_size a' = Asm.code_size a).
  { rewrite Ha'. unfold Asm.code_size. simpl. by rewrite Hlen. }
  specialize (Hdef _ _ t Hin Hlbl). unfold Asm.code_size in Hdef.
  rewrite !Nat2Z.id, Hcode in Hdef. simpl in Hdef.
  rewrite wrap32_small in Hdef by lia.
  set (c := Asm.chunk a') in *.
  assert (Hc : code c !! Z.to_nat (ip vm) = Some (mkInstruction JMP t)).
  { rewrite Hip. unfold Asm.code_size. rewrite Nat2Z.id.
    unfold c. rewrite Ha'. exact Hdef. }
  assert (Hlt : ip vm < Z.of_nat (length (code c))).
  { apply lookup_lt_Some in Hc. rewrite Hip in *. unfold Asm.code_size in *. lia. }
  assert (Ht : to_size_t t = t).
  { unfold to_size_t. apply Z.mod_small. lia. }
  seq_step c Hinv Hc g h Hstep Hinv1 Hkeep Hq.
  eexists. split; [reflexivity|]. simpl. rewrite Ht, Hrun.
  split_and!; try done; lia.
Qed.

Lemma assembled_jump_lands_on_its_label_witness :
  ∃ a' err vm',
    Asm.resolve (Asm.build empty_Chunk forward_jump_calls) [] = Some (a', err) ∧
    steps 1 (vm_at (Asm.chunk a') 0 []) = Some vm' ∧ ip vm' = 2.
Proof.
  set (r := Asm.resolve (Asm.build empty_Chunk forward_jump_calls) []).
  set (a0 := match r with
             | Some (a, _) => a
             | None => Asm.new_Assembler empty_Chunk
             end).
  set (e0 := match r with Some (_, e) => e | None => [] end).
  assert (Hres : r = Some (a0, e0)) by (vm_compute; reflexivity).
  destruct (assembled_jump_lands_on_its_label empty_Chunk []
              (tail forward_jump_calls) "end" 2 a0 e0
              (vm_at (Asm.chunk a0) 0 []))
    as (vm' & Hsteps & Hip & _).
  - exact Hres.
  - vm_compute. reflexivity.
  - vm_compute. reflexivity.
  - apply run_inv_b_sound. vm_compute. reflexivity.
  - reflexivity.
  - reflexivity.
  - exists a0, e0, vm'. split_and!; [exact Hres | exact Hsteps | exact Hip].
Defined.

(** * The disassembler *)

Section Listing.

Lemma put_plain s o :
  os_width o = 0%nat →
  put s o = mkOStream 0 (os_fill o) (os_left o) (os_out o ++ [s]).
Proof. intros Hw. unfold put. rewrite Hw. done. Qed.

(** One instruction: the pieces written and the state the stream is left
    in. *)
Lemma disassembleInstruction_spec c k o instr ln :
  code c !! k = Some instr → lines c !! k = Some ln →
  os_width o = 0%nat →
  disassembleInstruction c k o =
    Some (mkOStream 0 char_0 true
            (os_out o ++ listing_line c k (os_left o) instr ln)).
Proof.
  intros Hi Hl Hw. destruct o as [w f l out]. simpl in Hw. subst w.
  unfold disassembleInstruction, listing_line.
  rewrite Hi, Hl.
  assert (Hsame :
    (if (0 <? k)%nat
     then match lines c !! (k - 1)%nat with
          | Some prev => Some (ln =? prev)
          | None => None
          end
     else Some false)
    = Some ((0 <? k)%nat && bool_decide (lines c !! (k - 1)%nat = Some ln))).
  { destruct (Nat.ltb_spec 0 k) as [Hk|Hk]; [|done]. simpl.
    destruct (lookup_lt_is_Some_2 (lines c) (k - 1)) as [prev Hp].
    { apply lookup_lt_Some in Hl. lia. }
    rewrite Hp. f_equal.
    destruct (Z.eqb_spec ln prev) as [->|Hne].
    - by rewrite bool_decide_eq_true_2.
    - rewrite bool_decide_eq_false_2; [done|]. congruence. }
  rewrite Hsame.
  destruct ((0 <? k)%nat && bool_decide (lines c !! (k - 1)%nat = Some ln));
    destruct (shows_operand (opcode instr));
    cbv [put setw setfill set_left os_out os_width os_fill os_left];
    rewrite <- ?app_assoc; reflexivity.
Qed.

Lemma disassemble_loop_spec c n : ∀ k o,
  (k + n <= length (code c))%nat → (length (code c) <= length (lines c))%nat →
  os_width o = 0%nat →
  ∃ o',
    disassemble_loop c k n o = Some o' ∧
    os_out o' = os_out o ++
      concat (imap (fun i instr =>
                      listing_line c (k + i) (os_left o || (0 <? i)%nat) instr
                                   (default 0 (lines c !! (k + i)%nat)))
                   (take n (drop k (code c)))) ∧
    os_width o' = 0%nat ∧
    ((0 < n)%nat → os_fill o' = char_0 ∧ os_left o' = true).
Proof.
  induction n as [|n IH]; intros k o Hk Hlen Hw.
  - exists o. simpl. rewrite app_nil_r. split_and!; [done..|lia].
  - destruct (lookup_lt_is_Some_2 (code c) k) as [instr Hi]; [lia|].
    destruct (lookup_lt_is_Some_2 (lines c) k) as [ln Hl]; [lia|].
    simpl. rewrite (disassembleInstruction_spec c k o instr ln Hi Hl Hw).
    destruct (IH (S k) (mkOStream 0 char_0 true
                      (os_out o ++ listing_line c k (os_left o) instr ln)))
      as (o' & Hloop & Hout & Hw' & Hst); [lia | done | done |].
    exists o'. split; [done|]. split_and!; [|done|].
    + rewrite Hout. cbn [os_out os_left].
      rewrite (drop_S _ instr k Hi). cbn [take imap concat].
      rewrite <- app_assoc. f_equal.
      rewrite Nat.add_0_r, Hl, orb_false_r. cbn [default]. f_equal.
      f_equal. apply imap_ext. intros i x _. simpl.
      rewrite orb_true_r. by rewrite Nat.add_succ_r.
    + intros _. destruct n as [|n].
      * simpl in Hloop. by injection Hloop as <-.
      * apply Hst. lia.
Qed.

End Listing.

(** X29. The listing [disassemble] writes. It never goes wrong on a chunk with a
    line number for every instruction, and it writes the heading followed by
    one line per instruction. Because the fill character ['0'] and the
    [left] adjustment stay in force on the stream once set, every field of
    the listing is padded with zeros, and from the first opcode name on the
    zeros come after the value: the name is followed by zeros up to 16
    characters, an operand by zeros up to 8, and from the second instruction
    on so are the offset and the line number up to 4. The stream is left in
    that state for whatever is written next. *)
Theorem disassemble_listing (c : Chunk) (name : string) (o : OStream) :
  (length (code c) <= length (lines c))%nat →
  os_width o = 0%nat →
  ∃ o',
    disassemble name c o = Some o' ∧
    os_out o' =
      os_out o ++ ["== "; name; " ==" +:+ newline] ++
      concat (imap (fun i instr =>
                      listing_line c i (os_left o || (0 <? i)%nat) instr
                                   (default 0 (lines c !! i)))
                   (code c)) ∧
    os_width o' = 0%nat ∧
    (code c ≠ [] → os_fill o' = char_0 ∧ os_left o' = true).
Proof.
  intros Hlen Hw. unfold disassemble.
  rewrite (put_plain "== " o Hw).
  rewrite (put_plain name) by done. rewrite (put_plain (" ==" +:+ newline)) by done.
  cbn [os_out os_fill os_left].
  destruct (disassemble_loop_spec c (length (code c)) 0
              (mkOStream 0 (os_fill o) (os_left o)
                 (((os_out o ++ ["== "]) ++ [name]) ++ [" ==" +:+ newline])))
    as (o' & Hloop & Hout & Hw' & Hst); [simpl; lia | done | done |].
  exists o'. split; [done|]. split_and!; [|done|].
  - rewrite Hout. cbn [os_out os_left]. rewrite drop_0, firstn_all.
    by rewrite <- !app_assoc.
  - intros Hne. apply Hst. destruct (code c); [done | simpl; lia].
Qed.

Lemma disassemble_listing_witness :
  ∃ o',
    disassemble "demo" (chunk_of [mkInstruction PUSH 5; mkInstruction HALT 0] [])
                (mkOStream 0 (Ascii.ascii_of_nat 32) false []) = Some o' ∧
    os_out o' =
      ["== "; "demo"; " ==" +:+ newline;
       "0000"; " "; "0001"; " "; "PUSH000000000000"; "50000000"; newline;
       "1000"; " "; "   | "; "HALT000000000000"; newline].
Proof.
  destruct (disassemble_listing
              (chunk_of [mkInstruction PUSH 5; mkInstruction HALT 0] []) "demo"
              (mkOStream 0 (Ascii.ascii_of_nat 32) false []))
    as (o' & Hd & Hout & _).
  - simpl. lia.
  - reflexivity.
  - exists o'. split; [exact Hd|]. rewrite Hout. vm_compute. reflexivity.
Defined.

(** * The profiler *)

Section Profiling.

Lemma hot_spot_inj ip ip' : hot_spot ip = hot_spot ip' → ip = ip'.
Proof.
  unfold hot_spot. intros H. apply (inj _) in H. by apply (inj pretty).
Qed.

Lemma occurrences_cons i ip ips :
  occurrences ip (i :: ips) =
  (if decide (i = ip) then 1 else 0) + occurrences ip ips.
Proof.
  unfold occurrences. rewrite filter_cons.
  destruct (decide (i = ip)); simpl; lia.
Qed.

Lemma occurrences_bounds ip ips :
  0 <= occurrences ip ips <= Z.of_nat (length ips).
Proof.
  unfold occurrences. pose proof (length_filter (fun i => i = ip) ips). lia.
Qed.

(** One call. *)
Lemma profileExecution_spec ip p :
  0 <= executionCount p ip < 2 ^ 31 - 1 →
  (∀ j, executionCount (profileExecution ip p) j =
        executionCount p j + (if decide (ip = j) then 1 else 0)) ∧
  cout (base (profileExecution ip p)) =
    cout (base p) ++
    (if decide (executionCount p ip = 99) then [hot_spot ip] else []) ∧
  jit (profileExecution ip p) = jit p ∧
  stack (base (profileExecution ip p)) = stack (base p) ∧
  cerr (base (profileExecution ip p)) = cerr (base p).
Proof.
  intros Hc. unfold profileExecution.
  assert (Hw : wrap32 (executionCount p ip + 1) = executionCount p ip + 1).
  { unfold wrap32. rewrite Z.mod_small; lia. }
  rewrite Hw.
  assert (Hcounts : ∀ b j,
            executionCount (mkProfilingVM b
               (<[ip := executionCount p ip + 1]> (executionCounts p)) (jit p)) j
            = executionCount p j + (if decide (ip = j) then 1 else 0)).
  { intros b j. unfold executionCount at 1. simpl.
    destruct (decide (ip = j)) as [->|Hne].
    - by rewrite lookup_insert_eq.
    - rewrite lookup_insert_ne by done. unfold executionCount. lia. }
  destruct (Z.eqb_spec (executionCount p ip + 1) 100) as [H100|H100].
  - rewrite decide_True by lia. split_and!; try done; apply Hcounts.
  - rewrite decide_False by lia. rewrite app_nil_r.
    split_and!; try done; apply Hcounts.
Qed.

End Profiling.

(** X30. The profiler reports each hot spot once. After any series of
    [profileExecution] calls (short enough for the [int] counters not to
    overflow), the counter of every address has grown by the number of calls
    for that address; the lines written to the output are the hot-spot
    reports of exactly those addresses whose counter reached 100 during the
    series, each written once; and the calls touch neither the JIT
    compiler's table nor the operand stack nor the error stream. *)
Theorem hot_spot_is_reported_once (ips : list Z) (p : ProfilingVM) :
  (∀ ip, 0 <= executionCount p ip ∧
         executionCount p ip + Z.of_nat (length ips) < 2 ^ 31) →
  ∃ out,
    cout (base (profileExecutions ips p)) = cout (base p) ++ out ∧
    (∀ ip, executionCount (profileExecutions ips p) ip =
           executionCount p ip + occurrences ip ips) ∧
    (∀ s, s ∈ out ↔
          ∃ ip, s = hot_spot ip ∧
                executionCount p ip < 100 <= executionCount p ip + occurrences ip ips) ∧
    NoDup out ∧
    jit (profileExecutions ips p) = jit p ∧
    stack (base (profileExecutions ips p)) = stack (base p) ∧
    cerr (base (profileExecutions ips p)) = cerr (base p).
Proof.
  revert p. induction ips as [|i ips IH]; intros p Hp.
  - exists []. simpl. rewrite app_nil_r. split_and!; try done.
    + intros ip. unfold occurrences. simpl. lia.
    + intros s. split; [by intros ?%elem_of_nil|].
      intros (ip & _ & Hlt). unfold occurrences in Hlt. simpl in Hlt. lia.
    + constructor.
  - simpl in Hp.
    destruct (profileExecution_spec i p) as (Hc1 & Ho1 & Hj1 & Hs1 & He1).
    { specialize (Hp i). lia. }
    destruct (IH (profileExecution i p)) as (out & Ho & Hc & Hin & Hnd & Hj & Hs & He).
    { intros ip. rewrite Hc1. specialize (Hp ip).
      destruct (decide (i = ip)); lia. }
    simpl.
    exists ((if decide (executionCount p i = 99) then [hot_spot i] else []) ++ out).
    split_and!.
    + by rewrite Ho, Ho1, app_assoc.
    + intros ip. rewrite Hc, Hc1, occurrences_cons. lia.
    + intros s. rewrite elem_of_app, Hin. split.
      * intros [Hs0|(ip & -> & Hlt)].
        -- destruct (decide (executionCount p i = 99)) as [H99|_];
             [|by apply elem_of_nil in Hs0].
           apply list_elem_of_singleton in Hs0 as ->. exists i. split; [done|].
           rewrite occurrences_cons, decide_True by done.
           pose proof (occurrences_bounds i ips). lia.
        -- exists ip. split; [done|]. rewrite Hc1 in Hlt.
           rewrite occurrences_cons. destruct (decide (i = ip)); lia.
      * intros (ip & -> & Hlt). rewrite occurrences_cons in Hlt.
        destruct (decide (i = ip)) as [->|Hne].
        -- destruct (decide (executionCount p ip = 99)) as [H99|Hn99].
           ++ left. by left.
           ++ right. exists ip. split; [done|]. rewrite Hc1.
              rewrite decide_True by done. lia.
        -- right. exists ip. split; [done|]. rewrite Hc1.
           rewrite decide_False by done. lia.
    + apply NoDup_app. split_and!; [|intros s Hs0|done].
      * destruct (decide _); [apply NoDup_singleton | constructor].
      * destruct (decide (executionCount p i = 99)) as [H99|_];
          [|by apply elem_of_nil in Hs0].
        apply list_elem_of_singleton in Hs0 as ->.
        rewrite Hin. intros (ip & Heq & Hlt). apply hot_spot_inj in Heq as <-.
        rewrite Hc1, decide_True in Hlt by done. lia.
    + by rewrite Hj.
    + by rewrite Hs.
    + by rewrite He.
Qed.

Lemma hot_spot_is_reported_once_witness :
  ∃ out,
    cout (base (profileExecutions (replicate 150 7 ++ replicate 99 8)
                  (mkProfilingVM fresh_VM ∅ new_JITCompiler))) = [] ++ out ∧
    executionCount (profileExecutions (replicate 150 7 ++ replicate 99 8)
                      (mkProfilingVM fresh_VM ∅ new_JITCompiler)) 7 = 150 ∧
    hot_spot 7 ∈ out ∧ hot_spot 8 ∉ out.
Proof.
  destruct (hot_spot_is_reported_once (replicate 150 7 ++ replicate 99 8)
              (mkProfilingVM fresh_VM ∅ new_JITCompiler))
    as (out & Ho & Hc & Hin & _).
  - intros ip. unfold executionCount. simpl. rewrite lookup_empty.
    split; [done|]. vm_compute. reflexivity.
  - assert (H7 : occurrences 7 (replicate 150 7 ++ replicate 99 8) = 150)
      by (vm_compute; reflexivity).
    assert (H8 : occurrences 8 (replicate 150 7 ++ replicate 99 8) = 99)
      by (vm_compute; reflexivity).
    assert (H0 : ∀ ip, executionCount
                         (mkProfilingVM fresh_VM ∅ new_JITCompiler) ip = 0).
    { intros ip. unfold executionCount. simpl. by rewrite lookup_empty. }
    exists out. split_and!.
    + exact Ho.
    + by rewrite Hc, H7, H0.
    + apply Hin. exists 7. split; [done|]. rewrite H7, H0. lia.
    + intros (ip & Heq & Hlt)%Hin. apply hot_spot_inj in Heq as <-.
      rewrite H8, H0 in Hlt. lia.
Defined.
